(** * Concurrent image processor: pixel filters, row splitter, fan-out and pool

    A shallow embedding of [internal/processor] (filters.go, processor.go,
    worker.go) and [internal/models].

    Conventions.
    - A Go [uint8] is a [Z] in [0, 256); arithmetic on it wraps modulo 256 and
      the wrap is written out ([uint8_sub]).
    - A Go [int] is a [Z]; where the source computes on caller-supplied ints
      the 64-bit wrap is written out ([int_add], [int_mul], [int_neg]).
      Positions inside a slice are below its length, which fits an [int].
    - A Go [float64] is the kernel's binary64 [float]: every operation is
      rounded on its own to nearest-even, as the gc compiler does on amd64
      (no fused multiply-add).
    - A Go [[]uint8] is a [list Z]; indexing out of range panics, and a panic
      is [None] in the option monad. *)

From Stdlib Require Import ZArith Zpower Floats Uint63 Lia Bool.
From stdpp Require Import base option list strings pretty gmap.

Set Default Proof Using "Type".
Local Open Scope Z_scope.

(** ** Go runtime: integers, floats, slices, loops *)

Module Go.

Definition is_uint8 (c : Z) : Prop := 0 <= c < 256.

Definition is_bytes (s : list Z) : Prop := Forall is_uint8 s.

(** [a - b] on [uint8] operands. *)
Definition uint8_sub (a b : Z) : Z := (a - b) mod 256.

Definition min_int : Z := - 2 ^ 63.
Definition max_int : Z := 2 ^ 63 - 1.

Definition is_int (z : Z) : Prop := min_int <= z <= max_int.

Definition wrap_int (z : Z) : Z := (z + 2 ^ 63) mod 2 ^ 64 - 2 ^ 63.

Definition int_add (a b : Z) : Z := wrap_int (a + b).
Definition int_mul (a b : Z) : Z := wrap_int (a * b).
Definition int_neg (a : Z) : Z := wrap_int (- a).

(** [a / b] on ints: truncated division, a run-time panic when [b] is 0. *)
Definition int_div (a b : Z) : option Z :=
  if b =? 0 then None else Some (wrap_int (Z.quot a b)).

(** [float64(c)] for a [uint8] (or any non-negative int below 2^63). *)
Definition float64_of_uint8 (c : Z) : float :=
  PrimFloat.of_uint63 (Uint63.of_Z c).

(** [float64(n)] for an [int]. *)
Definition float64_of_int (n : Z) : float :=
  if n <? 0 then (- PrimFloat.of_uint63 (Uint63.of_Z (- n)))%float
  else PrimFloat.of_uint63 (Uint63.of_Z n).

(** The integer part of a finite float (truncation towards zero). *)
Definition trunc_float (f : float) : option Z :=
  match Prim2SF f with
  | S754_zero _ => Some 0
  | S754_finite s m e =>
      let v := match e with
               | Z0 => Zpos m
               | Zpos _ => Zpos m * 2 ^ e
               | Zneg p => Zpos m / 2 ^ Zpos p
               end in
      Some (if s then - v else v)
  | _ => None
  end.

(** [uint8(f)]: the fraction is discarded.  Go leaves the result open when
    the value does not fit; amd64 yields the low byte, and 0 for NaN and
    the infinities. Every conversion the filters perform on finite
    parameters is of a value inside [0, 255]. *)
Definition uint8_of_float64 (f : float) : Z :=
  match trunc_float f with
  | Some z => z mod 256
  | None => 0
  end.

(** [int(f)]: the fraction is discarded; when the value does not fit,
    amd64 yields the smallest int. *)
Definition int_of_float64 (f : float) : Z :=
  match trunc_float f with
  | Some z => if (min_int <=? z) && (z <=? max_int) then z else min_int
  | None => min_int
  end.

(** [math.Min] and [math.Max], with their special cases. *)
Definition math_Min (x y : float) : float :=
  if PrimFloat.eqb x neg_infinity || PrimFloat.eqb y neg_infinity
  then neg_infinity
  else if is_nan x || is_nan y then nan
  else if PrimFloat.eqb x 0 && PrimFloat.eqb x y
  then (if get_sign x then x else y)
  else if PrimFloat.ltb x y then x else y.

Definition math_Max (x y : float) : float :=
  if PrimFloat.eqb x infinity || PrimFloat.eqb y infinity
  then infinity
  else if is_nan x || is_nan y then nan
  else if PrimFloat.eqb x 0 && PrimFloat.eqb x y
  then (if get_sign x then y else x)
  else if PrimFloat.ltb y x then x else y.

(** [make([]uint8, n)]. *)
Definition make (n : Z) : list Z := replicate (Z.to_nat n) 0.

Definition len {A : Type} (s : list A) : Z := Z.of_nat (length s).

(** [s[i]] as a value: panics outside [0, len(s)). *)
Definition load {A : Type} (s : list A) (i : Z) : option A :=
  if decide (0 <= i) then s !! Z.to_nat i else None.

(** [s[i] = v]: panics outside [0, len(s)). *)
Definition store {A : Type} (s : list A) (i : Z) (v : A) : option (list A) :=
  if decide (0 <= i < len s) then Some (<[Z.to_nat i := v]> s) else None.

(** [copy(dst, src)]: the first [min(len(dst), len(src))] elements. *)
Definition copy (dst src : list Z) : list Z :=
  take (length dst) src ++ drop (length src) dst.

(** [n] rounds of a loop body, the loop variable starting at [i] and
    advancing by [step]. *)
Fixpoint iterate {S : Type} (n : nat) (i step : Z)
    (body : Z -> S -> option S) (s : S) : option S :=
  match n with
  | O => Some s
  | Datatypes.S n' => s' ← body i s; iterate n' (i + step) step body s'
  end.

(** [for i := lo; i < hi; i += step { body }], for [step > 0] and a body
    that leaves [i] alone. *)
Definition for_lt {S : Type} (lo hi step : Z)
    (body : Z -> S -> option S) (s : S) : option S :=
  iterate (Z.to_nat ((hi - lo + step - 1) / step)) lo step body s.

(** [for i := lo; i <= hi; i++ { body }], for [hi] below the largest int. *)
Definition for_le {S : Type} (lo hi : Z)
    (body : Z -> S -> option S) (s : S) : option S :=
  for_lt lo (hi + 1) 1 body s.

(** Go [error] values: [errors.New]/[fmt.Errorf] without [%w], and
    [fmt.Errorf] with a trailing [%w]; [nil] is [None] in [option error]. *)
Inductive error : Type :=
| errors_New (msg : string)
| fmt_Errorf_w (msg : string) (wrapped : error).

(** [err.Error()]. *)
Fixpoint Error (e : error) : string :=
  match e with
  | errors_New msg => msg
  | fmt_Errorf_w msg wrapped => msg +:+ Error wrapped
  end.

(** [context.Canceled], what [ctx.Err()] returns after a cancel. *)
Definition context_Canceled : error := errors_New "context canceled".

End Go.

(** ** Go's [image] and [image/color] packages, as far as the program uses
    them.  Coordinates and offsets of an image stay below the length of its
    pixel buffer, so their arithmetic is written without wrap-around. *)

Module image.
Import Go.

Record Point := { X : Z; Y : Z }.

Record Rectangle := { Min : Point; Max : Point }.

Definition Dx (r : Rectangle) : Z := X (Max r) - X (Min r).
Definition Dy (r : Rectangle) : Z := Y (Max r) - Y (Min r).

(** [p.In(r)]. *)
Definition Point_In (p : Point) (r : Rectangle) : bool :=
  (X (Min r) <=? X p) && (X p <? X (Max r))
  && (Y (Min r) <=? Y p) && (Y p <? Y (Max r)).

(** [color.RGBA]. *)
Record color_RGBA := { R : Z; G : Z; B : Z; A : Z }.

(** [image.RGBA]. *)
Record RGBA := { Pix : list Z; Stride : Z; Rect : Rectangle }.

Definition Bounds (p : RGBA) : Rectangle := Rect p.

Definition PixOffset (p : RGBA) (x y : Z) : Z :=
  (y - Y (Min (Rect p))) * Stride p + (x - X (Min (Rect p))) * 4.

(** [p.RGBAAt(x, y)]; the slice expression [p.Pix[i : i+4 : i+4]] panics
    when it leaves the buffer. *)
Definition RGBAAt (p : RGBA) (x y : Z) : option color_RGBA :=
  if negb (Point_In {| X := x; Y := y |} (Rect p))
  then Some {| R := 0; G := 0; B := 0; A := 0 |}
  else
    let i := PixOffset p x y in
    if decide (0 <= i /\ i + 4 <= len (Pix p)) then
      s0 ← load (Pix p) i;
      s1 ← load (Pix p) (i + 1);
      s2 ← load (Pix p) (i + 2);
      s3 ← load (Pix p) (i + 3);
      Some {| R := s0; G := s1; B := s2; A := s3 |}
    else None.

(** [p.SetRGBA(x, y, c)]: the image is updated in place, so the updated
    image is returned. *)
Definition SetRGBA (p : RGBA) (x y : Z) (c : color_RGBA) : option RGBA :=
  if negb (Point_In {| X := x; Y := y |} (Rect p)) then Some p
  else
    let i := PixOffset p x y in
    if decide (0 <= i /\ i + 4 <= len (Pix p)) then
      pix ← store (Pix p) i (R c);
      pix ← store pix (i + 1) (G c);
      pix ← store pix (i + 2) (B c);
      pix ← store pix (i + 3) (A c);
      Some {| Pix := pix; Stride := Stride p; Rect := Rect p |}
    else None.

(** [image.NewRGBA(r)]; it panics on negative or huge dimensions. *)
Definition NewRGBA (r : Rectangle) : option RGBA :=
  if (Dx r <? 0) || (Dy r <? 0) || (max_int <? 4 * Dx r * Dy r) then None
  else Some {| Pix := make (4 * Dx r * Dy r); Stride := 4 * Dx r; Rect := r |}.

(** An [image.Image]: its bounds and its colour at each point, already
    converted by [color.RGBAModel]. *)
Record Image := { Image_Bounds : Rectangle; Image_At : Z -> Z -> color_RGBA }.

(** [p.Set(x, y, c)] for a colour already in the RGBA model. *)
Definition RGBA_Set (p : RGBA) (x y : Z) (c : color_RGBA) : option RGBA :=
  SetRGBA p x y c.

End image.

(** ** internal/models *)

Module models.

Definition FilterType := string.

Definition FilterGrayScale : FilterType := "grayscale".
Definition FilterBlur : FilterType := "blur".
Definition FilterBrightness : FilterType := "brightness".
Definition FilterConstrast : FilterType := "contrast".

Record FilterParams := {
  BlurRadius : float;
  Brightness : float;
  Contrast : float;
  Quality : Z
}.

Record ImageJob := {
  ID : string;
  InputPath : string;
  OutputPath : string;
  Filter : FilterType;
  Params : FilterParams
}.

Record ImageMetadata := {
  Width : Z;
  Height : Z;
  Format : string;
  OriginalSize : Z;
  ProcessedSize : Z;
  RowsProcessed : Z
}.

(** [ProcessingTime] is a duration in nanoseconds; [Error] is [None] for
    Go's [nil]. *)
Record ProcessingResult := {
  res_InputPath : string;
  res_OutputPath : string;
  ProcessingTime : Z;
  res_Error : option Go.error;
  Metadata : ImageMetadata
}.

Record RowJob := {
  job_ImageID : string;
  job_RowIndex : Z;
  job_Pixels : list Z;
  job_Width : Z;
  job_Bounds : image.Rectangle;
  job_Filter : FilterType;
  job_Params : FilterParams
}.

(** In [Pixels] the nil slice is [None]. *)
Record RowResult := {
  ImageID : string;
  RowIndex : Z;
  Pixels : option (list Z);
  row_Error : option Go.error;
  Duration : Z
}.

End models.

(** ** internal/processor/filters.go *)

Module filters.
Import Go models.

Definition Filter : Type := list Z -> Z -> FilterParams -> option (list Z).

(** [clamp]: [math.Max(0, math.Min(255, value))]. *)
Definition clamp (value : float) : float :=
  math_Max 0 (math_Min 255 value).

Local Set Warnings "-inexact-float".

(** [uint8(0.299*r + 0.587*g + 0.114*b)] on the float64 images of the
    three channels. *)
Definition gray_of (r g b : Z) : Z :=
  uint8_of_float64
    (0.299 * float64_of_uint8 r + 0.587 * float64_of_uint8 g
     + 0.114 * float64_of_uint8 b)%float.

Local Set Warnings "inexact-float".

Definition ApplyGrayScale : Filter := fun src width params =>
  if negb (Z.rem (len src) 4 =? 0) then Some src
  else
    let dst := make (len src) in
    for_lt 0 (len src) 4 (fun i dst =>
      r ← load src i;
      g ← load src (i + 1);
      b ← load src (i + 2);
      a ← load src (i + 3);
      let gray := gray_of r g b in
      dst ← store dst i gray;
      dst ← store dst (i + 1) gray;
      dst ← store dst (i + 2) gray;
      store dst (i + 3) a) dst.

Definition brightness_of (factor : float) (c : Z) : Z :=
  uint8_of_float64 (clamp (float64_of_uint8 c * factor)%float).

Definition ApplyBrightness : Filter := fun src width params =>
  if negb (Z.rem (len src) 4 =? 0) then Some src
  else
    let dst := make (len src) in
    let factor := Brightness params in
    for_lt 0 (len src) 4 (fun i dst =>
      c0 ← load src i;
      c1 ← load src (i + 1);
      c2 ← load src (i + 2);
      a ← load src (i + 3);
      let r := clamp (float64_of_uint8 c0 * factor)%float in
      let g := clamp (float64_of_uint8 c1 * factor)%float in
      let b := clamp (float64_of_uint8 c2 * factor)%float in
      dst ← store dst i (uint8_of_float64 r);
      dst ← store dst (i + 1) (uint8_of_float64 g);
      dst ← store dst (i + 2) (uint8_of_float64 b);
      store dst (i + 3) a) dst.

(** One channel of [ApplyContrast]: the subtraction [src[i]-128] is
    between [uint8] operands and happens before the conversion to
    float64. *)
Definition contrast_of (factor : float) (c : Z) : Z :=
  uint8_of_float64
    (clamp (float64_of_uint8 (uint8_sub c 128) * factor + 128)%float).

Definition ApplyContrast : Filter := fun src width params =>
  if negb (Z.rem (len src) 4 =? 0) then Some src
  else
    let dst := make (len src) in
    let factor := Contrast params in
    for_lt 0 (len src) 4 (fun i dst =>
      c0 ← load src i;
      c1 ← load src (i + 1);
      c2 ← load src (i + 2);
      a ← load src (i + 3);
      let r := clamp (float64_of_uint8 (uint8_sub c0 128) * factor + 128)%float in
      let g := clamp (float64_of_uint8 (uint8_sub c1 128) * factor + 128)%float in
      let b := clamp (float64_of_uint8 (uint8_sub c2 128) * factor + 128)%float in
      dst ← store dst i (uint8_of_float64 r);
      dst ← store dst (i + 1) (uint8_of_float64 g);
      dst ← store dst (i + 2) (uint8_of_float64 b);
      store dst (i + 3) a) dst.

(** The accumulators of one output pixel of the box blur. *)
Record blur_acc := {
  acc_r : float; acc_g : float; acc_b : float; acc_a : float;
  acc_count : Z
}.

Definition blur_acc0 : blur_acc :=
  {| acc_r := 0; acc_g := 0; acc_b := 0; acc_a := 0; acc_count := 0 |}.

(** The body of the innermost loop: one candidate sample [(x+dx, y+dy)]. *)
Definition blur_sample (src : list Z) (width height x y dy dx : Z)
    (acc : blur_acc) : option blur_acc :=
  let nx := int_add x dx in
  let ny := int_add y dy in
  if (0 <=? nx) && (nx <? width) && (0 <=? ny) && (ny <? height) then
    let idx := int_mul (int_add (int_mul ny width) nx) 4 in
    v0 ← load src idx;
    v1 ← load src (int_add idx 1);
    v2 ← load src (int_add idx 2);
    v3 ← load src (int_add idx 3);
    Some {| acc_r := (acc_r acc + float64_of_uint8 v0)%float;
            acc_g := (acc_g acc + float64_of_uint8 v1)%float;
            acc_b := (acc_b acc + float64_of_uint8 v2)%float;
            acc_a := (acc_a acc + float64_of_uint8 v3)%float;
            acc_count := int_add (acc_count acc) 1 |}
  else Some acc.

(** The two sampling loops of one output pixel. *)
Definition blur_window (src : list Z) (width height radius x y : Z)
    : option blur_acc :=
  for_le (int_neg radius) radius (fun dy acc =>
    for_le (int_neg radius) radius (fun dx acc =>
      blur_sample src width height x y dy dx acc) acc) blur_acc0.

(** The body of the [x] loop: sample, then write the four means. *)
Definition blur_pixel (src : list Z) (width height radius y x : Z)
    (dst : list Z) : option (list Z) :=
  acc ← blur_window src width height radius x y;
  if 0 <? acc_count acc then
    let idx := int_mul (int_add (int_mul y width) x) 4 in
    let n := float64_of_int (acc_count acc) in
    dst ← store dst idx (uint8_of_float64 (acc_r acc / n)%float);
    dst ← store dst (int_add idx 1) (uint8_of_float64 (acc_g acc / n)%float);
    dst ← store dst (int_add idx 2) (uint8_of_float64 (acc_b acc / n)%float);
    store dst (int_add idx 3) (uint8_of_float64 (acc_a acc / n)%float)
  else Some dst.

Definition ApplyBlur : Filter := fun src width params =>
  if negb (Z.rem (len src) 4 =? 0) then Some src
  else
    height ← int_div (len src) (int_mul width 4);
    if height <=? 0 then Some src
    else
      let dst := make (len src) in
      let radius := int_of_float64 (BlurRadius params) in
      if radius <=? 0 then Some (copy dst src)
      else
        for_lt 0 height 1 (fun y dst =>
          for_lt 0 width 1 (fun x dst =>
            blur_pixel src width height radius y x dst) dst) dst.

(** [FilterRegistry]: the package-level map from filter name to filter. *)
Definition FilterRegistry : gmap FilterType Filter :=
  <[FilterGrayScale := ApplyGrayScale]>
    (<[FilterConstrast := ApplyContrast]>
       (<[FilterBrightness := ApplyBrightness]>
          (<[FilterBlur := ApplyBlur]> ∅))).

Import image.

Definition ImageToRGBA (img : Image) : option RGBA :=
  let bounds := Image_Bounds img in
  rgba ← NewRGBA bounds;
  for_lt (Y (Min bounds)) (Y (Max bounds)) 1 (fun y rgba =>
    for_lt (X (Min bounds)) (X (Max bounds)) 1 (fun x rgba =>
      RGBA_Set rgba x y (Image_At img x y)) rgba) rgba.

(** [ExtractRowPixels]: the inner [None] is the nil slice returned for a
    row outside the image; [make] panics on a negative length. *)
Definition ExtractRowPixels (img : RGBA) (row : Z)
    : option (option (list Z)) :=
  let bounds := Bounds img in
  let widht := Dx bounds in
  if (row <? 0) || (row >=? Dy bounds) then Some None
  else if widht * 4 <? 0 then None
  else
    let pixels := make (widht * 4) in
    let y := Y (Min bounds) + row in
    pixels ← for_lt 0 widht 1 (fun x pixels =>
      c ← RGBAAt img (X (Min bounds) + x) y;
      let idx := x * 4 in
      pixels ← store pixels idx (R c);
      pixels ← store pixels (idx + 1) (G c);
      pixels ← store pixels (idx + 2) (B c);
      store pixels (idx + 3) (A c)) pixels;
    Some (Some pixels).

(** [SetRowPixels] writes through the image pointer; the updated image is
    returned. *)
Definition SetRowPixels (img : RGBA) (row : Z) (pixels : list Z)
    : option RGBA :=
  let bounds := Bounds img in
  let width := Dx bounds in
  if (row <? 0) || (row >=? Dy bounds) || negb (len pixels =? width * 4)
  then Some img
  else
    let y := Y (Min bounds) + row in
    for_lt 0 width 1 (fun x img =>
      let idx := x * 4 in
      r ← load pixels idx;
      g ← load pixels (idx + 1);
      b ← load pixels (idx + 2);
      a ← load pixels (idx + 3);
      let c := {| R := r; G := g; B := b; A := a |} in
      SetRGBA img (X (Min bounds) + x) y c) img.

End filters.

(** ** internal/config and the platform *)

Module config.

Record Config := {
  InputDir : string;
  OutputDir : string;
  Filter : string;
  Workers : Z;
  RowWorkers : Z;
  Quality : Z;
  BlurRadius : float;
  Brightness : float;
  Contrast : float;
  MaxFileSize : Z;
  BufferSize : Z
}.

(** The [validFilters] map of [Validate]. *)
Definition validFilters : gmap string bool :=
  <["grayscale" := true]>
    (<["blur" := true]>
       (<["brightness" := true]>
          (<["contrast" := true]> ∅))).

(** [(c *Config) Validate()]; [nil] is [None]. A missing key of
    [validFilters] reads as [false]. *)
Definition Validate (c : Config) : option Go.error :=
  if Workers c <=? 0 then
    Some (Go.errors_New "workers must be greater than 0")
  else if RowWorkers c <=? 0 then
    Some (Go.errors_New "row_workers must be greater than 0")
  else if (Quality c <? 0) || (100 <? Quality c) then
    Some (Go.errors_New "quality must be between 1 and 100")
  else if PrimFloat.ltb (BlurRadius c) 0 then
    Some (Go.errors_New "blur_radius must be non-zero")
  else if PrimFloat.leb (Brightness c) 0 then
    Some (Go.errors_New "brightness must be greater than 0")
  else if MaxFileSize c <=? 0 then
    Some (Go.errors_New "max_file_size must be greater than 0")
  else if BufferSize c <=? 0 then
    Some (Go.errors_New "buffer_size must be greater than 0")
  else if negb (default false (validFilters !! Filter c)) then
    Some (Go.errors_New
      "invalid filter: must be grayscale, blur, brightness, or contrast")
  else None.

End config.

(** The operating system, the codecs and the path and string helpers of the
    standard library, as the answers they give during one image job. *)

Module platform.
Import Go image.

(** What reaches the file system. *)
Inductive fs_event : Type :=
| Created (path : string)
| Encoded (path : string) (format : string) (img : RGBA).

Record Platform := {
  (** [os.Stat(path)] before the job: the size, or an error. *)
  os_Stat : string -> error + Z;
  (** [os.Stat(path)] of the output once it is saved. *)
  os_Stat_saved : string -> error + Z;
  os_Open : string -> option error;
  os_Create : string -> option error;
  webp_Decode : string -> error + Image;
  bmp_Decode : string -> error + Image;
  tiff_Decode : string -> error + Image;
  image_Decode : string -> error + (Image * string);
  jpeg_Encode : string -> RGBA -> Z -> option error;
  png_Encode : string -> RGBA -> option error;
  filepath_Ext : string -> string;
  filepath_Dir : string -> string;
  filepath_Base : string -> string;
  filepath_Join : string -> string -> string;
  strings_ToLower : string -> string;
  strings_TrimSuffix : string -> string -> string;
  (** [time.Since(startTime)] at the end of the job. *)
  time_Since : Z
}.

End platform.

(** ** internal/processor/processor.go: one image job *)

Module processor.
Import Go image models filters platform.

Section with_platform.
Context (pf : Platform) (cfg : config.Config).

Definition loadImage (path : string) : error + (Image * string) :=
  match os_Open pf path with
  | Some err => inl err
  | None =>
      let ext := strings_ToLower pf (filepath_Ext pf path) in
      if decide (ext = ".webp") then
        match webp_Decode pf path with
        | inl err => inl err | inr img => inr (img, "webp") end
      else if decide (ext = ".bmp") then
        match bmp_Decode pf path with
        | inl err => inl err | inr img => inr (img, "bmp") end
      else if decide (ext = ".tiff" \/ ext = ".tif") then
        match tiff_Decode pf path with
        | inl err => inl err | inr img => inr (img, "tiff") end
      else image_Decode pf path
  end.

(** [saveImage]: the events it causes, and its error. *)
Definition saveImage (img : RGBA) (path : string)
    (originalFormat : string) (quality : Z)
    : list fs_event * option error :=
  match os_Create pf path with
  | Some err => ([], Some err)
  | None =>
      let ext := strings_ToLower pf (filepath_Ext pf path) in
      let format :=
        if decide (ext = ".jpg" \/ ext = ".jpeg") then "jpeg"
        else if decide (ext = ".png") then "png"
        else originalFormat in
      if decide (format = "jpeg") then
        ([Created path; Encoded path "jpeg" img],
         jpeg_Encode pf path img quality)
      else
        ([Created path; Encoded path "png" img], png_Encode pf path img)
  end.

Definition generateOutputPath (inputPath : string) : string :=
  let dir := filepath_Dir pf inputPath in
  let filename := filepath_Base pf inputPath in
  let ext := filepath_Ext pf inputPath in
  let name := strings_TrimSuffix pf filename ext in
  let outputDir :=
    if decide (config.OutputDir cfg = "") then dir
    else config.OutputDir cfg in
  let outputFilename := name +:+ "_" +:+ config.Filter cfg +:+ ext in
  filepath_Join pf outputDir outputFilename.

Definition with_Error (result : ProcessingResult) (err : error)
    : ProcessingResult :=
  {| res_InputPath := res_InputPath result;
     res_OutputPath := res_OutputPath result;
     ProcessingTime := ProcessingTime result;
     res_Error := Some err;
     Metadata := Metadata result |}.

(** The goroutine started for one row: the [RowResult] it sends. *)
Definition row_task (job : ImageJob) (rgba : RGBA) (width : Z)
    (rowIndex : Z) : option RowResult :=
  pixels ← ExtractRowPixels rgba rowIndex;
  match pixels with
  | None =>
      Some {| ImageID := ID job; RowIndex := rowIndex; Pixels := None;
              row_Error := Some (errors_New
                ("failed to extract pixels for row " +:+ pretty rowIndex));
              Duration := 0 |}
  | Some pixels =>
      match FilterRegistry !! models.Filter job with
      | Some filter =>
          processPixels ← filter pixels width (Params job);
          Some {| ImageID := ID job; RowIndex := rowIndex;
                  Pixels := Some processPixels; row_Error := None;
                  Duration := 0 |}
      | None =>
          Some {| ImageID := ID job; RowIndex := rowIndex; Pixels := None;
                  row_Error := Some (errors_New
                    ("unknown filter: " +:+ models.Filter job));
                  Duration := 0 |}
      end
  end.

(** [for rowResult := range rowResults]: the results in the order they
    arrive; the first one with an error ends the job. *)
Fixpoint collect_rows (arrivals : list RowResult)
    (processedRows : list (option (list Z)))
    : option (error + list (option (list Z))) :=
  match arrivals with
  | [] => Some (inr processedRows)
  | rowResult :: arrivals =>
      match row_Error rowResult with
      | Some err => Some (inl (fmt_Errorf_w "row processing failed: " err))
      | None =>
          processedRows ←
            store processedRows (RowIndex rowResult) (Pixels rowResult);
          collect_rows arrivals processedRows
      end
  end.

(** The write-back loop over the rows that were filled in. *)
Definition write_back (rgba : RGBA) (height : Z)
    (processedRows : list (option (list Z))) : option RGBA :=
  for_lt 0 height 1 (fun row rgba =>
    pixels ← load processedRows row;
    match pixels with
    | Some pixels => SetRowPixels rgba row pixels
    | None => Some rgba
    end) rgba.

(** [ProcessSingleImage].  [order] is the order in which the row
    goroutines deliver their results, a permutation of the rows. The
    outcome is the [ProcessingResult] and the file-system events. *)
Definition ProcessSingleImage (order : list Z) (job : ImageJob)
    : option (ProcessingResult * list fs_event) :=
  let result :=
    {| res_InputPath := InputPath job; res_OutputPath := OutputPath job;
       ProcessingTime := 0; res_Error := None;
       Metadata := {| Width := 0; Height := 0; Format := "";
                      OriginalSize := 0; ProcessedSize := 0;
                      RowsProcessed := 0 |} |} in
  match os_Stat pf (InputPath job) with
  | inl err =>
      Some (with_Error result (fmt_Errorf_w "fialed to stat file: " err), [])
  | inr size =>
      if config.MaxFileSize cfg <? size then
        Some (with_Error result (errors_New
                ("file size " +:+ pretty size +:+ " exceeds maximum "
                 +:+ pretty (config.MaxFileSize cfg))), [])
      else
        match loadImage (InputPath job) with
        | inl err =>
            Some (with_Error
                    {| res_InputPath := InputPath job;
                       res_OutputPath := OutputPath job;
                       ProcessingTime := 0; res_Error := None;
                       Metadata := {| Width := 0; Height := 0; Format := "";
                                      OriginalSize := size;
                                      ProcessedSize := 0;
                                      RowsProcessed := 0 |} |}
                    (fmt_Errorf_w "failed to load image: " err), [])
        | inr (img, format) =>
            rgba ← ImageToRGBA img;
            let bounds := Bounds rgba in
            let width := Dx bounds in
            let height := Dy bounds in
            let result :=
              {| res_InputPath := InputPath job;
                 res_OutputPath := OutputPath job;
                 ProcessingTime := 0; res_Error := None;
                 Metadata := {| Width := width; Height := height;
                                Format := format; OriginalSize := size;
                                ProcessedSize := 0;
                                RowsProcessed := height |} |} in
            let processedRows := replicate (Z.to_nat height) None in
            arrivals ← mapM (row_task job rgba width) order;
            collected ← collect_rows arrivals processedRows;
            match collected with
            | inl err => Some (with_Error result err, [])
            | inr processedRows =>
                rgba ← write_back rgba height processedRows;
                let saved := saveImage rgba (OutputPath job) format
                               (models.Quality (Params job)) in
                match saved.2 with
                | Some err =>
                    Some (with_Error result
                            (fmt_Errorf_w "failed to save image: " err),
                          saved.1)
                | None =>
                    match os_Stat_saved pf (OutputPath job) with
                    | inl _ => None
                    | inr _ =>
                        Some ({| res_InputPath := InputPath job;
                                 res_OutputPath := OutputPath job;
                                 ProcessingTime := time_Since pf;
                                 res_Error := None;
                                 Metadata := Metadata result |}, saved.1)
                    end
                end
            end
        end
  end.

End with_platform.

End processor.

(** ** Channels and wait groups *)

Module sync.
Import Go.

(** A buffered channel: what is queued, the capacity, and whether it was
    closed.  The pool makes its queues with a positive capacity. *)
Record chan (A : Type) := { buf : list A; cap : Z; closed : bool }.
Arguments buf {A} _.
Arguments cap {A} _.
Arguments closed {A} _.

Definition make_chan {A : Type} (n : Z) : chan A :=
  {| buf := []; cap := n; closed := false |}.

(** [close(c)]: [None] is the panic "close of closed channel". *)
Definition close {A : Type} (c : chan A) : option (chan A) :=
  if closed c then None
  else Some {| buf := buf c; cap := cap c; closed := true |}.

(** A send that can proceed now; a send on a closed channel panics. *)
Definition can_send {A : Type} (c : chan A) : bool :=
  negb (closed c) && (len (buf c) <? cap c).

Definition push {A : Type} (c : chan A) (v : A) : chan A :=
  {| buf := buf c ++ [v]; cap := cap c; closed := closed c |}.

Definition pop {A : Type} (c : chan A) : chan A :=
  {| buf := tail (buf c); cap := cap c; closed := closed c |}.

(** The statements of a [Stop] method: close a channel of the pool, or
    [wg.Wait()]. *)
Inductive pool_op (C : Type) : Type :=
| Close (c : C)
| Wait.
Arguments Close {C} _.
Arguments Wait {C}.

Global Instance pool_op_eq_dec {C : Type} `{EqDecision C} :
  EqDecision (pool_op C).
Proof. solve_decision. Defined.

(** What one statement does: it completes, it blocks, or it panics. *)
Inductive op_outcome (P : Type) : Type :=
| Completes (p : P)
| Blocks
| Panics (msg : string).
Arguments Completes {P} _.
Arguments Blocks {P}.
Arguments Panics {P} _.

(** A straight-line method run to its end on a pool no goroutine touches
    meanwhile: the final pool and the statements that ran, or the first
    statement that blocks or panics. *)
Fixpoint run_ops {C P : Type} (exec : pool_op C -> P -> op_outcome P)
    (ops : list (pool_op C)) (p : P) : op_outcome P :=
  match ops with
  | [] => Completes p
  | op :: ops =>
      match exec op p with
      | Completes p' => run_ops exec ops p'
      | Blocks => Blocks
      | Panics msg => Panics msg
      end
  end.

End sync.

(** ** internal/processor/worker.go, the pool [processor.New] builds
    (the variant whose [NewWorkerPool] takes the processor) *)

Module worker.
Import Go models sync.

Record WorkerPool := {
  workerCount : Z;
  jobQueue : chan ImageJob;
  resultQueue : chan ProcessingResult;
  rowResults : chan RowResult;
  quit : chan bool;
  (** the counter of the [sync.WaitGroup] *)
  wg : Z
}.

Definition NewWorkerPool (workerCount bufferSize : Z) : WorkerPool :=
  {| workerCount := workerCount;
     jobQueue := make_chan bufferSize;
     resultQueue := make_chan bufferSize;
     rowResults := make_chan (bufferSize * 10);
     quit := make_chan 0;
     wg := 0 |}.

(** Where an [imageWorker] goroutine stands. *)
Inductive worker_state : Type :=
| AtSelect
| AtSend (result : ProcessingResult)
| Exited.

(** [Start]: [wg.Add(1)] and one [imageWorker] per round. *)
Definition Start (wp : WorkerPool) : WorkerPool * list worker_state :=
  ({| workerCount := workerCount wp; jobQueue := jobQueue wp;
      resultQueue := resultQueue wp; rowResults := rowResults wp;
      quit := quit wp;
      wg := wg wp + Z.max 0 (workerCount wp) |},
   replicate (Z.to_nat (workerCount wp)) AtSelect).

Inductive chan_id : Type :=
| quit_chan | jobQueue_chan | resultQueue_chan | rowResults_chan.

Global Instance chan_id_eq_dec : EqDecision chan_id.
Proof. solve_decision. Defined.

Definition is_closed (wp : WorkerPool) (c : chan_id) : bool :=
  match c with
  | quit_chan => closed (quit wp)
  | jobQueue_chan => closed (jobQueue wp)
  | resultQueue_chan => closed (resultQueue wp)
  | rowResults_chan => closed (rowResults wp)
  end.

Definition set_wg (wp : WorkerPool) (n : Z) : WorkerPool :=
  {| workerCount := workerCount wp; jobQueue := jobQueue wp;
     resultQueue := resultQueue wp; rowResults := rowResults wp;
     quit := quit wp; wg := n |}.

Definition set_jobQueue (wp : WorkerPool) (c : chan ImageJob) : WorkerPool :=
  {| workerCount := workerCount wp; jobQueue := c;
     resultQueue := resultQueue wp; rowResults := rowResults wp;
     quit := quit wp; wg := wg wp |}.

Definition set_resultQueue (wp : WorkerPool) (c : chan ProcessingResult)
    : WorkerPool :=
  {| workerCount := workerCount wp; jobQueue := jobQueue wp;
     resultQueue := c; rowResults := rowResults wp;
     quit := quit wp; wg := wg wp |}.

Definition set_rowResults (wp : WorkerPool) (c : chan RowResult)
    : WorkerPool :=
  {| workerCount := workerCount wp; jobQueue := jobQueue wp;
     resultQueue := resultQueue wp; rowResults := c;
     quit := quit wp; wg := wg wp |}.

Definition set_quit (wp : WorkerPool) (c : chan bool) : WorkerPool :=
  {| workerCount := workerCount wp; jobQueue := jobQueue wp;
     resultQueue := resultQueue wp; rowResults := rowResults wp;
     quit := c; wg := wg wp |}.

Definition close_of_closed : string := "close of closed channel".

Definition exec_op (op : pool_op chan_id) (wp : WorkerPool)
    : op_outcome WorkerPool :=
  match op with
  | Close quit_chan =>
      match close (quit wp) with
      | Some c => Completes (set_quit wp c)
      | None => Panics close_of_closed
      end
  | Close jobQueue_chan =>
      match close (jobQueue wp) with
      | Some c => Completes (set_jobQueue wp c)
      | None => Panics close_of_closed
      end
  | Close resultQueue_chan =>
      match close (resultQueue wp) with
      | Some c => Completes (set_resultQueue wp c)
      | None => Panics close_of_closed
      end
  | Close rowResults_chan =>
      match close (rowResults wp) with
      | Some c => Completes (set_rowResults wp c)
      | None => Panics close_of_closed
      end
  | Wait => if wg wp =? 0 then Completes wp else Blocks
  end.

(** [Stop]: [close(wp.quit)], [close(wp.jobQueue)], [wp.wg.Wait()],
    [close(wp.resultQueue)]. *)
Definition Stop : list (pool_op chan_id) :=
  [Close quit_chan; Close jobQueue_chan; Wait; Close resultQueue_chan].

End worker.
(** ** internal/processor/worker.go, the variant with a row-job queue and
    row workers (the second text kept under the same path) *)

Module worker_rows.
Import Go models filters sync.

Record WorkerPool := {
  workerCount : Z;
  jobQueue : chan ImageJob;
  resultQueue : chan ProcessingResult;
  rowJobQueue : chan RowJob;
  rowResults : chan RowResult;
  quit : chan bool;
  wg : Z
}.

Definition NewWorkerPool (workerCount bufferSize : Z) : WorkerPool :=
  {| workerCount := workerCount;
     jobQueue := make_chan bufferSize;
     resultQueue := make_chan bufferSize;
     rowJobQueue := make_chan (bufferSize * 10);
     rowResults := make_chan (bufferSize * 10);
     quit := make_chan 0;
     wg := 0 |}.

(** [Start]: one [imageWorker] per worker and [workerCount*2] row workers,
    each after a [wg.Add(1)]; the counter it leaves. *)
Definition Start_wg (wp : WorkerPool) : Z :=
  wg wp + Z.max 0 (workerCount wp) + Z.max 0 (int_mul (workerCount wp) 2).

Inductive chan_id : Type :=
| quit_chan | jobQueue_chan | rowJobQueue_chan | resultQueue_chan
| rowResults_chan.

Global Instance chan_id_eq_dec : EqDecision chan_id.
Proof. solve_decision. Defined.

Definition is_closed (wp : WorkerPool) (c : chan_id) : bool :=
  match c with
  | quit_chan => closed (quit wp)
  | jobQueue_chan => closed (jobQueue wp)
  | rowJobQueue_chan => closed (rowJobQueue wp)
  | resultQueue_chan => closed (resultQueue wp)
  | rowResults_chan => closed (rowResults wp)
  end.

Definition close_of_closed : string := "close of closed channel".

Definition exec_op (op : pool_op chan_id) (wp : WorkerPool)
    : op_outcome WorkerPool :=
  match op with
  | Close quit_chan =>
      match close (quit wp) with
      | Some c =>
          Completes {| workerCount := workerCount wp; jobQueue := jobQueue wp;
                       resultQueue := resultQueue wp;
                       rowJobQueue := rowJobQueue wp;
                       rowResults := rowResults wp; quit := c; wg := wg wp |}
      | None => Panics close_of_closed
      end
  | Close jobQueue_chan =>
      match close (jobQueue wp) with
      | Some c =>
          Completes {| workerCount := workerCount wp; jobQueue := c;
                       resultQueue := resultQueue wp;
                       rowJobQueue := rowJobQueue wp;
                       rowResults := rowResults wp; quit := quit wp;
                       wg := wg wp |}
      | None => Panics close_of_closed
      end
  | Close rowJobQueue_chan =>
      match close (rowJobQueue wp) with
      | Some c =>
          Completes {| workerCount := workerCount wp; jobQueue := jobQueue wp;
                       resultQueue := resultQueue wp; rowJobQueue := c;
                       rowResults := rowResults wp; quit := quit wp;
                       wg := wg wp |}
      | None => Panics close_of_closed
      end
  | Close resultQueue_chan =>
      match close (resultQueue wp) with
      | Some c =>
          Completes {| workerCount := workerCount wp; jobQueue := jobQueue wp;
                       resultQueue := c; rowJobQueue := rowJobQueue wp;
                       rowResults := rowResults wp; quit := quit wp;
                       wg := wg wp |}
      | None => Panics close_of_closed
      end
  | Close rowResults_chan =>
      match close (rowResults wp) with
      | Some c =>
          Completes {| workerCount := workerCount wp; jobQueue := jobQueue wp;
                       resultQueue := resultQueue wp;
                       rowJobQueue := rowJobQueue wp; rowResults := c;
                       quit := quit wp; wg := wg wp |}
      | None => Panics close_of_closed
      end
  | Wait => if wg wp =? 0 then Completes wp else Blocks
  end.

(** [Stop]: [close(wp.quit)], [close(wp.jobQueue)],
    [close(wp.rowJobQueue)], [wp.wg.Wait()], [close(wp.resultQueue)],
    [close(wp.resultQueue)]. *)
Definition Stop : list (pool_op chan_id) :=
  [Close quit_chan; Close jobQueue_chan; Close rowJobQueue_chan; Wait;
   Close resultQueue_chan; Close resultQueue_chan].

(** What a [rowWorker] makes of one job taken from the row queue;
    [elapsed] is [time.Since(startTime)]. *)
Definition rowWorker_result (elapsed : Z) (job : RowJob) : option RowResult :=
  match FilterRegistry !! job_Filter job with
  | Some filter =>
      pixels ← filter (job_Pixels job) (job_Width job) (job_Params job);
      Some {| ImageID := job_ImageID job; RowIndex := job_RowIndex job;
              Pixels := Some pixels; row_Error := None;
              Duration := elapsed |}
  | None =>
      Some {| ImageID := job_ImageID job; RowIndex := job_RowIndex job;
              Pixels := Some (job_Pixels job);
              row_Error := Some (errors_New
                ("unknown filter: " +:+ job_Filter job));
              Duration := elapsed |}
  end.

End worker_rows.

(** ** internal/processor/processor.go: [ProcessImages] and the goroutines
    it runs with, as a labelled transition system.  A label names the
    goroutine that moves and the [select] case it takes; a label that is
    not enabled has no successor. *)

Module batch.
Import Go models sync worker platform.

(** Where [ProcessImages] stands: in the submission loop before path [i],
    in the collection loop, inside the deferred [Stop] before its
    statement [pc] with the values of the [return] already fixed, or
    back in the caller. *)
Inductive main_state : Type :=
| Submitting (i : nat)
| Collecting (results : list ProcessingResult)
| Stopping (pc : nat) (results : list ProcessingResult) (err : option error)
| Returned (results : list ProcessingResult) (err : option error)
| Panicked (msg : string).

Record system := {
  pool : WorkerPool;
  workers : list worker_state;
  (** [ctx.Done()] is closed *)
  cancelled : bool;
  main : main_state;
  events : list fs_event
}.

Inductive label : Type :=
| Cancel
| Main_send
| Main_rejected
| Main_next
| Main_ctx_done
| Main_recv
| Main_stop
| Worker_ctx_done (w : nat)
| Worker_quit (w : nat)
| Worker_recv (w : nat) (world : Platform) (order : list Z)
| Worker_send (w : nat).

Definition send_on_closed : string := "send on closed channel".

Definition zero_result : ProcessingResult :=
  {| res_InputPath := ""; res_OutputPath := ""; ProcessingTime := 0;
     res_Error := None;
     Metadata := {| Width := 0; Height := 0; Format := "";
                    OriginalSize := 0; ProcessedSize := 0;
                    RowsProcessed := 0 |} |}.

Definition set_main (s : system) (m : main_state) : system :=
  {| pool := pool s; workers := workers s; cancelled := cancelled s;
     main := m; events := events s |}.

Definition set_pool (s : system) (wp : WorkerPool) : system :=
  {| pool := wp; workers := workers s; cancelled := cancelled s;
     main := main s; events := events s |}.

Definition set_worker (s : system) (w : nat) (st : worker_state) : system :=
  {| pool := pool s; workers := <[w := st]> (workers s);
     cancelled := cancelled s; main := main s; events := events s |}.

(** An [imageWorker] returns: its state, and the deferred [wg.Done()]. *)
Definition worker_exit (s : system) (w : nat) : system :=
  set_worker (set_pool s (set_wg (pool s) (wg (pool s) - 1))) w Exited.

Section ProcessImages.
Context (pf : Platform) (cfg : config.Config) (imagePaths : list string).

(** The job built for path [i] of the range loop. *)
Definition job_at (i : nat) (path : string) : ImageJob :=
  {| ID := "job_" +:+ pretty (Z.of_nat i);
     InputPath := path;
     OutputPath := processor.generateOutputPath pf cfg path;
     models.Filter := config.Filter cfg;
     Params := {| models.BlurRadius := config.BlurRadius cfg;
                  models.Brightness := config.Brightness cfg;
                  models.Contrast := config.Contrast cfg;
                  models.Quality := config.Quality cfg |} |}.

(** The state after [p.workerPool.Start(ctx)]. *)
Definition initial : system :=
  let started :=
    Start (NewWorkerPool (config.Workers cfg) (config.BufferSize cfg)) in
  {| pool := started.1; workers := started.2; cancelled := false;
     main := Submitting 0; events := [] |}.

Definition step_main (l : label) (s : system) : option system :=
  match l, main s with
  | Main_send, Submitting i =>
      path ← imagePaths !! i;
      if closed (jobQueue (pool s)) then
        Some (set_main s (Panicked send_on_closed))
      else if can_send (jobQueue (pool s)) then
        Some (set_main
                (set_pool s (set_jobQueue (pool s)
                   (push (jobQueue (pool s)) (job_at i path))))
                (Submitting (S i)))
      else None
  | Main_rejected, Submitting i =>
      path ← imagePaths !! i;
      if closed (quit (pool s)) then Some (set_main s (Submitting (S i)))
      else None
  | Main_next, Submitting i =>
      if decide (length imagePaths <= i)%nat
      then Some (set_main s (Collecting [])) else None
  | Main_next, Collecting results =>
      if decide (length results < length imagePaths)%nat then None
      else Some (set_main s (Stopping 0 results None))
  | Main_ctx_done, Collecting results =>
      if decide (length results < length imagePaths)%nat then
        if cancelled s
        then Some (set_main s (Stopping 0 results (Some context_Canceled)))
        else None
      else None
  | Main_recv, Collecting results =>
      if decide (length results < length imagePaths)%nat then
        match buf (resultQueue (pool s)) with
        | result :: _ =>
            Some (set_main
                    (set_pool s (set_resultQueue (pool s)
                       (pop (resultQueue (pool s)))))
                    (Collecting (results ++ [result])))
        | [] =>
            if closed (resultQueue (pool s))
            then Some (set_main s (Collecting (results ++ [zero_result])))
            else None
        end
      else None
  | Main_stop, Stopping pc results err =>
      match Stop !! pc with
      | None => Some (set_main s (Returned results err))
      | Some op =>
          match exec_op op (pool s) with
          | Completes wp =>
              Some (set_main (set_pool s wp) (Stopping (S pc) results err))
          | Blocks => None
          | Panics msg => Some (set_main s (Panicked msg))
          end
      end
  | _, _ => None
  end.

Definition step_worker (l : label) (s : system) : option system :=
  match l with
  | Worker_ctx_done w =>
      st ← workers s !! w;
      match st with
      | Exited => None
      | _ => if cancelled s then Some (worker_exit s w) else None
      end
  | Worker_quit w =>
      st ← workers s !! w;
      match st with
      | Exited => None
      | _ => if closed (quit (pool s)) then Some (worker_exit s w) else None
      end
  | Worker_recv w world order =>
      st ← workers s !! w;
      match st with
      | AtSelect =>
          match buf (jobQueue (pool s)) with
          | job :: _ =>
              match processor.ProcessSingleImage world cfg order job with
              | None => Some (set_main s (Panicked "image job"))
              | Some (result, evs) =>
                  Some {| pool := set_jobQueue (pool s)
                                    (pop (jobQueue (pool s)));
                          workers := <[w := AtSend result]> (workers s);
                          cancelled := cancelled s; main := main s;
                          events := events s ++ evs |}
              end
          | [] =>
              if closed (jobQueue (pool s)) then Some (worker_exit s w)
              else None
          end
      | _ => None
      end
  | Worker_send w =>
      st ← workers s !! w;
      match st with
      | AtSend result =>
          if closed (resultQueue (pool s)) then
            Some (set_main s (Panicked send_on_closed))
          else if can_send (resultQueue (pool s)) then
            Some (set_worker
                    (set_pool s (set_resultQueue (pool s)
                       (push (resultQueue (pool s)) result)))
                    w AtSelect)
          else None
      | _ => None
      end
  | _ => None
  end.

(** One step of the whole program; nothing moves after a panic. *)
Definition step (l : label) (s : system) : option system :=
  match main s with
  | Panicked _ => None
  | _ =>
      match l with
      | Cancel =>
          Some {| pool := pool s; workers := workers s; cancelled := true;
                  main := main s; events := events s |}
      | Main_send | Main_rejected | Main_next | Main_ctx_done | Main_recv
      | Main_stop => step_main l s
      | _ => step_worker l s
      end
  end.

Fixpoint run (trace : list label) (s : system) : option system :=
  match trace with
  | [] => Some s
  | l :: trace => s' ← step l s; run trace s'
  end.

(** The states [ProcessImages] can be in. *)
Definition reachable (s : system) : Prop :=
  exists trace, run trace initial = Some s.

End ProcessImages.

End batch.

(** ** cmd/processor/main.go *)

Module cmd.
Import Go config platform.

(** The command-line flags [main] reads back into the configuration. *)
Record Flags := {
  inputDir : string;
  outputDir : string;
  filter : string;
  workers : Z;
  rowWorkers : Z
}.

Definition set_InputDir (cfg : Config) (v : string) : Config :=
  {| InputDir := v; OutputDir := OutputDir cfg; Filter := Filter cfg;
     Workers := Workers cfg; RowWorkers := RowWorkers cfg;
     Quality := Quality cfg; BlurRadius := BlurRadius cfg;
     Brightness := Brightness cfg; Contrast := Contrast cfg;
     MaxFileSize := MaxFileSize cfg; BufferSize := BufferSize cfg |}.

Definition set_OutputDir (cfg : Config) (v : string) : Config :=
  {| InputDir := InputDir cfg; OutputDir := v; Filter := Filter cfg;
     Workers := Workers cfg; RowWorkers := RowWorkers cfg;
     Quality := Quality cfg; BlurRadius := BlurRadius cfg;
     Brightness := Brightness cfg; Contrast := Contrast cfg;
     MaxFileSize := MaxFileSize cfg; BufferSize := BufferSize cfg |}.

Definition set_Filter (cfg : Config) (v : string) : Config :=
  {| InputDir := InputDir cfg; OutputDir := OutputDir cfg; Filter := v;
     Workers := Workers cfg; RowWorkers := RowWorkers cfg;
     Quality := Quality cfg; BlurRadius := BlurRadius cfg;
     Brightness := Brightness cfg; Contrast := Contrast cfg;
     MaxFileSize := MaxFileSize cfg; BufferSize := BufferSize cfg |}.

Definition set_Workers (cfg : Config) (v : Z) : Config :=
  {| InputDir := InputDir cfg; OutputDir := OutputDir cfg;
     Filter := Filter cfg; Workers := v; RowWorkers := RowWorkers cfg;
     Quality := Quality cfg; BlurRadius := BlurRadius cfg;
     Brightness := Brightness cfg; Contrast := Contrast cfg;
     MaxFileSize := MaxFileSize cfg; BufferSize := BufferSize cfg |}.

Definition set_RowWorkers (cfg : Config) (v : Z) : Config :=
  {| InputDir := InputDir cfg; OutputDir := OutputDir cfg;
     Filter := Filter cfg; Workers := Workers cfg; RowWorkers := v;
     Quality := Quality cfg; BlurRadius := BlurRadius cfg;
     Brightness := Brightness cfg; Contrast := Contrast cfg;
     MaxFileSize := MaxFileSize cfg; BufferSize := BufferSize cfg |}.

(** The five overrides of [main], applied to the configuration that
    [config.Load] returned; [numCPU] is [runtime.NumCPU()]. *)
Definition apply_flags (numCPU : Z) (fl : Flags) (cfg : Config) : Config :=
  let cfg := if decide (inputDir fl <> "examples/images")
             then set_InputDir cfg (inputDir fl) else cfg in
  let cfg := if decide (outputDir fl <> "examples/output")
             then set_OutputDir cfg (outputDir fl) else cfg in
  let cfg := if decide (filter fl <> "grayscale")
             then set_Filter cfg (filter fl) else cfg in
  let cfg := if negb (workers fl =? numCPU)
             then set_Workers cfg (workers fl) else cfg in
  let cfg := if negb (rowWorkers fl =? int_mul numCPU 2)
             then set_RowWorkers cfg (rowWorkers fl) else cfg in
  cfg.

(** One call of the function [filepath.Walk] is given: the path, whether
    [info] is a directory, and the error Walk met there. *)
Record visit := {
  visit_path : string;
  visit_IsDir : bool;
  visit_err : option error
}.

Definition supportedExts : gmap string bool :=
  <[".jpg" := true]>
    (<[".jpeg" := true]>
       (<[".png" := true]>
          (<[".gif" := true]>
             (<[".bmp" := true]>
                (<[".tiff" := true]>
                   (<[".webp" := true]> ∅)))))).

(** The function literal passed to [filepath.Walk]: the [files] slice it
    appends to and the error it returns. *)
Definition walk_fn (pf : Platform) (v : visit) (files : list string)
    : list string * option error :=
  match visit_err v with
  | Some _ => (files, None)
  | None =>
      if negb (visit_IsDir v) then
        let ext := strings_ToLower pf (filepath_Ext pf (visit_path v)) in
        if default false (supportedExts !! ext)
        then (files ++ [visit_path v], None)
        else (files, None)
      else (files, None)
  end.

(** [filepath.Walk] over the visits it makes: it stops at the first call
    that returns an error and returns that error. *)
Fixpoint Walk (visits : list visit)
    (fn : visit -> list string -> list string * option error)
    (files : list string) : list string * option error :=
  match visits with
  | [] => (files, None)
  | v :: visits =>
      match fn v files with
      | (files, Some err) => (files, Some err)
      | (files, None) => Walk visits fn files
      end
  end.

Definition findImageFiles (pf : Platform) (visits : list visit)
    : list string * option error :=
  Walk visits (walk_fn pf) [].

End cmd.

(** ** Reference readings used by the statements below *)

Module spec.
Import Go models filters.

(** A buffer read pixel by pixel: [px] applied to every complete group of
    four bytes, in order. *)
Fixpoint map_rgba (px : Z -> Z -> Z -> Z -> Z * Z * Z * Z) (s : list Z)
    : list Z :=
  match s with
  | r :: g :: b :: a :: rest =>
      let '(r', g', b', a') := px r g b a in
      r' :: g' :: b' :: a' :: map_rgba px rest
  | _ => []
  end.

(** The common shape of the three per-pixel loop bodies. *)
Definition rgba_body (px : Z -> Z -> Z -> Z -> Z * Z * Z * Z)
    (src : list Z) (i : Z) (dst : list Z) : option (list Z) :=
  c0 ← load src i;
  c1 ← load src (i + 1);
  c2 ← load src (i + 2);
  a ← load src (i + 3);
  dst ← store dst i (px c0 c1 c2 a).1.1.1;
  dst ← store dst (i + 1) (px c0 c1 c2 a).1.1.2;
  dst ← store dst (i + 2) (px c0 c1 c2 a).1.2;
  store dst (i + 3) (px c0 c1 c2 a).2.

Definition gray_px (r g b a : Z) : Z * Z * Z * Z :=
  (gray_of r g b, gray_of r g b, gray_of r g b, a).

Definition brightness_px (factor : float) (r g b a : Z) : Z * Z * Z * Z :=
  (brightness_of factor r, brightness_of factor g, brightness_of factor b, a).

Definition contrast_px (factor : float) (r g b a : Z) : Z * Z * Z * Z :=
  (contrast_of factor r, contrast_of factor g, contrast_of factor b, a).

(** The contrast formula of the specification on one channel, in float64:
    [clamp((c - 128) * factor + 128, 0, 255)] truncated to a [uint8]. *)
Definition contrast_formula (factor : float) (c : Z) : Z :=
  uint8_of_float64
    (clamp ((float64_of_uint8 c - 128) * factor + 128)%float).

(** An [image.RGBA] as the image package keeps it: non-negative
    dimensions, rows at least [4 * Dx] bytes apart, and a buffer that
    holds the last row.  [image.NewRGBA] and [SubImage] produce such
    images. *)
Definition valid_RGBA (img : image.RGBA) : Prop :=
  0 <= image.Dx (image.Rect img) /\
  0 <= image.Dy (image.Rect img) /\
  4 * image.Dx (image.Rect img) <= image.Stride img /\
  (image.Dy (image.Rect img) - 1) * image.Stride img
    + 4 * image.Dx (image.Rect img) <= len (image.Pix img).

(** The bytes of row [row] inside the pixel buffer. *)
Definition row_bytes (img : image.RGBA) (row : Z) : list Z :=
  take (Z.to_nat (4 * image.Dx (image.Rect img)))
    (drop (Z.to_nat (row * image.Stride img)) (image.Pix img)).

(** The image with the bytes of row [row] replaced by [pixels]. *)
Definition with_row (img : image.RGBA) (row : Z) (pixels : list Z)
    : image.RGBA :=
  {| image.Pix :=
       take (Z.to_nat (row * image.Stride img)) (image.Pix img)
       ++ pixels
       ++ drop (Z.to_nat (row * image.Stride img
                          + 4 * image.Dx (image.Rect img)))
            (image.Pix img);
     image.Stride := image.Stride img;
     image.Rect := image.Rect img |}.

(** The loop body of [ExtractRowPixels], for the bounds [rect] and the
    image line [y]. *)
Definition extract_body (img : image.RGBA) (rect : image.Rectangle) (y : Z)
    (x : Z) (pixels : list Z) : option (list Z) :=
  c ← image.RGBAAt img (image.X (image.Min rect) + x) y;
  pixels ← store pixels (x * 4) (image.R c);
  pixels ← store pixels (x * 4 + 1) (image.G c);
  pixels ← store pixels (x * 4 + 2) (image.B c);
  store pixels (x * 4 + 3) (image.A c).

(** The loop body of [SetRowPixels]. *)
Definition set_body (pixels : list Z) (rect : image.Rectangle) (y : Z)
    (x : Z) (img : image.RGBA) : option image.RGBA :=
  r ← load pixels (x * 4);
  g ← load pixels (x * 4 + 1);
  b ← load pixels (x * 4 + 2);
  a ← load pixels (x * 4 + 3);
  image.SetRGBA img (image.X (image.Min rect) + x) y
    {| image.R := r; image.G := g; image.B := b; image.A := a |}.

(** The parameters of the examples: every factor 1.0, radius 0. *)
Definition unit_params : FilterParams :=
  {| BlurRadius := 0; Brightness := 1; Contrast := 1; Quality := 90 |}.

(** A one-pixel image, a platform on which every call succeeds, and a job
    that names a filter outside the registry. *)
Definition one_pixel_image : image.Image :=
  {| image.Image_Bounds :=
       {| image.Min := {| image.X := 0; image.Y := 0 |};
          image.Max := {| image.X := 1; image.Y := 1 |} |};
     image.Image_At := fun _ _ =>
       {| image.R := 10; image.G := 20; image.B := 30; image.A := 255 |} |}.

Definition one_pixel_rgba : image.RGBA :=
  {| image.Pix := [10; 20; 30; 255]; image.Stride := 4;
     image.Rect := image.Image_Bounds one_pixel_image |}.

Definition example_platform : platform.Platform :=
  {| platform.os_Stat := fun _ => inr 1024;
     platform.os_Stat_saved := fun _ => inr 512;
     platform.os_Open := fun _ => None;
     platform.os_Create := fun _ => None;
     platform.webp_Decode := fun _ => inr one_pixel_image;
     platform.bmp_Decode := fun _ => inr one_pixel_image;
     platform.tiff_Decode := fun _ => inr one_pixel_image;
     platform.image_Decode := fun _ => inr (one_pixel_image, "png");
     platform.jpeg_Encode := fun _ _ _ => None;
     platform.png_Encode := fun _ _ => None;
     platform.filepath_Ext := fun _ => ".png";
     platform.filepath_Dir := fun _ => "in";
     platform.filepath_Base := fun path => path;
     platform.filepath_Join := fun dir file => dir +:+ "/" +:+ file;
     platform.strings_ToLower := fun s => s;
     platform.strings_TrimSuffix := fun s _ => s;
     platform.time_Since := 1000 |}.

Definition example_config (filter : string) : config.Config :=
  {| config.InputDir := "in"; config.OutputDir := "out";
     config.Filter := filter; config.Workers := 1; config.RowWorkers := 2;
     config.Quality := 95; config.BlurRadius := 2;
     config.Brightness := 1; config.Contrast := 1;
     config.MaxFileSize := 104857600; config.BufferSize := 2 |}.

Definition sepia_job : ImageJob :=
  {| ID := "job_0"; InputPath := "in/a.png"; OutputPath := "out/a_sepia.png";
     models.Filter := "sepia"; Params := unit_params |}.

Definition sepia_row_job : RowJob :=
  {| job_ImageID := "job_0"; job_RowIndex := 0;
     job_Pixels := [10; 20; 30; 255]; job_Width := 1;
     job_Bounds := image.Image_Bounds one_pixel_image;
     job_Filter := "sepia"; job_Params := unit_params |}.

Definition unknown_filter (name : string) : error :=
  errors_New ("unknown filter: " +:+ name).

(** *** The state of a batch, read for its invariant *)

(** How many paths the submission loop has dealt with. *)
Definition submitted (imagePaths : list string) (m : batch.main_state) : nat :=
  match m with
  | batch.Submitting i => i
  | _ => length imagePaths
  end.

(** The results [ProcessImages] has appended to [results]. *)
Definition collected (m : batch.main_state) : list ProcessingResult :=
  match m with
  | batch.Collecting results | batch.Stopping _ results _
  | batch.Returned results _ => results
  | _ => []
  end.

(** How many statements of the deferred [Stop] have run. *)
Definition stage (m : batch.main_state) : nat :=
  match m with
  | batch.Stopping pc _ _ => pc
  | batch.Returned _ _ => 4
  | _ => 0
  end.

(** The input path of the result a worker holds while it waits to send. *)
Definition held_path (w : worker.worker_state) : list string :=
  match w with
  | worker.AtSend result => [res_InputPath result]
  | _ => []
  end.

(** The workers that have not returned. *)
Fixpoint running (ws : list worker.worker_state) : Z :=
  match ws with
  | [] => 0
  | worker.Exited :: ws => running ws
  | _ :: ws => 1 + running ws
  end.

(** The input paths of everything between submission and collection: the
    collected results, the result queue, the results held by workers, and
    the job queue. *)
Definition in_flight (s : batch.system) : list string :=
  (res_InputPath <$> collected (batch.main s))
  ++ (res_InputPath <$> sync.buf (worker.resultQueue (batch.pool s)))
  ++ (batch.workers s ≫= held_path)
  ++ (InputPath <$> sync.buf (worker.jobQueue (batch.pool s))).

(** What the [return] statement fixed. *)
Definition verdict (imagePaths : list string) (s : batch.system) : Prop :=
  match batch.main s with
  | batch.Stopping _ results None | batch.Returned results None =>
      (length imagePaths <= length results)%nat
  | batch.Stopping _ results (Some err) | batch.Returned results (Some err) =>
      err = context_Canceled /\ batch.cancelled s = true
  | _ => True
  end.

(** The invariant of a batch. A panic can only come out of an image job. *)
Definition batch_inv (imagePaths : list string) (s : batch.system) : Prop :=
  match batch.main s with
  | batch.Panicked msg => msg = "image job"
  | m =>
      in_flight s ⊆+ take (submitted imagePaths m) imagePaths /\
      (submitted imagePaths m <= length imagePaths)%nat /\
      (stage m <= 4)%nat /\
      sync.closed (worker.quit (batch.pool s)) = (1 <=? stage m)%nat /\
      sync.closed (worker.jobQueue (batch.pool s)) = (2 <=? stage m)%nat /\
      sync.closed (worker.resultQueue (batch.pool s)) = (4 <=? stage m)%nat /\
      ((3 <= stage m)%nat -> worker.wg (batch.pool s) = 0) /\
      worker.wg (batch.pool s) = running (batch.workers s) /\
      verdict imagePaths s
  end.



Definition cancelled_run : list batch.label :=
  [batch.Main_send; batch.Main_send; batch.Main_next;
   batch.Worker_recv 0 example_platform [0]; batch.Worker_send 0;
   batch.Main_recv; batch.Cancel; batch.Main_ctx_done;
   batch.Main_stop; batch.Main_stop; batch.Worker_ctx_done 0;
   batch.Main_stop; batch.Main_stop; batch.Main_stop].

(** *** The box blur

    The integers a binary64 float holds exactly: [SFint k] is [float64(k)]
    as the conversion computes it, [canon k] the same float with its
    53-bit mantissa written out. *)
Definition canon (k : Z) : spec_float :=
  S754_finite false (Z.to_pos (k * 2 ^ (53 - Zdigits2 k))) (Zdigits2 k - 53).

(** [float64(k)] for an integer [k]. *)
Definition SFint (k : Z) : spec_float := binary_normalize prec emax k 0 false.

(** The integer part of a spec float. *)
Definition SFtrunc (x : spec_float) : option Z :=
  match x with
  | S754_zero _ => Some 0
  | S754_finite s m e =>
      let v := match e with
               | Z0 => Zpos m
               | Zpos _ => Zpos m * 2 ^ e
               | Zneg p => Zpos m / 2 ^ Zpos p
               end in
      Some (if s then - v else v)
  | _ => None
  end.

(** A float that holds the integer [k] exactly. *)
Definition holds (f : float) (k : Z) : Prop := Prim2SF f = SFint k.

(** The positions [(x + dx, y + dy)] for [dy] in [dys] and [dx] in [dxs],
    in the order the sampling loops visit them. *)
Definition grid (x y : Z) (dys dxs : list Z) : list (Z * Z) :=
  dy ← dys; dx ← dxs; [(x + dx, y + dy)].

(** The (2r+1) x (2r+1) window around [(x, y)]. *)
Definition window (r x y : Z) : list (Z * Z) :=
  grid x y (seqZ (- r) (2 * r + 1)) (seqZ (- r) (2 * r + 1)).

Definition in_bounds (width height : Z) (p : Z * Z) : Prop :=
  (0 <= p.1 < width) /\ (0 <= p.2 < height).

#[global] Instance in_bounds_dec (width height : Z) (p : Z * Z) :
  Decision (in_bounds width height p) :=
  decide ((0 <= p.1 < width) /\ (0 <= p.2 < height)).

(** Channel [c] of the pixel at position [p] of a row-major RGBA buffer. *)
Definition channel_at (src : list Z) (width c : Z) (p : Z * Z) : Z :=
  default 0 (src !! Z.to_nat ((p.2 * width + p.1) * 4 + c)).

(** The in-bounds samples of the window of [(x, y)], for channel [c]. *)
Definition samples (src : list Z) (width height r x y c : Z) : list Z :=
  channel_at src width c <$> filter (in_bounds width height) (window r x y).

Definition total (l : list Z) : Z := foldr Z.add 0 l.

(** The integer-truncated mean. *)
Definition mean (l : list Z) : Z := total l / len l.

Definition minimum (l : list Z) : Z := foldr Z.min (default 0 (head l)) l.
Definition maximum (l : list Z) : Z := foldr Z.max (default 0 (head l)) l.

(** The accumulators hold the channel sums and the number of the
    positions [ps]. *)
Definition acc_holds (src : list Z) (width : Z) (acc : blur_acc)
    (ps : list (Z * Z)) : Prop :=
  holds (acc_r acc) (total (channel_at src width 0 <$> ps)) /\
  holds (acc_g acc) (total (channel_at src width 1 <$> ps)) /\
  holds (acc_b acc) (total (channel_at src width 2 <$> ps)) /\
  holds (acc_a acc) (total (channel_at src width 3 <$> ps)) /\
  acc_count acc = len ps.

(** The first [p] pixels of [dst], in row-major order, are blurred. *)
Definition blurred (src : list Z) (width height r : Z) (p : Z)
    (dst : list Z) : Prop :=
  length dst = length src /\
  forall q c, 0 <= q < p -> 0 <= c < 4 ->
    dst !! Z.to_nat (q * 4 + c)
    = Some (mean (samples src width height r (q mod width) (q / width) c)).

(** A row of two pixels, and a blur of radius 1. *)
Definition two_pixels : list Z := [10; 20; 30; 40; 50; 60; 70; 81].

Definition radius_1 : FilterParams :=
  {| BlurRadius := 1; Brightness := 1; Contrast := 1; Quality := 90 |}.

(** *** Further readings *)

(** What [ApplyContrast] does to one channel at factor 1. *)
Definition contrast_1 (c : Z) : Z := if c <? 128 then 255 else c.

(** The example platform, except that the saved output cannot be
    inspected afterwards. *)
Definition no_stat_platform : platform.Platform :=
  {| platform.os_Stat := platform.os_Stat example_platform;
     platform.os_Stat_saved := fun _ => inl (errors_New "stat: no such file");
     platform.os_Open := platform.os_Open example_platform;
     platform.os_Create := platform.os_Create example_platform;
     platform.webp_Decode := platform.webp_Decode example_platform;
     platform.bmp_Decode := platform.bmp_Decode example_platform;
     platform.tiff_Decode := platform.tiff_Decode example_platform;
     platform.image_Decode := platform.image_Decode example_platform;
     platform.jpeg_Encode := platform.jpeg_Encode example_platform;
     platform.png_Encode := platform.png_Encode example_platform;
     platform.filepath_Ext := platform.filepath_Ext example_platform;
     platform.filepath_Dir := platform.filepath_Dir example_platform;
     platform.filepath_Base := platform.filepath_Base example_platform;
     platform.filepath_Join := platform.filepath_Join example_platform;
     platform.strings_ToLower := platform.strings_ToLower example_platform;
     platform.strings_TrimSuffix :=
       platform.strings_TrimSuffix example_platform;
     platform.time_Since := platform.time_Since example_platform |}.

(** A job on the one-pixel image with a registered filter. *)
Definition gray_job : ImageJob :=
  {| ID := "job_0"; InputPath := "in/a.png";
     OutputPath := "out/a_grayscale.png";
     models.Filter := "grayscale"; Params := unit_params |}.

(** The workers that hold a result or have returned: each of them has
    taken one job out of the job queue that is not in the result queue. *)
Fixpoint busy (ws : list worker.worker_state) : Z :=
  match ws with
  | [] => 0
  | worker.AtSelect :: ws => busy ws
  | _ :: ws => 1 + busy ws
  end.

(** While [ProcessImages] submits, every job it has handed over sits in
    the job queue, in the result queue, or went to a worker that has not
    come back to its [select]; nothing is closed yet. *)
Definition submitting_inv (cfg : config.Config) (s : batch.system) : Prop :=
  match batch.main s with
  | batch.Submitting i =>
      sync.closed (worker.quit (batch.pool s)) = false /\
      sync.cap (worker.jobQueue (batch.pool s)) = config.BufferSize cfg /\
      sync.cap (worker.resultQueue (batch.pool s)) = config.BufferSize cfg /\
      len (sync.buf (worker.jobQueue (batch.pool s)))
        <= Z.max 0 (config.BufferSize cfg) /\
      len (sync.buf (worker.resultQueue (batch.pool s)))
        <= Z.max 0 (config.BufferSize cfg) /\
      len (batch.workers s) = Z.max 0 (config.Workers cfg) /\
      Z.of_nat i <= len (sync.buf (worker.jobQueue (batch.pool s)))
                    + len (sync.buf (worker.resultQueue (batch.pool s)))
                    + busy (batch.workers s)
  | batch.Panicked _ => True
  | _ => False
  end.

(** The first [n] pixels of [p], in row-major order, hold the colours of
    [img]; [p] has the bounds of [img] and the layout [NewRGBA] gives. *)
Definition filled (img : image.Image) (n : Z) (p : image.RGBA) : Prop :=
  let r := image.Image_Bounds img in
  image.Rect p = r /\ image.Stride p = 4 * image.Dx r /\
  len (image.Pix p) = 4 * image.Dx r * image.Dy r /\
  forall x y,
    image.Point_In {| image.X := x; image.Y := y |} r = true ->
    (y - image.Y (image.Min r)) * image.Dx r + (x - image.X (image.Min r)) < n ->
    image.RGBAAt p x y = Some (image.Image_At img x y).

(** The per-pixel reading of the three pixel-wise filters of the
    registry. *)
Definition pixelwise (name : FilterType) (params : FilterParams)
    : option (Z -> Z -> Z -> Z -> Z * Z * Z * Z) :=
  if decide (name = FilterGrayScale) then Some gray_px
  else if decide (name = FilterBrightness)
  then Some (brightness_px (Brightness params))
  else if decide (name = FilterConstrast)
  then Some (contrast_px (Contrast params))
  else None.

(** The result a row task sends for row [i] when the filter is [px]. *)
Definition row_sent (job : ImageJob) (rgba : image.RGBA)
    (px : Z -> Z -> Z -> Z -> Z * Z * Z * Z) (i : Z) : RowResult :=
  {| ImageID := ID job; RowIndex := i;
     Pixels := Some (map_rgba px (row_bytes rgba i));
     row_Error := None; Duration := 0 |}.

(** Rows [0 .. n) of [p] are the filtered rows of [rgba]; [p] has kept
    the layout of [rgba]. *)
Definition rows_written (rgba : image.RGBA)
    (px : Z -> Z -> Z -> Z -> Z * Z * Z * Z) (n : Z) (p : image.RGBA)
    : Prop :=
  valid_RGBA p /\ image.Rect p = image.Rect rgba /\
  image.Stride p = image.Stride rgba /\
  (forall i, 0 <= i < n ->
     row_bytes p i = map_rgba px (row_bytes rgba i)) /\
  (forall i, n <= i < image.Dy (image.Rect rgba) ->
     row_bytes p i = row_bytes rgba i).

(** The visits [findImageFiles] keeps. *)
Definition is_image_visit (pf : platform.Platform) (v : cmd.visit) : Prop :=
  cmd.visit_err v = None /\ cmd.visit_IsDir v = false /\
  (platform.strings_ToLower pf (platform.filepath_Ext pf (cmd.visit_path v))
     ∈ [".jpg"; ".jpeg"; ".png"; ".gif"; ".bmp"; ".tiff"; ".webp"]).

#[global] Instance is_image_visit_dec (pf : platform.Platform)
    (v : cmd.visit) : Decision (is_image_visit pf v) :=
  decide (cmd.visit_err v = None /\ cmd.visit_IsDir v = false /\
          (platform.strings_ToLower pf
             (platform.filepath_Ext pf (cmd.visit_path v))
           ∈ [".jpg"; ".jpeg"; ".png"; ".gif"; ".bmp"; ".tiff"; ".webp"])).

(** An image of two rows of two pixels, inside a larger coordinate
    system. *)
Definition two_rows : image.RGBA :=
  {| image.Pix := [1; 2; 3; 4; 5; 6; 7; 8; 11; 12; 13; 14; 15; 16; 17; 18];
     image.Stride := 8;
     image.Rect := {| image.Min := {| image.X := 3; image.Y := 5 |};
                      image.Max := {| image.X := 5; image.Y := 7 |} |} |}.

(** The example platform, on which every path has the extension
    ".tif". *)
Definition tif_platform : platform.Platform :=
  {| platform.os_Stat := platform.os_Stat example_platform;
     platform.os_Stat_saved := platform.os_Stat_saved example_platform;
     platform.os_Open := platform.os_Open example_platform;
     platform.os_Create := platform.os_Create example_platform;
     platform.webp_Decode := platform.webp_Decode example_platform;
     platform.bmp_Decode := platform.bmp_Decode example_platform;
     platform.tiff_Decode := platform.tiff_Decode example_platform;
     platform.image_Decode := platform.image_Decode example_platform;
     platform.jpeg_Encode := platform.jpeg_Encode example_platform;
     platform.png_Encode := platform.png_Encode example_platform;
     platform.filepath_Ext := fun _ => ".tif";
     platform.filepath_Dir := platform.filepath_Dir example_platform;
     platform.filepath_Base := platform.filepath_Base example_platform;
     platform.filepath_Join := platform.filepath_Join example_platform;
     platform.strings_ToLower := platform.strings_ToLower example_platform;
     platform.strings_TrimSuffix :=
       platform.strings_TrimSuffix example_platform;
     platform.time_Since := platform.time_Since example_platform |}.

(** The flags of [processor -filter grayscale -workers 8] on a machine
    with 4 processors, and of [processor -filter sepia]. *)
Definition gray_flags : cmd.Flags :=
  {| cmd.inputDir := "examples/images"; cmd.outputDir := "examples/output";
     cmd.filter := "grayscale"; cmd.workers := 8; cmd.rowWorkers := 8 |}.

Definition sepia_flags : cmd.Flags :=
  {| cmd.inputDir := "examples/images"; cmd.outputDir := "examples/output";
     cmd.filter := "sepia"; cmd.workers := 4; cmd.rowWorkers := 8 |}.

(** A run of a batch of six paths with one worker and queues of two: five
    jobs are handed over, the sixth send cannot proceed. *)
Definition stuck_run : list batch.label :=
  [batch.Main_send; batch.Main_send;
   batch.Worker_recv 0 example_platform [0]; batch.Main_send;
   batch.Worker_send 0; batch.Worker_recv 0 example_platform [0];
   batch.Main_send; batch.Worker_send 0;
   batch.Worker_recv 0 example_platform [0]; batch.Main_send].

(** A buffer in which every pixel has the colour [(r, g, b, a)]. *)
Fixpoint flat (r g b a : Z) (pixels : nat) : list Z :=
  match pixels with
  | O => []
  | S pixels => r :: g :: b :: a :: flat r g b a pixels
  end.

(** A pool without workers: nothing ever reaches the result queue, and
    [ProcessImages] collects nothing. *)
Definition idle_inv (s : batch.system) : Prop :=
  batch.workers s = [] /\
  sync.buf (worker.resultQueue (batch.pool s)) = [] /\
  collected (batch.main s) = [].

(** The example configuration with [-workers 0]. *)
Definition no_worker_config : config.Config :=
  {| config.InputDir := "in"; config.OutputDir := "out";
     config.Filter := "grayscale"; config.Workers := 0;
     config.RowWorkers := 2; config.Quality := 95; config.BlurRadius := 2;
     config.Brightness := 1; config.Contrast := 1;
     config.MaxFileSize := 104857600; config.BufferSize := 2 |}.

(** A cancelled run of such a batch. *)
Definition idle_run : list batch.label :=
  [batch.Main_send; batch.Main_next; batch.Cancel; batch.Main_ctx_done;
   batch.Main_stop; batch.Main_stop; batch.Main_stop; batch.Main_stop;
   batch.Main_stop].

End spec.

(** * Theorems *)

Import Go models filters spec.

(** ** Slices and loops *)

Lemma load_app_r (S1 S2 : list Z) (k : nat) :
  load (S1 ++ S2) (len S1 + Z.of_nat k) = S2 !! k.
Proof.
  unfold load, len. case_decide; [|lia].
  rewrite lookup_app_r by lia. f_equal. lia.
Qed.

Lemma store_app_r (P Q : list Z) (k : nat) (v : Z) :
  (k < length Q)%nat ->
  store (P ++ Q) (len P + Z.of_nat k) v = Some (P ++ <[k := v]> Q).
Proof.
  intros Hk. unfold store, len. rewrite length_app.
  case_decide; [|lia]. f_equal.
  replace (Z.to_nat (Z.of_nat (length P) + Z.of_nat k))
    with (length P + k)%nat by lia.
  by rewrite insert_app_r.
Qed.

Lemma map_rgba_length px (s : list Z) (n : nat) :
  length s = (4 * n)%nat -> length (map_rgba px s) = length s.
Proof.
  revert s. induction n as [|n IH]; intros s Hs.
  - destruct s; [done | simpl in Hs; lia].
  - destruct s as [|r [|g [|b [|a rest]]]]; simpl in Hs; try lia.
    simpl. destruct (px r g b a) as [[[r' g'] b'] a']. simpl.
    rewrite IH by lia. done.
Qed.

(** One round of a per-pixel loop body at the first unfinished pixel. *)
Lemma rgba_body_step px (S1 rest P Q : list Z) (r g b a x0 x1 x2 x3 : Z) :
  length P = length S1 ->
  rgba_body px (S1 ++ r :: g :: b :: a :: rest) (len S1)
    (P ++ x0 :: x1 :: x2 :: x3 :: Q)
  = Some (P ++ (px r g b a).1.1.1 :: (px r g b a).1.1.2
              :: (px r g b a).1.2 :: (px r g b a).2 :: Q).
Proof.
  intros HP. unfold rgba_body.
  assert (len P = len S1) as HPl by (unfold len; lia).
  pose proof (load_app_r S1 (r :: g :: b :: a :: rest)) as HL.
  pose proof (HL 0%nat) as HL0. pose proof (HL 1%nat) as HL1.
  pose proof (HL 2%nat) as HL2. pose proof (HL 3%nat) as HL3.
  change (Z.of_nat 0) with 0 in HL0. change (Z.of_nat 1) with 1 in HL1.
  change (Z.of_nat 2) with 2 in HL2. change (Z.of_nat 3) with 3 in HL3.
  rewrite Z.add_0_r in HL0.
  rewrite HL0, HL1, HL2, HL3. cbn [lookup list_lookup mbind option_bind].
  rewrite <- HPl.
  pose proof (fun Q v => store_app_r P Q 0%nat v) as HS0.
  pose proof (fun Q v => store_app_r P Q 1%nat v) as HS1.
  pose proof (fun Q v => store_app_r P Q 2%nat v) as HS2.
  pose proof (fun Q v => store_app_r P Q 3%nat v) as HS3.
  change (Z.of_nat 0) with 0 in HS0. change (Z.of_nat 1) with 1 in HS1.
  change (Z.of_nat 2) with 2 in HS2. change (Z.of_nat 3) with 3 in HS3.
  setoid_rewrite Z.add_0_r in HS0.
  rewrite HS0 by (simpl; lia). cbn [mbind option_bind].
  rewrite HS1 by (simpl; lia). cbn [mbind option_bind].
  rewrite HS2 by (simpl; lia). cbn [mbind option_bind].
  rewrite HS3 by (simpl; lia). done.
Qed.

(** The per-pixel loop, started after a finished prefix, fills the rest of
    the destination with the pixel-wise image of the rest of the source. *)
Lemma iterate_rgba px (n : nat) : forall (S1 S2 P : list Z),
  length P = length S1 ->
  length S2 = (4 * n)%nat ->
  iterate n (len S1) 4 (rgba_body px (S1 ++ S2)) (P ++ replicate (4 * n) 0)
  = Some (P ++ map_rgba px S2).
Proof.
  induction n as [|n IH]; intros S1 S2 P HP HS2.
  - destruct S2; [by rewrite app_nil_r | simpl in HS2; lia].
  - destruct S2 as [|r [|g [|b [|a rest]]]]; simpl in HS2; try lia.
    replace (4 * S n)%nat with (4 + 4 * n)%nat by lia.
    rewrite replicate_add. cbn [iterate replicate app].
    rewrite rgba_body_step by done. cbn [mbind option_bind].
    specialize (IH (S1 ++ [r; g; b; a]) rest
      (P ++ [(px r g b a).1.1.1; (px r g b a).1.1.2; (px r g b a).1.2;
             (px r g b a).2])).
    rewrite <- !app_assoc in IH. cbn [app] in IH.
    replace (len (S1 ++ [r; g; b; a])) with (len S1 + 4) in IH
      by (unfold len; rewrite length_app; simpl; lia).
    rewrite IH; [| rewrite !length_app; simpl; lia | lia].
    cbn [map_rgba]. by destruct (px r g b a) as [[[r' g'] b'] a'].
Qed.

Lemma for_lt_rgba px (src : list Z) :
  Z.rem (len src) 4 = 0 ->
  for_lt 0 (len src) 4 (rgba_body px src) (make (len src))
  = Some (map_rgba px src).
Proof.
  intros Hrem. unfold for_lt, make, len in *.
  rewrite Z.rem_mod_nonneg in Hrem by lia.
  set (n := (length src / 4)%nat).
  assert (length src = (4 * n)%nat) as Hn.
  { subst n. apply Nat2Z.inj. rewrite Nat2Z.inj_mul, Nat2Z.inj_div.
    change (Z.of_nat 4) with 4. pose proof (Z.div_mod (Z.of_nat (length src)) 4).
    lia. }
  replace (Z.to_nat ((Z.of_nat (length src) - 0 + 4 - 1) / 4)) with n.
  2:{ rewrite Hn. replace (Z.of_nat (4 * n) - 0 + 4 - 1) with (3 + Z.of_nat n * 4) by lia.
      rewrite Z.div_add by lia. change (3 / 4) with 0. lia. }
  rewrite Nat2Z.id, Hn.
  pose proof (iterate_rgba px n [] src [] eq_refl Hn) as H.
  exact H.
Qed.

(** ** The per-pixel filters as pixel-wise maps *)

Lemma ApplyGrayScale_eq (src : list Z) (width : Z) (params : FilterParams) :
  Z.rem (len src) 4 = 0 ->
  ApplyGrayScale src width params = Some (map_rgba gray_px src).
Proof.
  intros H. unfold ApplyGrayScale. rewrite H. cbn [Z.eqb negb].
  exact (for_lt_rgba gray_px src H).
Qed.

Lemma ApplyBrightness_eq (src : list Z) (width : Z) (params : FilterParams) :
  Z.rem (len src) 4 = 0 ->
  ApplyBrightness src width params
  = Some (map_rgba (brightness_px (Brightness params)) src).
Proof.
  intros H. unfold ApplyBrightness. rewrite H. cbn [Z.eqb negb].
  exact (for_lt_rgba (brightness_px (Brightness params)) src H).
Qed.

Lemma ApplyContrast_eq (src : list Z) (width : Z) (params : FilterParams) :
  Z.rem (len src) 4 = 0 ->
  ApplyContrast src width params
  = Some (map_rgba (contrast_px (Contrast params)) src).
Proof.
  intros H. unfold ApplyContrast. rewrite H. cbn [Z.eqb negb].
  exact (for_lt_rgba (contrast_px (Contrast params)) src H).
Qed.

Lemma rem4_length (s : list Z) :
  Z.rem (len s) 4 = 0 <-> exists n : nat, length s = (4 * n)%nat.
Proof.
  unfold len. rewrite Z.rem_mod_nonneg by lia. split.
  - intros H. exists (length s / 4)%nat. apply Nat2Z.inj.
    rewrite Nat2Z.inj_mul, Nat2Z.inj_div. change (Z.of_nat 4) with 4.
    pose proof (Z.div_mod (Z.of_nat (length s)) 4). lia.
  - intros [n ->]. rewrite Nat2Z.inj_mul. change (Z.of_nat 4) with 4.
    rewrite Z.mul_comm. apply Z_mod_mult.
Qed.

(** Pixel [k] of a pixel-wise image is [px] of pixel [k] of the source. *)
Lemma map_rgba_lookup px (k : nat) : forall (s : list Z) (r g b a : Z),
  s !! (4 * k)%nat = Some r ->
  s !! (4 * k + 1)%nat = Some g ->
  s !! (4 * k + 2)%nat = Some b ->
  s !! (4 * k + 3)%nat = Some a ->
  map_rgba px s !! (4 * k)%nat = Some (px r g b a).1.1.1 /\
  map_rgba px s !! (4 * k + 1)%nat = Some (px r g b a).1.1.2 /\
  map_rgba px s !! (4 * k + 2)%nat = Some (px r g b a).1.2 /\
  map_rgba px s !! (4 * k + 3)%nat = Some (px r g b a).2.
Proof.
  induction k as [|k IH]; intros s r g b a H0 H1 H2 H3.
  - destruct s as [|r0 [|g0 [|b0 [|a0 rest]]]]; simpl in *; try done.
    simplify_eq. by destruct (px r g b a) as [[[r' g'] b'] a'].
  - pose proof (lookup_lt_Some _ _ _ H3) as Hlt.
    destruct s as [|r0 [|g0 [|b0 [|a0 rest]]]]; simpl in Hlt; try lia.
    replace (4 * S k)%nat with (S (S (S (S (4 * k))))) in * by lia.
    cbn [map_rgba]. destruct (px r0 g0 b0 a0) as [[[r' g'] b'] a'].
    cbn [lookup list_lookup plus] in *.
    by apply IH.
Qed.

(** [gray_of] always lands in a byte. *)
Lemma gray_of_uint8 (r g b : Z) : is_uint8 (gray_of r g b).
Proof.
  unfold gray_of, uint8_of_float64, is_uint8.
  destruct (trunc_float _); [apply Z.mod_pos_bound|]; lia.
Qed.

(** On a gray pixel the formula returns the level itself or the level
    below it: in float64 the three weights add up to just under one. *)
Lemma gray_of_diag (y : Z) :
  is_uint8 y -> y - 1 <= gray_of y y y <= y.
Proof.
  intros Hy.
  assert (forallb (fun y => (y - 1 <=? gray_of y y y) && (gray_of y y y <=? y))
            (seqZ 0 256) = true) as Hall by (vm_compute; reflexivity).
  rewrite forallb_forall in Hall.
  specialize (Hall y). rewrite <- list_elem_of_In, elem_of_seqZ in Hall.
  destruct Hy. apply andb_prop in Hall as [H1 H2]; [|lia].
  apply Z.leb_le in H1, H2. done.
Qed.

Lemma FilterRegistry_lookup (name : FilterType) (f : Filter) :
  FilterRegistry !! name = Some f ->
  (name = FilterGrayScale /\ f = ApplyGrayScale) \/
  (name = FilterConstrast /\ f = ApplyContrast) \/
  (name = FilterBrightness /\ f = ApplyBrightness) \/
  (name = FilterBlur /\ f = ApplyBlur).
Proof.
  unfold FilterRegistry. rewrite !lookup_insert_Some, lookup_empty.
  intuition congruence.
Qed.

(** ** Claims on the filters *)

(** C8. A buffer whose length is not a multiple of 4 is returned as it is,
    without a panic, by each of the four registered filters, whatever the
    width and the parameters. *)
Theorem C8_ragged_buffer_unchanged
    (name : FilterType) (f : Filter)
    (src : list Z) (width : Z) (params : FilterParams) :
  FilterRegistry !! name = Some f ->
  (length src mod 4 <> 0)%nat ->
  f src width params = Some src.
Proof.
  intros Hf Hlen.
  assert ((Z.rem (len src) 4 =? 0) = false) as Hrem.
  { apply Z.eqb_neq. unfold len. rewrite Z.rem_mod_nonneg by lia.
    change 4 with (Z.of_nat 4). rewrite <- Nat2Z.inj_mod. lia. }
  destruct (FilterRegistry_lookup name f Hf)
    as [[_ ->]|[[_ ->]|[[_ ->]|[_ ->]]]].
  - unfold ApplyGrayScale. by rewrite Hrem.
  - unfold ApplyContrast. by rewrite Hrem.
  - unfold ApplyBrightness. by rewrite Hrem.
  - unfold ApplyBlur. by rewrite Hrem.
Qed.

Lemma C8_ragged_buffer_unchanged_witness :
  ApplyBlur [7; 8; 9] 0 unit_params = Some [7; 8; 9].
Proof.
  apply (C8_ragged_buffer_unchanged FilterBlur ApplyBlur [7; 8; 9] 0 unit_params).
  - reflexivity.
  - simpl. lia.
Defined.

(** C1, at the pixel of the specification.  With contrast factor 1.0 the
    formula [clamp((c - 128) * factor + 128, 0, 255)] keeps (200,50,10),
    but [ApplyContrast] subtracts 128 between [uint8] operands, so that the
    two channels below 128 wrap around and saturate at 255. *)
Theorem C1_contrast_wraps_below_128 :
  ApplyContrast [200; 50; 10; 255] 1 unit_params = Some [200; 255; 255; 255]
  /\ contrast_formula (Contrast unit_params) <$> [200; 50; 10] = [200; 50; 10]
  /\ uint8_sub 50 128 = 178.
Proof. vm_compute. done. Qed.

(** C3, refutation: on the two pixels of the specification the second gray
    level is 48 (0.299*40 + 0.587*50 + 0.114*60 = 48.15), not 47. *)
Lemma C3_second_gray_level_is_48 :
  ApplyGrayScale [10; 20; 30; 255; 40; 50; 60; 0] 2 unit_params
  <> Some [18; 18; 18; 255; 47; 47; 47; 0].
Proof. vm_compute. discriminate. Qed.

(** C3, amended.  On a buffer whose length is a multiple of 4 the grayscale
    filter returns a buffer of the same length in which pixel [k] is
    (gray, gray, gray, A) for gray = uint8(0.299*R + 0.587*G + 0.114*B)
    evaluated in float64, a byte; on [(10,20,30,255),(40,50,60,0)] with
    width 2 it yields [(18,18,18,255),(48,48,48,0)]. *)
Theorem C3_grayscale_pixelwise
    (src : list Z) (width : Z) (params : FilterParams) :
  (length src mod 4 = 0)%nat ->
  (exists dst,
      ApplyGrayScale src width params = Some dst /\
      length dst = length src /\
      forall (k : nat) (r g b a : Z),
        src !! (4 * k)%nat = Some r ->
        src !! (4 * k + 1)%nat = Some g ->
        src !! (4 * k + 2)%nat = Some b ->
        src !! (4 * k + 3)%nat = Some a ->
        is_uint8 (gray_of r g b) /\
        dst !! (4 * k)%nat = Some (gray_of r g b) /\
        dst !! (4 * k + 1)%nat = Some (gray_of r g b) /\
        dst !! (4 * k + 2)%nat = Some (gray_of r g b) /\
        dst !! (4 * k + 3)%nat = Some a) /\
  ApplyGrayScale [10; 20; 30; 255; 40; 50; 60; 0] 2 params
  = Some [18; 18; 18; 255; 48; 48; 48; 0].
Proof.
  intros Hlen. split; [|by vm_compute].
  assert (Z.rem (len src) 4 = 0) as Hrem.
  { unfold len. rewrite Z.rem_mod_nonneg by lia.
    change 4 with (Z.of_nat 4). rewrite <- Nat2Z.inj_mod. lia. }
  exists (map_rgba gray_px src). split; [by apply ApplyGrayScale_eq|].
  apply rem4_length in Hrem as [n Hn].
  split; [by apply (map_rgba_length _ _ n)|].
  intros k r g b a H0 H1 H2 H3.
  split; [apply gray_of_uint8|].
  exact (map_rgba_lookup gray_px k src r g b a H0 H1 H2 H3).
Qed.

Lemma C3_grayscale_pixelwise_witness :
  exists dst,
    ApplyGrayScale [0; 72; 24; 9] 1 unit_params = Some dst /\
    dst !! 0%nat = Some 44.
Proof.
  destruct (C3_grayscale_pixelwise [0; 72; 24; 9] 1 unit_params)
    as [(dst & Heq & _ & Hpx) _]; [reflexivity|].
  exists dst. split; [exact Heq|].
  destruct (Hpx 0%nat 0 72 24 9) as (_ & H0 & _); try reflexivity.
  exact H0.
Defined.

(** C7, refutation: the pixel (0,2,0,255) becomes (1,1,1,255), and a second
    pass lowers it to (0,0,0,255), because in float64
    0.299 + 0.587 + 0.114 is 0.9999999999999999. *)
Lemma C7_second_pass_lowers_level_1 :
  (ApplyGrayScale [0; 2; 0; 255] 1 unit_params
     ≫= fun once => ApplyGrayScale once 1 unit_params)
  <> ApplyGrayScale [0; 2; 0; 255] 1 unit_params.
Proof. vm_compute. discriminate. Qed.

(** C7, amended.  On a buffer whose length is a multiple of 4, a second
    grayscale pass keeps the length and every alpha byte, and maps each
    gray pixel (y,y,y,A) of the first pass to (y',y',y',A) with
    y' = uint8(0.299*y + 0.587*y + 0.114*y), which is y or y - 1; so the
    second pass changes nothing exactly where every gray level of the first
    pass is a fixed point of that formula. *)
Theorem C7_grayscale_twice
    (src : list Z) (width : Z) (params : FilterParams) :
  (length src mod 4 = 0)%nat ->
  exists once twice,
    ApplyGrayScale src width params = Some once /\
    ApplyGrayScale once width params = Some twice /\
    length twice = length once /\
    (forall (k : nat) (r g b a : Z),
        src !! (4 * k)%nat = Some r ->
        src !! (4 * k + 1)%nat = Some g ->
        src !! (4 * k + 2)%nat = Some b ->
        src !! (4 * k + 3)%nat = Some a ->
        let y := gray_of r g b in
        let y' := gray_of y y y in
        y - 1 <= y' <= y /\
        once !! (4 * k)%nat = Some y /\
        once !! (4 * k + 1)%nat = Some y /\
        once !! (4 * k + 2)%nat = Some y /\
        once !! (4 * k + 3)%nat = Some a /\
        twice !! (4 * k)%nat = Some y' /\
        twice !! (4 * k + 1)%nat = Some y' /\
        twice !! (4 * k + 2)%nat = Some y' /\
        twice !! (4 * k + 3)%nat = Some a) /\
    ((forall (k : nat) (r g b : Z),
         src !! (4 * k)%nat = Some r ->
         src !! (4 * k + 1)%nat = Some g ->
         src !! (4 * k + 2)%nat = Some b ->
         gray_of (gray_of r g b) (gray_of r g b) (gray_of r g b)
         = gray_of r g b) ->
     twice = once).
Proof.
  intros Hlen.
  assert (Z.rem (len src) 4 = 0) as Hrem.
  { unfold len. rewrite Z.rem_mod_nonneg by lia.
    change 4 with (Z.of_nat 4). rewrite <- Nat2Z.inj_mod. lia. }
  pose proof Hrem as [n Hn]%rem4_length.
  set (once := map_rgba gray_px src).
  assert (length once = length src) as Hlen1
    by apply (map_rgba_length _ _ n Hn).
  assert (Z.rem (len once) 4 = 0) as Hrem1
    by (apply rem4_length; exists n; lia).
  exists once, (map_rgba gray_px once).
  split; [by apply ApplyGrayScale_eq|].
  split; [by apply ApplyGrayScale_eq|].
  split; [apply (map_rgba_length _ _ n); lia|].
  split.
  - intros k r g b a H0 H1 H2 H3 y y'.
    destruct (map_rgba_lookup gray_px k src r g b a H0 H1 H2 H3)
      as (O0 & O1 & O2 & O3).
    cbn [gray_px fst snd] in O0, O1, O2, O3. fold once in O0, O1, O2, O3.
    destruct (map_rgba_lookup gray_px k once y y y a O0 O1 O2 O3)
      as (T0 & T1 & T2 & T3).
    split; [apply gray_of_diag, gray_of_uint8|]. done.
  - intros Hfix. subst once. clear -Hfix Hn.
    revert src Hn Hfix. induction n as [|n IH]; intros src Hn Hfix.
    + by destruct src.
    + destruct src as [|r [|g [|b [|a rest]]]]; simpl in Hn; try lia.
      cbn [map_rgba gray_px].
      rewrite (Hfix 0%nat r g b) by done. rewrite IH; [done | lia |].
      intros k r' g' b' H0 H1 H2. apply (Hfix (S k)).
      * by replace (4 * S k)%nat with (S (S (S (S (4 * k))))) by lia.
      * by replace (4 * S k + 1)%nat with (S (S (S (S (4 * k + 1))))) by lia.
      * by replace (4 * S k + 2)%nat with (S (S (S (S (4 * k + 2))))) by lia.
Qed.

Lemma C7_grayscale_twice_witness :
  exists once twice,
    ApplyGrayScale [0; 2; 0; 255] 1 unit_params = Some once /\
    ApplyGrayScale once 1 unit_params = Some twice /\
    once !! 0%nat = Some 1 /\ twice !! 0%nat = Some 0.
Proof.
  destruct (C7_grayscale_twice [0; 2; 0; 255] 1 unit_params)
    as (once & twice & H1 & H2 & _ & Hpx & _); [reflexivity|].
  exists once, twice. split; [exact H1|]. split; [exact H2|].
  destruct (Hpx 0%nat 0 2 0 255) as (_ & O0 & _ & _ & _ & T0 & _);
    try reflexivity.
  split; [exact O0 | exact T0].
Defined.

(** ** Row splitter and joiner *)

Section rows.
Import image.

Lemma load_app_at {A : Type} (L1 L2 : list A) (i : Z) (k : nat) :
  i = len L1 + Z.of_nat k -> load (L1 ++ L2) i = L2 !! k.
Proof.
  intros ->. unfold load, len. case_decide; [|lia].
  rewrite lookup_app_r by lia. f_equal. lia.
Qed.

Lemma store_app_at {A : Type} (L1 L2 : list A) (i : Z) (k : nat) (v : A) :
  i = len L1 + Z.of_nat k -> (k < length L2)%nat ->
  store (L1 ++ L2) i v = Some (L1 ++ <[k := v]> L2).
Proof.
  intros -> Hk. unfold store, len. rewrite length_app.
  case_decide; [|lia]. f_equal.
  replace (Z.to_nat (Z.of_nat (length L1) + Z.of_nat k))
    with (length L1 + k)%nat by lia.
  by rewrite insert_app_r.
Qed.

Lemma for_lt_unit {S : Type} (n : Z) (body : Z -> S -> option S) (s : S) :
  for_lt 0 n 1 body s = iterate (Z.to_nat n) 0 1 body s.
Proof.
  unfold for_lt. f_equal. rewrite Z.div_1_r. f_equal. lia.
Qed.

Context (stride : Z) (rect : Rectangle).
Context (pre post : list Z) (row : Z).
Hypothesis Hrow : 0 <= row < Dy rect.
Hypothesis Hpre : len pre = row * stride.

(** Reading the pixel that starts right after [S1] in row [row]. *)
Lemma RGBAAt_in_row (S1 rest : list Z) (r g b a x : Z) :
  0 <= x < Dx rect -> len S1 = 4 * x ->
  RGBAAt {| Pix := pre ++ S1 ++ r :: g :: b :: a :: rest ++ post;
            Stride := stride; Rect := rect |}
    (X (Min rect) + x) (Y (Min rect) + row)
  = Some {| R := r; G := g; B := b; A := a |}.
Proof using Hrow Hpre.
  intros Hx HS1. unfold RGBAAt, Point_In, PixOffset, Dx, Dy in *. cbn.
  replace ((X (Min rect) <=? X (Min rect) + x)
           && (X (Min rect) + x <? X (Max rect))
           && (Y (Min rect) <=? Y (Min rect) + row)
           && (Y (Min rect) + row <? Y (Max rect))) with true
    by (symmetry; rewrite !andb_true_iff, !Z.leb_le, !Z.ltb_lt; lia).
  cbn [negb].
  replace (Y (Min rect) + row - Y (Min rect)) with row by lia.
  replace (X (Min rect) + x - X (Min rect)) with x by lia.
  replace (row * stride + x * 4)
    with (len (pre ++ S1)) by (unfold len in *; rewrite length_app; lia).
  rewrite (app_assoc pre S1).
  case_decide as Hin.
  2:{ exfalso. apply Hin. unfold len. rewrite !length_app. cbn [length].
      clear. lia. }
  rewrite (load_app_at _ _ (len (pre ++ S1)) 0%nat) by lia.
  rewrite (load_app_at _ _ (len (pre ++ S1) + 1) 1%nat) by lia.
  rewrite (load_app_at _ _ (len (pre ++ S1) + 2) 2%nat) by lia.
  rewrite (load_app_at _ _ (len (pre ++ S1) + 3) 3%nat) by lia.
  done.
Qed.

(** Writing the pixel that starts right after [S1] in row [row]. *)
Lemma SetRGBA_in_row (S1 rest : list Z) (r g b a x : Z) (c : color_RGBA) :
  0 <= x < Dx rect -> len S1 = 4 * x ->
  SetRGBA {| Pix := pre ++ S1 ++ r :: g :: b :: a :: rest ++ post;
             Stride := stride; Rect := rect |}
    (X (Min rect) + x) (Y (Min rect) + row) c
  = Some {| Pix := pre ++ S1 ++ R c :: G c :: B c :: A c :: rest ++ post;
            Stride := stride; Rect := rect |}.
Proof using Hrow Hpre.
  intros Hx HS1. unfold SetRGBA, Point_In, PixOffset, Dx, Dy in *. cbn.
  replace ((X (Min rect) <=? X (Min rect) + x)
           && (X (Min rect) + x <? X (Max rect))
           && (Y (Min rect) <=? Y (Min rect) + row)
           && (Y (Min rect) + row <? Y (Max rect))) with true
    by (symmetry; rewrite !andb_true_iff, !Z.leb_le, !Z.ltb_lt; lia).
  cbn [negb].
  replace (Y (Min rect) + row - Y (Min rect)) with row by lia.
  replace (X (Min rect) + x - X (Min rect)) with x by lia.
  replace (row * stride + x * 4)
    with (len (pre ++ S1)) by (unfold len in *; rewrite length_app; lia).
  rewrite !(app_assoc pre S1).
  case_decide as Hin.
  2:{ exfalso. apply Hin. unfold len. rewrite !length_app. cbn [length].
      clear. lia. }
  rewrite (store_app_at _ _ (len (pre ++ S1)) 0%nat) by (cbn [length]; lia).
  cbn [mbind option_bind insert list_insert].
  rewrite (store_app_at _ _ (len (pre ++ S1) + 1) 1%nat) by (cbn [length]; lia).
  cbn [mbind option_bind insert list_insert].
  rewrite (store_app_at _ _ (len (pre ++ S1) + 2) 2%nat) by (cbn [length]; lia).
  cbn [mbind option_bind insert list_insert].
  rewrite (store_app_at _ _ (len (pre ++ S1) + 3) 3%nat) by (cbn [length]; lia).
  cbn [mbind option_bind insert list_insert]. by rewrite <- !app_assoc.
Qed.

(** The extraction loop, started after a finished prefix of the row. *)
Lemma iterate_extract (n : nat) : forall (S1 S2 P : list Z) (x : Z),
  0 <= x -> x + Z.of_nat n <= Dx rect ->
  len S1 = 4 * x -> length P = length S1 -> length S2 = (4 * n)%nat ->
  iterate n x 1
    (extract_body {| Pix := pre ++ S1 ++ S2 ++ post;
                     Stride := stride; Rect := rect |}
       rect (Y (Min rect) + row))
    (P ++ replicate (4 * n) 0)
  = Some (P ++ S2).
Proof using Hrow Hpre.
  induction n as [|n IH]; intros S1 S2 P x Hx Hxn HS1 HP HS2.
  - destruct S2; [done | simpl in HS2; lia].
  - destruct S2 as [|r [|g [|b [|a rest]]]]; simpl in HS2; try lia.
    replace (4 * S n)%nat with (4 + 4 * n)%nat by lia.
    rewrite replicate_add. cbn [iterate replicate app].
    assert (extract_body
              {| Pix := pre ++ S1 ++ r :: g :: b :: a :: rest ++ post;
                 Stride := stride; Rect := rect |}
              rect (Y (Min rect) + row) x
              (P ++ 0 :: 0 :: 0 :: 0 :: replicate (4 * n) 0)
            = Some (P ++ r :: g :: b :: a :: replicate (4 * n) 0)) as ->.
    { unfold extract_body.
      rewrite (RGBAAt_in_row S1 rest r g b a x) by lia.
      cbn [mbind option_bind R G B A].
      assert (len P = x * 4) as HPx by (unfold len in *; lia).
      rewrite (store_app_at P _ (x * 4) 0%nat) by (cbn [length]; lia).
      cbn [mbind option_bind insert list_insert].
      rewrite (store_app_at P _ (x * 4 + 1) 1%nat) by (cbn [length]; lia).
      cbn [mbind option_bind insert list_insert].
      rewrite (store_app_at P _ (x * 4 + 2) 2%nat) by (cbn [length]; lia).
      cbn [mbind option_bind insert list_insert].
      rewrite (store_app_at P _ (x * 4 + 3) 3%nat) by (cbn [length]; lia).
      done. }
    cbn [mbind option_bind].
    specialize (IH (S1 ++ [r; g; b; a]) rest (P ++ [r; g; b; a]) (x + 1)).
    rewrite <- !app_assoc in IH. cbn [app] in IH.
    rewrite IH; [done | lia | lia | | |lia].
    + unfold len in *. rewrite length_app. cbn [length]. lia.
    + rewrite !length_app. cbn [length]. lia.
Qed.

(** The write-back loop, started after a finished prefix of the row. *)
Lemma iterate_set_row (n : nat) : forall (P1 P2 S2 : list Z) (x : Z),
  0 <= x -> x + Z.of_nat n <= Dx rect ->
  len P1 = 4 * x -> length P2 = (4 * n)%nat -> length S2 = (4 * n)%nat ->
  iterate n x 1 (set_body (P1 ++ P2) rect (Y (Min rect) + row))
    {| Pix := pre ++ P1 ++ S2 ++ post; Stride := stride; Rect := rect |}
  = Some {| Pix := pre ++ P1 ++ P2 ++ post; Stride := stride; Rect := rect |}.
Proof using Hrow Hpre.
  induction n as [|n IH]; intros P1 P2 S2 x Hx Hxn HP1 HP2 HS2.
  - destruct P2; [|simpl in HP2; lia]. destruct S2; [done | simpl in HS2; lia].
  - destruct P2 as [|r [|g [|b [|a P2]]]]; simpl in HP2; try lia.
    destruct S2 as [|s0 [|s1 [|s2 [|s3 S2]]]]; simpl in HS2; try lia.
    cbn [iterate app].
    assert (set_body (P1 ++ r :: g :: b :: a :: P2) rect (Y (Min rect) + row) x
              {| Pix := pre ++ P1 ++ s0 :: s1 :: s2 :: s3 :: S2 ++ post;
                 Stride := stride; Rect := rect |}
            = Some {| Pix := pre ++ P1 ++ r :: g :: b :: a :: S2 ++ post;
                      Stride := stride; Rect := rect |}) as ->.
    { unfold set_body.
      assert (len P1 = x * 4) as HPx by lia.
      rewrite (load_app_at P1 _ (x * 4) 0%nat) by lia.
      rewrite (load_app_at P1 _ (x * 4 + 1) 1%nat) by lia.
      rewrite (load_app_at P1 _ (x * 4 + 2) 2%nat) by lia.
      rewrite (load_app_at P1 _ (x * 4 + 3) 3%nat) by lia.
      cbn [lookup list_lookup mbind option_bind].
      by rewrite (SetRGBA_in_row P1 S2 s0 s1 s2 s3 x) by lia. }
    cbn [mbind option_bind].
    specialize (IH (P1 ++ [r; g; b; a]) P2 S2 (x + 1)).
    rewrite <- !app_assoc in IH. cbn [app] in IH.
    rewrite IH; [done | lia | lia | | lia | lia].
    unfold len in *. rewrite length_app. cbn [length]. lia.
Qed.

End rows.

Lemma ExtractRowPixels_unfold (img : image.RGBA) (row : Z) :
  ExtractRowPixels img row =
  if (row <? 0) || (row >=? image.Dy (image.Rect img)) then Some None
  else if image.Dx (image.Rect img) * 4 <? 0 then None
  else
    pixels ← for_lt 0 (image.Dx (image.Rect img)) 1
      (extract_body img (image.Rect img)
         (image.Y (image.Min (image.Rect img)) + row))
      (make (image.Dx (image.Rect img) * 4));
    Some (Some pixels).
Proof. reflexivity. Qed.

Lemma SetRowPixels_unfold (img : image.RGBA) (row : Z) (pixels : list Z) :
  SetRowPixels img row pixels =
  if (row <? 0) || (row >=? image.Dy (image.Rect img))
     || negb (len pixels =? image.Dx (image.Rect img) * 4)
  then Some img
  else
    for_lt 0 (image.Dx (image.Rect img)) 1
      (set_body pixels (image.Rect img)
         (image.Y (image.Min (image.Rect img)) + row)) img.
Proof. reflexivity. Qed.

(** A valid image splits, at each of its rows, into the bytes before the
    row, the row, and the bytes after it. *)
Lemma valid_row_split (img : image.RGBA) (row : Z) :
  valid_RGBA img -> 0 <= row < image.Dy (image.Rect img) ->
  image.Pix img
  = take (Z.to_nat (row * image.Stride img)) (image.Pix img)
    ++ row_bytes img row
    ++ drop (Z.to_nat (row * image.Stride img + 4 * image.Dx (image.Rect img)))
         (image.Pix img)
  /\ len (take (Z.to_nat (row * image.Stride img)) (image.Pix img))
     = row * image.Stride img
  /\ len (row_bytes img row) = 4 * image.Dx (image.Rect img).
Proof.
  intros (Hdx & Hdy & Hstride & Hlen) Hrow. unfold row_bytes, len in *.
  assert (0 <= row * image.Stride img) by nia.
  assert (row * image.Stride img + 4 * image.Dx (image.Rect img)
          <= Z.of_nat (length (image.Pix img))) by nia.
  split; [|split].
  - rewrite Z2Nat.inj_add by lia.
    rewrite <- drop_drop, take_drop, take_drop. done.
  - rewrite length_take. lia.
  - rewrite length_take, length_drop. lia.
Qed.

Lemma ExtractRowPixels_eq (img : image.RGBA) (row : Z) :
  valid_RGBA img -> 0 <= row < image.Dy (image.Rect img) ->
  ExtractRowPixels img row = Some (Some (row_bytes img row)).
Proof.
  intros Hv Hrow.
  destruct (valid_row_split img row Hv Hrow) as (Hsplit & Hpre & Hlen).
  destruct Hv as (Hdx & Hdy & Hstride & _).
  rewrite ExtractRowPixels_unfold.
  replace ((row <? 0) || (row >=? image.Dy (image.Rect img))) with false
    by (symmetry; rewrite Z.geb_leb; apply orb_false_iff; split; [apply Z.ltb_ge | apply Z.leb_gt]; lia).
  replace (image.Dx (image.Rect img) * 4 <? 0) with false
    by (symmetry; apply Z.ltb_ge; lia).
  rewrite for_lt_unit. unfold make.
  set (n := Z.to_nat (image.Dx (image.Rect img))).
  replace (Z.to_nat (image.Dx (image.Rect img) * 4)) with (4 * n)%nat by lia.
  pose proof (iterate_extract (image.Stride img) (image.Rect img) _
                (drop (Z.to_nat (row * image.Stride img
                                 + 4 * image.Dx (image.Rect img)))
                   (image.Pix img))
                row Hrow Hpre n [] (row_bytes img row) [] 0) as Hloop.
  cbn [app] in Hloop. rewrite <- Hsplit in Hloop.
  destruct img as [pix stride rect]. cbn [image.Pix image.Stride image.Rect] in *.
  rewrite Hloop; [done | lia | lia | done | done |].
  unfold len in Hlen. lia.
Qed.

Lemma SetRowPixels_eq (img : image.RGBA) (row : Z) (pixels : list Z) :
  valid_RGBA img -> 0 <= row < image.Dy (image.Rect img) ->
  len pixels = image.Dx (image.Rect img) * 4 ->
  SetRowPixels img row pixels = Some (with_row img row pixels).
Proof.
  intros Hv Hrow Hpx.
  destruct (valid_row_split img row Hv Hrow) as (Hsplit & Hpre & Hlen).
  destruct Hv as (Hdx & Hdy & Hstride & _).
  rewrite SetRowPixels_unfold.
  replace ((row <? 0) || (row >=? image.Dy (image.Rect img))
           || negb (len pixels =? image.Dx (image.Rect img) * 4)) with false.
  2:{ symmetry. rewrite !orb_false_iff, negb_false_iff. repeat split.
      - apply Z.ltb_ge; lia.
      - rewrite Z.geb_leb. apply Z.leb_gt; lia.
      - by apply Z.eqb_eq. }
  rewrite for_lt_unit.
  set (n := Z.to_nat (image.Dx (image.Rect img))).
  pose proof (iterate_set_row (image.Stride img) (image.Rect img) _
                (drop (Z.to_nat (row * image.Stride img
                                 + 4 * image.Dx (image.Rect img)))
                   (image.Pix img))
                row Hrow Hpre n [] pixels (row_bytes img row) 0) as Hloop.
  cbn [app] in Hloop. rewrite <- Hsplit in Hloop.
  destruct img as [pix stride rect]. cbn [image.Pix image.Stride image.Rect] in *.
  rewrite Hloop; [done | lia | lia | done | |]; unfold len in *; lia.
Qed.

Lemma with_row_valid (img : image.RGBA) (row : Z) (pixels : list Z) :
  valid_RGBA img -> 0 <= row < image.Dy (image.Rect img) ->
  len pixels = image.Dx (image.Rect img) * 4 ->
  valid_RGBA (with_row img row pixels)
  /\ length (image.Pix (with_row img row pixels)) = length (image.Pix img).
Proof.
  intros Hv Hrow Hpx.
  destruct (valid_row_split img row Hv Hrow) as (Hsplit & Hpre & Hlen).
  assert (length (image.Pix (with_row img row pixels))
          = length (image.Pix img)) as Hsame.
  { destruct Hv as (Hdx & Hdy & Hstride & Hbuf).
    assert (0 <= row * image.Stride img) by nia.
    assert (row * image.Stride img + 4 * image.Dx (image.Rect img)
            <= len (image.Pix img)) by nia.
    unfold with_row. cbn [image.Pix].
    rewrite !length_app, length_take, length_drop. unfold len in *. lia. }
  split; [|done].
  destruct Hv as (Hdx & Hdy & Hstride & Hbuf).
  unfold valid_RGBA, len. rewrite Hsame. done.
Qed.

(** Outside the bytes of row [row], [with_row] keeps the buffer. *)
Lemma with_row_lookup_ne (img : image.RGBA) (row : Z) (pixels : list Z)
    (j : nat) :
  valid_RGBA img -> 0 <= row < image.Dy (image.Rect img) ->
  len pixels = image.Dx (image.Rect img) * 4 ->
  (Z.of_nat j < row * image.Stride img \/
   row * image.Stride img + 4 * image.Dx (image.Rect img) <= Z.of_nat j) ->
  image.Pix (with_row img row pixels) !! j = image.Pix img !! j.
Proof.
  intros Hv Hrow Hpx Hj.
  destruct (valid_row_split img row Hv Hrow) as (Hsplit & Hpre & Hlen).
  destruct Hv as (Hdx & Hdy & Hstride & Hbuf).
  assert (0 <= row * image.Stride img) by nia.
  unfold with_row. cbn [image.Pix]. unfold len in *.
  rewrite length_take in Hpre.
  destruct Hj as [Hj|Hj].
  - rewrite lookup_app_l by (rewrite length_take; lia).
    apply lookup_take_lt. lia.
  - rewrite lookup_app_r by (rewrite length_take; lia).
    rewrite lookup_app_r by (rewrite length_take; lia).
    rewrite lookup_drop. f_equal. rewrite length_take. lia.
Qed.

Lemma row_bytes_with_row_same (img : image.RGBA) (row : Z) (pixels : list Z) :
  valid_RGBA img -> 0 <= row < image.Dy (image.Rect img) ->
  len pixels = image.Dx (image.Rect img) * 4 ->
  row_bytes (with_row img row pixels) row = pixels.
Proof.
  intros Hv Hrow Hpx.
  destruct (valid_row_split img row Hv Hrow) as (Hsplit & Hpre & Hlen).
  unfold row_bytes, with_row. cbn [image.Pix image.Stride image.Rect].
  unfold len in *. rewrite length_take in Hpre.
  rewrite drop_app_length' by (rewrite length_take; lia).
  apply take_app_length'. lia.
Qed.

Lemma row_bytes_with_row_other (img : image.RGBA) (row row' : Z)
    (pixels : list Z) :
  valid_RGBA img -> 0 <= row < image.Dy (image.Rect img) ->
  0 <= row' < image.Dy (image.Rect img) -> row' <> row ->
  len pixels = image.Dx (image.Rect img) * 4 ->
  row_bytes (with_row img row pixels) row' = row_bytes img row'.
Proof.
  intros Hv Hrow Hrow' Hne Hpx. apply list_eq. intros i.
  unfold row_bytes at 1 2. cbn [image.Stride image.Rect with_row].
  rewrite !lookup_take. case_decide as Hi; [|done].
  rewrite !lookup_drop.
  change (image.Pix (with_row img row pixels)
            !! (Z.to_nat (row' * image.Stride img) + i)%nat
          = image.Pix img !! (Z.to_nat (row' * image.Stride img) + i)%nat).
  apply with_row_lookup_ne; try done.
  destruct Hv as (Hdx & Hdy & Hstride & Hbuf).
  assert (0 <= row' * image.Stride img) by nia.
  destruct (Z.lt_ge_cases row' row); [left|right]; nia.
Qed.

(** ** Claim on the row splitter and joiner *)

(** C10. On an [image.RGBA] as the image package keeps it, for a row [r]
    inside the image and a pixel slice [p] of [4 * width] bytes,
    [SetRowPixels] returns normally, a following [ExtractRowPixels] of row
    [r] returns exactly [p], and the extraction of every other row, the
    bounds and the stride are what they were. *)
Theorem C10_row_roundtrip (img : image.RGBA) (r : Z) (p : list Z) :
  valid_RGBA img ->
  0 <= r < image.Dy (image.Rect img) ->
  len p = image.Dx (image.Rect img) * 4 ->
  exists img',
    SetRowPixels img r p = Some img' /\
    ExtractRowPixels img' r = Some (Some p) /\
    (forall r', r' <> r -> ExtractRowPixels img' r' = ExtractRowPixels img r') /\
    image.Rect img' = image.Rect img /\
    image.Stride img' = image.Stride img.
Proof.
  intros Hv Hr Hp. exists (with_row img r p).
  destruct (with_row_valid img r p Hv Hr Hp) as [Hv' _].
  split; [by apply SetRowPixels_eq|].
  split.
  { rewrite ExtractRowPixels_eq by done.
    by rewrite row_bytes_with_row_same. }
  split; [|done].
  intros r' Hne.
  destruct (decide (0 <= r' < image.Dy (image.Rect img))) as [Hin|Hout].
  - rewrite !ExtractRowPixels_eq by done.
    by rewrite row_bytes_with_row_other.
  - rewrite !ExtractRowPixels_unfold. cbn [with_row image.Rect].
    replace ((r' <? 0) || (r' >=? image.Dy (image.Rect img))) with true; [done|].
    symmetry. rewrite Z.geb_leb. apply orb_true_iff.
    destruct (Z.lt_ge_cases r' 0); [left; by apply Z.ltb_lt|right].
    apply Z.leb_le. lia.
Qed.

Lemma C10_row_roundtrip_witness :
  exists img',
    SetRowPixels
      {| image.Pix := [1; 2; 3; 4; 5; 6; 7; 8; 11; 12; 13; 14; 15; 16; 17; 18];
         image.Stride := 8;
         image.Rect := {| image.Min := {| image.X := 3; image.Y := 5 |};
                          image.Max := {| image.X := 5; image.Y := 7 |} |} |}
      1 [21; 22; 23; 24; 25; 26; 27; 28] = Some img' /\
    ExtractRowPixels img' 1 = Some (Some [21; 22; 23; 24; 25; 26; 27; 28]) /\
    ExtractRowPixels img' 0 = Some (Some [1; 2; 3; 4; 5; 6; 7; 8]).
Proof.
  destruct (C10_row_roundtrip
    {| image.Pix := [1; 2; 3; 4; 5; 6; 7; 8; 11; 12; 13; 14; 15; 16; 17; 18];
       image.Stride := 8;
       image.Rect := {| image.Min := {| image.X := 3; image.Y := 5 |};
                        image.Max := {| image.X := 5; image.Y := 7 |} |} |}
    1 [21; 22; 23; 24; 25; 26; 27; 28])
    as (img' & Hset & Hget & Hother & _).
  - unfold valid_RGBA, image.Dx, image.Dy, len. cbn. lia.
  - unfold image.Dy. cbn. lia.
  - reflexivity.
  - exists img'. split; [exact Hset|]. split; [exact Hget|].
    rewrite (Hother 0) by lia. reflexivity.
Defined.

(** ** One image job *)

(** What every round of a loop keeps, the whole loop keeps. *)
Lemma iterate_inv {S : Type} (P : S -> Prop) (body : Z -> S -> option S)
    (step : Z) (n : nat) : forall (i : Z) (s s' : S),
  (forall i s s', P s -> body i s = Some s' -> P s') ->
  P s -> iterate n i step body s = Some s' -> P s'.
Proof.
  induction n as [|n IH]; intros i s s' Hbody Hs Hrun; simpl in Hrun.
  - by simplify_eq.
  - destruct (body i s) as [s1|] eqn:Hb; [|done]. simpl in Hrun.
    eapply IH; [done | | done]. by eapply Hbody.
Qed.

Lemma store_length {A : Type} (s s' : list A) (i : Z) (v : A) :
  store s i v = Some s' -> length s' = length s.
Proof.
  unfold store. case_decide; [|done]. intros [= <-]. apply length_insert.
Qed.

(** [SetRGBA] keeps the bounds, the stride and the size of the buffer. *)
Lemma SetRGBA_shape (p p' : image.RGBA) (x y : Z) (c : image.color_RGBA) :
  image.SetRGBA p x y c = Some p' ->
  image.Rect p' = image.Rect p /\ image.Stride p' = image.Stride p /\
  length (image.Pix p') = length (image.Pix p).
Proof.
  unfold image.SetRGBA. destruct (negb _); [by intros [= <-]|].
  case_decide; [|done]. intros Hst.
  destruct (store (image.Pix p) _ _) as [p1|] eqn:H1; [|done]. simpl in Hst.
  destruct (store p1 _ _) as [p2|] eqn:H2; [|done]. simpl in Hst.
  destruct (store p2 _ _) as [p3|] eqn:H3; [|done]. simpl in Hst.
  destruct (store p3 _ _) as [p4|] eqn:H4; [|done]. simpl in Hst.
  simplify_eq. cbn.
  apply store_length in H1, H2, H3, H4. repeat split; congruence.
Qed.

(** The image [ImageToRGBA] builds is laid out as [image.NewRGBA] lays it
    out, over the bounds of the source. *)
Lemma ImageToRGBA_valid (img : image.Image) (rgba : image.RGBA) :
  ImageToRGBA img = Some rgba ->
  valid_RGBA rgba /\ image.Rect rgba = image.Image_Bounds img.
Proof.
  unfold ImageToRGBA, image.NewRGBA.
  set (r := image.Image_Bounds img).
  destruct ((image.Dx r <? 0) || (image.Dy r <? 0)
            || (max_int <? 4 * image.Dx r * image.Dy r)) eqn:Hdim; [done|].
  apply orb_false_iff in Hdim as [Hdim _].
  apply orb_false_iff in Hdim as [Hdx%Z.ltb_ge Hdy%Z.ltb_ge].
  cbn [mbind option_bind]. intros Hloops.
  set (shape := fun p : image.RGBA =>
         image.Rect p = r /\ image.Stride p = 4 * image.Dx r /\
         length (image.Pix p) = Z.to_nat (4 * image.Dx r * image.Dy r)).
  assert (shape rgba) as (HR & HS & HL).
  { unfold for_lt in Hloops.
    eapply (iterate_inv shape); [| |exact Hloops].
    - intros y s s' Hs Hrow.
      eapply (iterate_inv shape); [| exact Hs | exact Hrow].
      intros x p p' (HR & HS & HL) Hset.
      apply SetRGBA_shape in Hset as (HR' & HS' & HL').
      unfold shape. by rewrite HR', HS', HL'.
    - unfold shape, make. cbn. by rewrite length_replicate. }
  split; [|done]. unfold valid_RGBA, len. rewrite HR, HS, HL. nia.
Qed.

Lemma row_task_RowIndex (job : ImageJob) (rgba : image.RGBA) (width i : Z)
    (r : RowResult) :
  processor.row_task job rgba width i = Some r -> RowIndex r = i.
Proof.
  unfold processor.row_task. intros H.
  destruct (ExtractRowPixels rgba i) as [[pixels|]|]; simpl in H;
    [|by simplify_eq|done].
  destruct (FilterRegistry !! models.Filter job) as [f|]; [|by simplify_eq].
  destruct (f pixels width (Params job)); simpl in H; by simplify_eq.
Qed.

(** With an unregistered filter, the row task of [ProcessSingleImage] sends
    the "unknown filter" error and no pixels. *)
Lemma row_task_unknown_filter (job : ImageJob) (rgba : image.RGBA)
    (width i : Z) :
  FilterRegistry !! models.Filter job = None ->
  valid_RGBA rgba -> 0 <= i < image.Dy (image.Rect rgba) ->
  processor.row_task job rgba width i
  = Some {| ImageID := ID job; RowIndex := i; Pixels := None;
            row_Error := Some (errors_New
                                 ("unknown filter: " +:+ models.Filter job));
            Duration := 0 |}.
Proof.
  intros Hreg Hv Hi. unfold processor.row_task.
  rewrite ExtractRowPixels_eq by done. cbn [mbind option_bind].
  unfold Filter in *. by rewrite Hreg.
Qed.

(** The collection loop stops at the first arrival that carries an error
    and wraps that error. *)
Lemma collect_rows_error (arrivals : list RowResult) :
  forall processedRows : list (option (list Z)),
  Forall (fun r => 0 <= RowIndex r < len processedRows) arrivals ->
  (exists r, r ∈ arrivals /\ is_Some (row_Error r)) ->
  exists r e,
    r ∈ arrivals /\ row_Error r = Some e /\
    processor.collect_rows arrivals processedRows
    = Some (inl (fmt_Errorf_w "row processing failed: " e)).
Proof.
  induction arrivals as [|r0 arrivals IH]; intros rows Hidx (r & Hr & Herr).
  - by apply elem_of_nil in Hr.
  - apply Forall_cons in Hidx as [Hidx0 Hidx]. cbn [processor.collect_rows].
    destruct (row_Error r0) as [e0|] eqn:He0.
    + exists r0, e0. split; [left|done].
    + unfold store. case_decide; [|lia]. cbn [mbind option_bind].
      apply elem_of_cons in Hr as [->|Hr].
      { rewrite He0 in Herr. by destruct Herr. }
      destruct (IH (<[Z.to_nat (RowIndex r0) := Pixels r0]> rows))
        as (r' & e & Hr' & He & Hcol).
      * unfold len in *. by rewrite length_insert.
      * by exists r.
      * exists r', e. split; [by right|done].
Qed.

(** ** Claims on the image job *)

(** C5. Once an image is decoded and its row tasks have reported, if any
    of them reports an error, [ProcessSingleImage] returns a result whose
    error wraps the error of a reporting row (the first to arrive with
    one) as "row processing failed", and nothing reaches the file system:
    the save step is not run. *)
Theorem C5_row_error_fails_job
    (pf : platform.Platform) (cfg : config.Config) (order : list Z)
    (job : ImageJob) (size : Z) (img : image.Image) (format : string)
    (rgba : image.RGBA) (arrivals : list RowResult) :
  platform.os_Stat pf (InputPath job) = inr size ->
  size <= config.MaxFileSize cfg ->
  processor.loadImage pf (InputPath job) = inr (img, format) ->
  ImageToRGBA img = Some rgba ->
  order ≡ₚ seqZ 0 (image.Dy (image.Bounds rgba)) ->
  mapM (processor.row_task job rgba (image.Dx (image.Bounds rgba))) order
  = Some arrivals ->
  (exists r, r ∈ arrivals /\ is_Some (row_Error r)) ->
  exists result r e,
    processor.ProcessSingleImage pf cfg order job = Some (result, []) /\
    r ∈ arrivals /\ row_Error r = Some e /\
    res_Error result = Some (fmt_Errorf_w "row processing failed: " e) /\
    res_InputPath result = InputPath job /\
    res_OutputPath result = OutputPath job.
Proof.
  intros Hstat Hsize Hload Hrgba Horder Hrows Herr.
  set (height := image.Dy (image.Bounds rgba)) in *.
  assert (Forall (fun r => 0 <= RowIndex r
                           < len (replicate (Z.to_nat height) (@None (list Z))))
            arrivals) as Hidx.
  { apply mapM_Some in Hrows. apply Forall_forall. intros r Hr.
    apply list_elem_of_lookup in Hr as [k Hk].
    destruct (Forall2_lookup_r _ _ _ _ _ Hrows Hk) as (i & Hi & Htask).
    apply row_task_RowIndex in Htask as ->.
    assert (i ∈ seqZ 0 height) as Hin
      by (rewrite <- Horder; by eapply list_elem_of_lookup_2).
    apply elem_of_seqZ in Hin. unfold len. rewrite length_replicate. lia. }
  destruct (collect_rows_error arrivals _ Hidx Herr) as (r & e & Hr & He & Hcol).
  eexists _, r, e. unfold processor.ProcessSingleImage.
  rewrite Hstat.
  replace (config.MaxFileSize cfg <? size) with false
    by (symmetry; apply Z.ltb_ge; lia).
  rewrite Hload, Hrgba. cbn [mbind option_bind].
  fold height. rewrite Hrows. cbn [mbind option_bind].
  rewrite Hcol. cbn [mbind option_bind]. done.
Qed.

Lemma C5_row_error_fails_job_witness :
  exists result,
    processor.ProcessSingleImage example_platform (example_config "sepia")
      [0] sepia_job = Some (result, []) /\
    res_Error result
    = Some (fmt_Errorf_w "row processing failed: " (unknown_filter "sepia")).
Proof.
  destruct (C5_row_error_fails_job example_platform (example_config "sepia")
              [0] sepia_job 1024 one_pixel_image "png" one_pixel_rgba
              [{| ImageID := "job_0"; RowIndex := 0; Pixels := None;
                  row_Error := Some (unknown_filter "sepia"); Duration := 0 |}])
    as (result & r & e & Hrun & Hr & He & Herr & _).
  - reflexivity.
  - cbn. lia.
  - reflexivity.
  - reflexivity.
  - reflexivity.
  - reflexivity.
  - eexists. split; [left|]. by eexists.
  - exists result. split; [exact Hrun|].
    apply list_elem_of_singleton in Hr. subst r. cbn in He.
    injection He as <-. exact Herr.
Defined.

(** C4, refutation: in [ProcessSingleImage] the row task that meets an
    unregistered filter sends a [RowResult] whose [Pixels] is nil, not the
    row it extracted. *)
Lemma C4_row_task_sends_no_pixels :
  ExtractRowPixels one_pixel_rgba 0 = Some (Some [10; 20; 30; 255]) /\
  Pixels <$> processor.row_task sepia_job one_pixel_rgba 1 0 = Some None /\
  Pixels <$> processor.row_task sepia_job one_pixel_rgba 1 0
  <> Some (Some [10; 20; 30; 255]).
Proof. split; [reflexivity|]. split; [reflexivity | discriminate]. Qed.

(** C4, amended.  When the filter named by the job is not registered:
    the pool's [rowWorker] answers a row job with a [RowResult] that
    carries the "unknown filter" error and the row's pixels unchanged; in
    [ProcessSingleImage] every row task sends a [RowResult] with the
    "unknown filter" error and no pixels; and the image job, once it has
    decoded an image of at least one row, ends with the error
    "row processing failed" wrapping "unknown filter", with nothing
    written to the file system. *)
Theorem C4_unknown_filter
    (pf : platform.Platform) (cfg : config.Config) (order : list Z)
    (job : ImageJob) (size : Z) (img : image.Image) (format : string)
    (rgba : image.RGBA) (elapsed : Z) (rjob : RowJob) :
  FilterRegistry !! models.Filter job = None ->
  job_Filter rjob = models.Filter job ->
  platform.os_Stat pf (InputPath job) = inr size ->
  size <= config.MaxFileSize cfg ->
  processor.loadImage pf (InputPath job) = inr (img, format) ->
  ImageToRGBA img = Some rgba ->
  1 <= image.Dy (image.Bounds rgba) ->
  order ≡ₚ seqZ 0 (image.Dy (image.Bounds rgba)) ->
  worker_rows.rowWorker_result elapsed rjob
  = Some {| ImageID := job_ImageID rjob; RowIndex := job_RowIndex rjob;
            Pixels := Some (job_Pixels rjob);
            row_Error := Some (unknown_filter (models.Filter job));
            Duration := elapsed |} /\
  (forall i, i ∈ order ->
     processor.row_task job rgba (image.Dx (image.Bounds rgba)) i
     = Some {| ImageID := ID job; RowIndex := i; Pixels := None;
               row_Error := Some (unknown_filter (models.Filter job));
               Duration := 0 |}) /\
  exists result,
    processor.ProcessSingleImage pf cfg order job = Some (result, []) /\
    res_Error result
    = Some (fmt_Errorf_w "row processing failed: "
              (unknown_filter (models.Filter job))).
Proof.
  intros Hreg Hname Hstat Hsize Hload Hrgba Hheight Horder.
  destruct (ImageToRGBA_valid img rgba Hrgba) as [Hv _].
  set (height := image.Dy (image.Bounds rgba)) in *.
  assert (forall i, i ∈ order ->
     processor.row_task job rgba (image.Dx (image.Bounds rgba)) i
     = Some {| ImageID := ID job; RowIndex := i; Pixels := None;
               row_Error := Some (unknown_filter (models.Filter job));
               Duration := 0 |}) as Htask.
  { intros i Hi. rewrite Horder in Hi. apply elem_of_seqZ in Hi.
    apply row_task_unknown_filter; [done | done | unfold image.Bounds in *; lia]. }
  split; [|split; [exact Htask|]].
  - unfold worker_rows.rowWorker_result. rewrite Hname.
    unfold Filter in *. by rewrite Hreg.
  - destruct order as [|i0 order].
    { apply Permutation_nil_l in Horder. unfold seqZ in Horder.
      destruct (Z.to_nat height) eqn:Hh; [lia|done]. }
    eexists. unfold processor.ProcessSingleImage.
    rewrite Hstat.
    replace (config.MaxFileSize cfg <? size) with false
      by (symmetry; apply Z.ltb_ge; lia).
    rewrite Hload, Hrgba. cbn [mbind option_bind mapM].
    rewrite (Htask i0) by left. cbn [mbind option_bind].
    assert (is_Some (mapM (processor.row_task job rgba
                             (image.Dx (image.Bounds rgba))) order))
      as [rest Hrest].
    { apply mapM_is_Some, Forall_forall. intros i Hi. cbn.
      rewrite (Htask i) by (by right). done. }
    rewrite Hrest. cbn [mbind option_bind mret option_ret fmap option_fmap
                        option_map processor.collect_rows row_Error].
    done.
Qed.

Lemma C4_unknown_filter_witness :
  exists result,
    processor.ProcessSingleImage example_platform (example_config "sepia")
      [0] sepia_job = Some (result, []) /\
    res_Error result
    = Some (fmt_Errorf_w "row processing failed: " (unknown_filter "sepia")).
Proof.
  destruct (C4_unknown_filter example_platform (example_config "sepia")
              [0] sepia_job 1024 one_pixel_image "png" one_pixel_rgba
              7 sepia_row_job)
    as (_ & _ & result & Hrun & Herr).
  - reflexivity.
  - reflexivity.
  - reflexivity.
  - cbn. lia.
  - reflexivity.
  - reflexivity.
  - vm_compute. discriminate.
  - reflexivity.
  - exists result. split; [exact Hrun | exact Herr].
Defined.

(** ** Claims on the worker pool *)

(** The pool [processor.New] builds: on a pool whose channels are open,
    [Stop] closes the quit channel, the job queue and the result queue once
    each, the result queue last and only when the wait group is at zero. *)
Lemma Stop_closes_each_channel_once (wp : worker.WorkerPool) :
  sync.closed (worker.quit wp) = false ->
  sync.closed (worker.jobQueue wp) = false ->
  sync.closed (worker.resultQueue wp) = false ->
  (forall c, c <> worker.rowResults_chan ->
     length (filter (fun op => op = sync.Close c) worker.Stop) = 1%nat) /\
  (worker.wg wp <> 0 ->
     sync.run_ops worker.exec_op worker.Stop wp = sync.Blocks) /\
  (worker.wg wp = 0 ->
     exists wp',
       sync.run_ops worker.exec_op worker.Stop wp = sync.Completes wp' /\
       sync.closed (worker.quit wp') = true /\
       sync.closed (worker.jobQueue wp') = true /\
       sync.closed (worker.resultQueue wp') = true /\
       sync.closed (worker.rowResults wp') = sync.closed (worker.rowResults wp)).
Proof.
  destruct wp as [n [jb jc jcl] [rb rc rcl] [rrb rrc rrcl] [qb qc qcl] w].
  cbn. intros -> -> ->. split; [|split].
  - intros [] Hc; done.
  - intros Hwg%Z.eqb_neq. unfold sync.close. cbn. by rewrite Hwg.
  - intros ->. unfold sync.close. cbn. eexists. by split.
Qed.

(** C9, on the variant of worker.go with row workers.  Its [Stop] contains
    [close(wp.resultQueue)] twice: on a pool with open channels whose
    workers have all returned, the first five statements succeed and the
    sixth panics with "close of closed channel"; and while a worker is
    still running, [Stop] waits before it closes the result queue. *)
Theorem C9_row_variant_closes_result_queue_twice (wp : worker_rows.WorkerPool) :
  sync.closed (worker_rows.quit wp) = false ->
  sync.closed (worker_rows.jobQueue wp) = false ->
  sync.closed (worker_rows.rowJobQueue wp) = false ->
  sync.closed (worker_rows.resultQueue wp) = false ->
  length (filter (fun op => op = sync.Close worker_rows.resultQueue_chan)
            worker_rows.Stop) = 2%nat /\
  (worker_rows.wg wp <> 0 ->
     sync.run_ops worker_rows.exec_op worker_rows.Stop wp = sync.Blocks) /\
  (worker_rows.wg wp = 0 ->
     (exists wp',
        sync.run_ops worker_rows.exec_op (take 5 worker_rows.Stop) wp
        = sync.Completes wp' /\
        sync.closed (worker_rows.resultQueue wp') = true) /\
     sync.run_ops worker_rows.exec_op worker_rows.Stop wp
     = sync.Panics "close of closed channel").
Proof.
  destruct wp
    as [n [jb jc jcl] [rb rc rcl] [rjb rjc rjcl] [rrb rrc rrcl] [qb qc qcl] w].
  cbn. intros -> -> -> ->. split; [done|]. split.
  - intros Hwg%Z.eqb_neq. unfold sync.close. cbn. by rewrite Hwg.
  - intros ->. unfold sync.close. cbn. split; [|done]. by eexists.
Qed.

Lemma C9_row_variant_closes_result_queue_twice_witness :
  sync.run_ops worker_rows.exec_op worker_rows.Stop
    (worker_rows.NewWorkerPool 4 10)
  = sync.Panics "close of closed channel".
Proof.
  apply (C9_row_variant_closes_result_queue_twice
           (worker_rows.NewWorkerPool 4 10));
    reflexivity.
Defined.

(** ** The batch: invariant of [ProcessImages] and its goroutines *)

(** An image job answers for the paths of its job. *)
Lemma ProcessSingleImage_paths (pf : platform.Platform) (cfg : config.Config)
    (order : list Z) (job : ImageJob) (result : ProcessingResult)
    (evs : list platform.fs_event) :
  processor.ProcessSingleImage pf cfg order job = Some (result, evs) ->
  res_InputPath result = InputPath job /\ res_OutputPath result = OutputPath job.
Proof.
  unfold processor.ProcessSingleImage, processor.with_Error. intros H.
  repeat (case_match; simplify_option_eq; try done).
Qed.

Lemma running_nonneg (ws : list worker.worker_state) : 0 <= running ws.
Proof. induction ws as [|[] ws IH]; simpl; lia. Qed.

Lemma running_replicate (n : nat) :
  running (replicate n worker.AtSelect) = Z.of_nat n.
Proof. induction n as [|n IH]; simpl; lia. Qed.

Lemma running_insert (ws : list worker.worker_state) (w : nat)
    (st st' : worker.worker_state) :
  ws !! w = Some st ->
  running (<[w := st']> ws) + running [st] = running ws + running [st'].
Proof.
  revert w. induction ws as [|s0 ws IH]; intros [|w] Hw; simplify_eq/=.
  - destruct st, st'; simpl; lia.
  - specialize (IH w Hw). destruct s0; simpl in *; lia.
Qed.

Lemma running_zero (ws : list worker.worker_state) (w : nat)
    (st : worker.worker_state) :
  running ws = 0 -> ws !! w = Some st -> st = worker.Exited.
Proof.
  revert w. induction ws as [|s0 ws IH]; intros [|w] H0 Hw; simplify_eq/=.
  - pose proof (running_nonneg ws). destruct st; simpl in *; [lia | lia | done].
  - pose proof (running_nonneg ws). apply (IH w); [|done].
    destruct s0; simpl in *; lia.
Qed.

(** Replacing the state of one worker moves only the path it holds. *)
Lemma held_insert (ws : list worker.worker_state) (w : nat)
    (st st' : worker.worker_state) :
  ws !! w = Some st ->
  (<[w := st']> ws ≫= held_path) ++ held_path st
  ≡ₚ (ws ≫= held_path) ++ held_path st'.
Proof.
  revert w. induction ws as [|s0 ws IH]; intros [|w] Hw; simplify_eq/=.
  - solve_Permutation.
  - specialize (IH w Hw). rewrite <- !app_assoc. by rewrite IH.
Qed.

Lemma worker_exit_running (ws : list worker.worker_state) (w : nat)
    (st : worker.worker_state) :
  ws !! w = Some st -> st <> worker.Exited ->
  running ws - 1 = running (<[w := worker.Exited]> ws).
Proof.
  intros Hw Hst. pose proof (running_insert ws w st worker.Exited Hw).
  destruct st; simpl in *; [lia | lia | done].
Qed.

Lemma worker_exit_held (ws : list worker.worker_state) (w : nat)
    (st : worker.worker_state) :
  ws !! w = Some st ->
  <[w := worker.Exited]> ws ≫= held_path ⊆+ ws ≫= held_path.
Proof.
  intros Hw. pose proof (held_insert ws w st worker.Exited Hw) as Hp.
  simpl in Hp. rewrite app_nil_r in Hp. rewrite <- Hp.
  by apply submseteq_inserts_r.
Qed.

Lemma worker_recv_running (ws : list worker.worker_state) (w : nat)
    (r : ProcessingResult) :
  ws !! w = Some worker.AtSelect ->
  running ws = running (<[w := worker.AtSend r]> ws).
Proof.
  intros Hw. pose proof (running_insert ws w _ (worker.AtSend r) Hw).
  simpl in *. lia.
Qed.

Lemma worker_recv_held (ws : list worker.worker_state) (w : nat)
    (r : ProcessingResult) :
  ws !! w = Some worker.AtSelect ->
  <[w := worker.AtSend r]> ws ≫= held_path
  ≡ₚ (ws ≫= held_path) ++ [res_InputPath r].
Proof.
  intros Hw. pose proof (held_insert ws w _ (worker.AtSend r) Hw) as Hp.
  simpl in Hp. by rewrite app_nil_r in Hp.
Qed.

Lemma worker_send_running (ws : list worker.worker_state) (w : nat)
    (r : ProcessingResult) :
  ws !! w = Some (worker.AtSend r) ->
  running ws = running (<[w := worker.AtSelect]> ws).
Proof.
  intros Hw. pose proof (running_insert ws w _ worker.AtSelect Hw).
  simpl in *. lia.
Qed.

Lemma worker_send_held (ws : list worker.worker_state) (w : nat)
    (r : ProcessingResult) :
  ws !! w = Some (worker.AtSend r) ->
  (<[w := worker.AtSelect]> ws ≫= held_path) ++ [res_InputPath r]
  ≡ₚ ws ≫= held_path.
Proof.
  intros Hw. pose proof (held_insert ws w _ worker.AtSelect Hw) as Hp.
  simpl in Hp. by rewrite app_nil_r in Hp.
Qed.

(** The enabled cases of a step. *)
Ltac step_cases Hstep :=
  cbn in Hstep; repeat (simplify_option_eq || case_match); try done.

(** The invariant of the successor, split into its conjuncts. *)
Ltac inv_goal :=
  unfold batch_inv, in_flight, verdict; cbn;
  repeat match goal with |- _ /\ _ => split end;
  try done; try lia.

(** The conjuncts of the invariant that a move of a worker touches. *)
Ltac worker_goal Hfl :=
  match goal with
  | Hw : ?ws !! ?w = Some _ |- running ?ws - 1 = running (<[?w := worker.Exited]> ?ws) =>
      by apply (worker_exit_running ws w _ Hw)
  | Hw : ?ws !! ?w = Some _ |- running ?ws = running (<[?w := worker.AtSend _]> ?ws) =>
      by apply worker_recv_running
  | Hw : ?ws !! ?w = Some _ |- running ?ws = running (<[?w := worker.AtSelect]> ?ws) =>
      by eapply worker_send_running
  | Hw : ?ws !! ?w = Some _ |- context [<[?w := worker.Exited]> ?ws ≫= held_path] =>
      etrans; [|exact Hfl];
      repeat (apply submseteq_app; [done|]);
      apply submseteq_app; [exact (worker_exit_held ws w _ Hw)|done]
  | Hw : ?ws !! ?w = Some worker.AtSelect,
    Hp : processor.ProcessSingleImage _ _ _ _ = Some (?r, _)
    |- context [<[?w := worker.AtSend ?r]> ?ws ≫= held_path] =>
      rewrite (worker_recv_held ws w r Hw);
      apply ProcessSingleImage_paths in Hp as [-> _];
      etrans; [|exact Hfl]; solve_submseteq
  | Hw : ?ws !! ?w = Some (worker.AtSend ?r)
    |- context [<[?w := worker.AtSelect]> ?ws ≫= held_path] =>
      rewrite ?fmap_app; cbn;
      rewrite <- (worker_send_held ws w r Hw) in Hfl;
      etrans; [|exact Hfl]; solve_submseteq
  end.

(** Every step keeps the invariant. *)
Lemma step_inv (pf : platform.Platform) (cfg : config.Config)
    (paths : list string) (l : batch.label) (s s' : batch.system) :
  batch_inv paths s -> batch.step pf cfg paths l s = Some s' ->
  batch_inv paths s'.
Proof.
  intros Hinv Hstep.
  destruct s as [[n [jb jc jcl] [rb rc rcl] rr [qb qc qcl] wg] ws c m ev].
  unfold batch.step in Hstep. cbn in Hstep.
  destruct m as [i|rs|pc rs err|rs err|msg]; [| | | |done].
  - (* Submitting *)
    unfold batch_inv, in_flight, verdict in Hinv. cbn in Hinv.
    destruct Hinv as (Hfl & Hsub & _ & -> & -> & -> & _ & Hwg & _).
    destruct l; step_cases Hstep; inv_goal; try worker_goal Hfl.
    + rewrite (take_S_r _ _ _ Heqo), fmap_app. cbn.
      etrans; [|apply submseteq_app; [exact Hfl|reflexivity]].
      solve_submseteq.
    + by apply lookup_lt_Some in Heqo.
    + rewrite take_ge in Hfl by lia. by rewrite take_ge by lia.
  - (* Collecting *)
    unfold batch_inv, in_flight, verdict in Hinv. cbn in Hinv.
    destruct Hinv as (Hfl & Hsub & _ & -> & -> & -> & _ & Hwg & _).
    destruct l; step_cases Hstep; inv_goal; try worker_goal Hfl.
    rewrite fmap_app. cbn. etrans; [|exact Hfl]. solve_submseteq.
  - (* Stopping *)
    unfold batch_inv, in_flight, verdict in Hinv. cbn in Hinv.
    destruct Hinv as (Hfl & Hsub & Hpc & -> & -> & -> & Hwg0 & -> & Hv).
    assert ((3 <= pc)%nat -> forall w st, ws !! w = Some st -> st = worker.Exited)
      as Hall by (intros Hpc3 w st Hw; by eapply running_zero; [apply Hwg0|]).
    destruct err as [e|]; [destruct Hv as [-> ->]|].
    all: destruct pc as [|[|[|[|[|?]]]]]; try lia.
    all: try (specialize (Hall ltac:(lia))).
    all: destruct l; step_cases Hstep.
    all: try (match goal with
              | Hall' : (forall w st, ?x !! w = Some st -> st = worker.Exited),
                Hw : ?x !! _ = Some _ |- _ => by specialize (Hall' _ _ Hw)
              end).
    all: inv_goal; try worker_goal Hfl.
  - (* Returned *)
    unfold batch_inv, in_flight, verdict in Hinv. cbn in Hinv.
    destruct Hinv as (Hfl & Hsub & Hpc & -> & -> & -> & Hwg0 & -> & Hv).
    assert (forall w st, ws !! w = Some st -> st = worker.Exited)
      as Hall by (intros w st Hw; eapply running_zero; [apply Hwg0; lia|done]).
    destruct err as [e|]; [destruct Hv as [-> ->]|].
    all: destruct l; step_cases Hstep.
    all: try (match goal with
              | Hall' : (forall w st, ?x !! w = Some st -> st = worker.Exited),
                Hw : ?x !! _ = Some _ |- _ => by specialize (Hall' _ _ Hw)
              end).
    all: inv_goal; try worker_goal Hfl.
Qed.

Lemma held_replicate (n : nat) :
  replicate n worker.AtSelect ≫= held_path = [].
Proof. induction n as [|n IH]; [done|]. simpl. exact IH. Qed.

Lemma initial_inv (pf : platform.Platform) (cfg : config.Config)
    (paths : list string) :
  batch_inv paths (batch.initial cfg).
Proof.
  unfold batch_inv, in_flight, verdict, batch.initial. cbn.
  repeat split; try done; try lia.
  - by rewrite held_replicate.
  - rewrite running_replicate. lia.
Qed.

Lemma run_inv (pf : platform.Platform) (cfg : config.Config)
    (paths : list string) (trace : list batch.label) :
  forall s s' : batch.system,
  batch_inv paths s -> batch.run pf cfg paths trace s = Some s' ->
  batch_inv paths s'.
Proof.
  induction trace as [|l trace IH]; intros s s' Hinv Hrun; simpl in Hrun.
  - by simplify_eq.
  - destruct (batch.step pf cfg paths l s) as [s1|] eqn:Hstep; [|done].
    simpl in Hrun. eapply IH; [|done]. by eapply step_inv.
Qed.

(** No reachable state is a panic of a channel operation: [Stop] closes
    nothing twice, and no worker sends on the closed result queue. *)
Lemma reachable_no_channel_panic (pf : platform.Platform) (cfg : config.Config)
    (paths : list string) (s : batch.system) (msg : string) :
  batch.reachable pf cfg paths s -> batch.main s = batch.Panicked msg ->
  msg = "image job".
Proof.
  intros [trace Hrun] Hm.
  pose proof (run_inv pf cfg paths trace _ _ (initial_inv pf cfg paths) Hrun)
    as Hinv.
  unfold batch_inv in Hinv. by rewrite Hm in Hinv.
Qed.

(** In every reachable state the result queue is closed only when every
    worker has returned. *)
Lemma reachable_result_queue_closed_late (pf : platform.Platform)
    (cfg : config.Config) (paths : list string) (s : batch.system)
    (w : nat) (st : worker.worker_state) :
  batch.reachable pf cfg paths s ->
  (forall msg, batch.main s <> batch.Panicked msg) ->
  sync.closed (worker.resultQueue (batch.pool s)) = true ->
  batch.workers s !! w = Some st -> st = worker.Exited.
Proof.
  intros [trace Hrun] Hm Hclosed Hw.
  pose proof (run_inv pf cfg paths trace _ _ (initial_inv pf cfg paths) Hrun)
    as Hinv.
  unfold batch_inv in Hinv.
  destruct (batch.main s) as [i|rs|pc rs err|rs err|msg] eqn:Hmain;
    [| | | |by destruct (Hm msg)].
  all: destruct Hinv as (_ & _ & Hpc & _ & _ & Hrq & Hwg0 & Hwg & _).
  all: rewrite Hclosed in Hrq; cbn in Hrq; try done.
  - eapply running_zero; [|done]. rewrite <- Hwg. apply Hwg0.
    destruct pc as [|[|[|[|?]]]]; [done..|cbn; lia].
  - eapply running_zero; [|done]. rewrite <- Hwg. apply Hwg0. cbn. lia.
Qed.



(** ** Claim on the batch *)



(** The cancelled run: one result is collected, the token fires, the loop
    takes [<-ctx.Done()], and that one result comes back with the
    cancellation error. *)
Example cancelled_run_returns_partial :
  exists s result,
    batch.run example_platform (example_config "grayscale")
      ["in/a.png"; "in/b.png"] cancelled_run
      (batch.initial (example_config "grayscale")) = Some s /\
    batch.main s = batch.Returned [result] (Some context_Canceled) /\
    res_InputPath result = "in/a.png".
Proof.
  eexists _, _. split; [vm_compute; reflexivity|]. split; reflexivity.
Qed.

(** ** binary64: integers, exact sums and truncated quotients *)

Lemma digits2_pos_bounds (p : positive) :
  2 ^ (Zpos (digits2_pos p) - 1) <= Zpos p < 2 ^ Zpos (digits2_pos p).
Proof.
  induction p as [p IH|p IH|]; cbn [digits2_pos].
  - rewrite Pos2Z.inj_succ. replace (Z.succ (Zpos (digits2_pos p)) - 1)
      with (Z.succ (Zpos (digits2_pos p) - 1)) by lia.
    rewrite !Z.pow_succ_r by lia. lia.
  - rewrite Pos2Z.inj_succ. replace (Z.succ (Zpos (digits2_pos p)) - 1)
      with (Z.succ (Zpos (digits2_pos p) - 1)) by lia.
    rewrite !Z.pow_succ_r by lia. lia.
  - cbn. lia.
Qed.

Lemma digits2_pos_unique (p : positive) (d : Z) :
  2 ^ (d - 1) <= Zpos p < 2 ^ d -> Zpos (digits2_pos p) = d.
Proof.
  intros [Hlo Hhi]. pose proof (digits2_pos_bounds p) as [Hlo' Hhi'].
  set (d' := Zpos (digits2_pos p)) in *.
  assert (0 < d) as Hd.
  { destruct (Z.lt_ge_cases 0 d) as [|Hneg]; [done|].
    rewrite (Z.pow_neg_r 2 (d - 1)) in Hlo by lia.
    destruct (Z.eq_dec d 0) as [->|]; [cbn in Hhi; lia|].
    rewrite Z.pow_neg_r in Hhi by lia. lia. }
  assert (0 < d') by (subst d'; lia).
  destruct (Z.lt_trichotomy d d') as [Hlt|[Heq|Hgt]]; [|done|].
  - assert (2 ^ d <= 2 ^ (d' - 1)) by (apply Z.pow_le_mono_r; lia). lia.
  - assert (2 ^ d' <= 2 ^ (d - 1)) by (apply Z.pow_le_mono_r; lia). lia.
Qed.

Lemma iter_xO_spec (m d : positive) :
  Zpos (Pos.iter xO m d) = Zpos m * 2 ^ Zpos d.
Proof.
  change (Pos.iter xO m d) with (shift_pos d m).
  rewrite shift_pos_correct. rewrite Zpower_pos_nat, Zpower_nat_Z.
  rewrite positive_nat_Z. lia.
Qed.

Lemma iter_pos_nat {A : Type} (f : A -> A) (p : positive) (x : A) :
  SpecFloat.iter_pos f p x = Nat.iter (Pos.to_nat p) f x.
Proof.
  revert x. induction p as [p IH|p IH|]; intros x; cbn [SpecFloat.iter_pos].
  - rewrite !IH, Pos2Nat.inj_xI. 
    replace (S (2 * Pos.to_nat p)) with (Pos.to_nat p + (Pos.to_nat p + 1))%nat by lia.
    rewrite !Nat.iter_add. done.
  - rewrite !IH, Pos2Nat.inj_xO.
    replace (2 * Pos.to_nat p)%nat with (Pos.to_nat p + Pos.to_nat p)%nat by lia.
    rewrite Nat.iter_add. done.
  - done.
Qed.

Lemma shr_1_exact (m : Z) :
  0 <= m ->
  shr_1 {| shr_m := 2 * m; shr_r := false; shr_s := false |}
  = {| shr_m := m; shr_r := false; shr_s := false |}.
Proof. intros Hm. destruct m as [|p|p]; [done|done|lia]. Qed.

Lemma iter_shr_1_exact (n : nat) (m : Z) :
  0 <= m ->
  Nat.iter n shr_1
    {| shr_m := m * 2 ^ Z.of_nat n; shr_r := false; shr_s := false |}
  = {| shr_m := m; shr_r := false; shr_s := false |}.
Proof.
  intros Hm. revert m Hm. induction n as [|n IH]; intros m Hm.
  - cbn. f_equal. lia.
  - rewrite Nat.iter_succ_r.
    replace (m * 2 ^ Z.of_nat (S n)) with (2 * (m * 2 ^ Z.of_nat n))
      by (rewrite Nat2Z.inj_succ, Z.pow_succ_r by lia; lia).
    rewrite shr_1_exact by (apply Z.mul_nonneg_nonneg; lia). by apply IH.
Qed.

Lemma Zdigits2_bounds (k : Z) :
  0 < k -> 0 < Zdigits2 k /\ 2 ^ (Zdigits2 k - 1) <= k < 2 ^ Zdigits2 k.
Proof.
  intros Hk. destruct k as [|p|p]; try lia. cbn [Zdigits2].
  split; [lia|apply digits2_pos_bounds].
Qed.

Lemma Zdigits2_unique (k d : Z) :
  0 < k -> 2 ^ (d - 1) <= k < 2 ^ d -> Zdigits2 k = d.
Proof.
  intros Hk Hd. destruct k as [|p|p]; try lia. cbn [Zdigits2].
  by apply digits2_pos_unique.
Qed.

Lemma Zdigits2_scale (k t : Z) :
  0 < k -> 0 <= t -> Zdigits2 (k * 2 ^ t) = Zdigits2 k + t.
Proof.
  intros Hk Ht. destruct (Zdigits2_bounds k Hk) as (Hd & Hlo & Hhi).
  assert (0 < 2 ^ t) by (apply Z.pow_pos_nonneg; lia).
  apply Zdigits2_unique; [nia|].
  replace (Zdigits2 k + t - 1) with ((Zdigits2 k - 1) + t) by lia.
  rewrite !Z.pow_add_r by lia. nia.
Qed.

Lemma Zdigits2_le (k d : Z) : 0 < k -> k < 2 ^ d -> Zdigits2 k <= d.
Proof.
  intros Hk Hd. destruct (Zdigits2_bounds k Hk) as (Hd0 & Hlo & Hhi).
  destruct (Z.le_gt_cases (Zdigits2 k) d) as [|Hgt]; [done|].
  assert (2 ^ d <= 2 ^ (Zdigits2 k - 1)) by (apply Z.pow_le_mono_r; lia). lia.
Qed.

(** A 53-bit mantissa with an exponent in range is kept as it is. *)
Lemma binary_round_aux_canonical (s : bool) (m : positive) (e : Z) :
  Zpos (digits2_pos m) = 53 -> -1074 <= e <= 971 ->
  binary_round_aux prec emax s (Zpos m) e loc_Exact = S754_finite s m e.
Proof.
  intros Hd He. unfold binary_round_aux, shr_fexp.
  cbn [Zdigits2 shr_record_of_loc]. rewrite Hd.
  replace (fexp prec emax (53 + e) - e) with 0
    by (unfold fexp, SpecFloat.emin, prec, emax; lia).
  cbn [shr shr_m loc_of_shr_record round_nearest_even Zdigits2 shr_record_of_loc].
  rewrite Hd.
  replace (fexp prec emax (53 + e) - e) with 0
    by (unfold fexp, SpecFloat.emin, prec, emax; lia).
  cbn [shr shr_m].
  replace (e <=? emax - prec) with true
    by (symmetry; apply Z.leb_le; unfold prec, emax; lia).
  done.
Qed.

(** A 53-bit mantissa followed by [n] zero bits is rounded exactly. *)
Lemma binary_round_aux_exact (s : bool) (m : positive) (e n : Z) :
  Zpos (digits2_pos m) = 53 -> 0 <= n -> -1074 <= e + n <= 971 ->
  binary_round_aux prec emax s (Zpos m * 2 ^ n) e loc_Exact
  = S754_finite s m (e + n).
Proof.
  intros Hd Hn He.
  assert (Zdigits2 (Zpos m * 2 ^ n) = 53 + n) as HdM
    by (rewrite Zdigits2_scale by lia; cbn [Zdigits2]; lia).
  unfold binary_round_aux, shr_fexp. rewrite HdM.
  cbn [shr_record_of_loc].
  replace (fexp prec emax (53 + n + e) - e) with n
    by (unfold fexp, SpecFloat.emin, prec, emax; lia).
  assert (shr {| shr_m := Zpos m * 2 ^ n; shr_r := false; shr_s := false |} e n
          = ({| shr_m := Zpos m; shr_r := false; shr_s := false |}, e + n))
    as ->.
  { destruct n as [|pn|pn]; [|clear Hn|lia].
    - cbn [shr]. repeat f_equal; lia.
    - cbn [shr]. f_equal. rewrite iter_pos_nat.
      rewrite <- (positive_nat_Z pn). by apply iter_shr_1_exact. }
  cbn [shr_m loc_of_shr_record round_nearest_even Zdigits2 shr_record_of_loc].
  rewrite Hd.
  replace (fexp prec emax (53 + (e + n)) - (e + n)) with 0
    by (unfold fexp, SpecFloat.emin, prec, emax; lia).
  cbn [shr shr_m].
  replace (e + n <=? emax - prec) with true
    by (symmetry; apply Z.leb_le; unfold prec, emax; lia).
  done.
Qed.

Lemma canon_mantissa (K : Z) :
  0 < K < 2 ^ 53 ->
  1 <= Zdigits2 K <= 53 /\
  0 < K * 2 ^ (53 - Zdigits2 K) /\
  Zdigits2 (K * 2 ^ (53 - Zdigits2 K)) = 53.
Proof.
  intros [HK0 HK]. destruct (Zdigits2_bounds K HK0) as (Hd & Hlo & Hhi).
  pose proof (Zdigits2_le K 53 HK0 HK).
  assert (0 < 2 ^ (53 - Zdigits2 K)) by (apply Z.pow_pos_nonneg; lia).
  split; [lia|]. split; [nia|].
  rewrite Zdigits2_scale by lia. lia.
Qed.

(** The integer [K], written with [t] extra zero bits and exponent [-t],
    normalises to its canonical form. *)
Lemma binary_normalize_scaled (K t : Z) :
  0 < K < 2 ^ 53 -> 0 <= t <= 64 ->
  binary_normalize prec emax (K * 2 ^ t) (- t) false = canon K.
Proof.
  intros HK Ht. destruct (canon_mantissa K HK) as (HD & Hpos & Hd53).
  set (D := Zdigits2 K) in *.
  assert (0 < 2 ^ t) by (apply Z.pow_pos_nonneg; lia).
  assert (0 < K * 2 ^ t) as HM by nia.
  assert (Zdigits2 (K * 2 ^ t) = D + t) as HdM
    by (apply Zdigits2_scale; lia).
  destruct (K * 2 ^ t) as [|pM|pM] eqn:EM; try lia.
  destruct (K * 2 ^ (53 - D)) as [|pC|pC] eqn:EC; try lia.
  unfold canon. fold D. rewrite EC. cbn [Z.to_pos].
  cbn [Zdigits2] in HdM, Hd53.
  unfold binary_normalize, binary_round. rewrite HdM.
  replace (fexp prec emax (D + t + - t)) with (D - 53)
    by (unfold fexp, SpecFloat.emin, prec, emax; lia).
  unfold shl_align.
  destruct (D - 53 - - t) as [|pn|pn] eqn:En.
  - (* no shift *)
    assert (pM = pC) as -> by (apply Pos2Z.inj; rewrite <- EM, <- EC; f_equal; f_equal; lia).
    rewrite binary_round_aux_canonical by lia. f_equal. lia.
  - (* right shift by pn *)
    assert (Zpos pM = Zpos pC * 2 ^ Zpos pn) as ->.
    { rewrite <- EM, <- EC, <- Z.mul_assoc, <- Z.pow_add_r by lia.
      f_equal. f_equal. lia. }
    rewrite binary_round_aux_exact by lia. f_equal. lia.
  - (* left shift by pn *)
    assert (Pos.iter xO pM pn = pC) as ->.
    { apply Pos2Z.inj. rewrite iter_xO_spec, <- EM, <- EC.
      rewrite <- Z.mul_assoc, <- Z.pow_add_r by lia. f_equal. f_equal. lia. }
    rewrite binary_round_aux_canonical by lia. done.
Qed.

Lemma SFint_canon (k : Z) : 0 < k < 2 ^ 53 -> SFint k = canon k.
Proof.
  intros Hk. unfold SFint.
  pose proof (binary_normalize_scaled k 0 Hk ltac:(lia)) as H.
  cbn in H. by rewrite Z.mul_1_r in H.
Qed.

Lemma shl_align_value (mx : positive) (ex ez : Z) :
  ez <= ex -> Zpos (shl_align mx ex ez).1 = Zpos mx * 2 ^ (ex - ez).
Proof.
  intros Hle. unfold shl_align.
  destruct (ez - ex) as [|d|d] eqn:E; cbn [fst]; try lia.
  - replace (ex - ez) with 0 by lia. lia.
  - rewrite iter_xO_spec. f_equal. f_equal. lia.
Qed.

(** Adding two non-negative integers below 2^53 is exact. *)
Lemma SFadd_int (a b : Z) :
  0 <= a -> 0 <= b -> a + b < 2 ^ 53 ->
  SF64add (SFint a) (SFint b) = SFint (a + b).
Proof.
  intros Ha Hb Hab.
  destruct (Z.eq_dec a 0) as [->|Ha0].
  { rewrite Z.add_0_l. unfold SF64add, SFadd.
    change (SFint 0) with (S754_zero false).
    destruct (Z.eq_dec b 0) as [->|Hb0]; [done|].
    rewrite SFint_canon by lia. done. }
  destruct (Z.eq_dec b 0) as [->|Hb0].
  { rewrite Z.add_0_r. change (SFint 0) with (S754_zero false).
    rewrite SFint_canon by lia. done. }
  rewrite !SFint_canon by lia.
  destruct (canon_mantissa a ltac:(lia)) as (Hda & Hpa & _).
  destruct (canon_mantissa b ltac:(lia)) as (Hdb & Hpb & _).
  unfold canon at 1 2. set (da := Zdigits2 a) in *. set (db := Zdigits2 b) in *.
  destruct (a * 2 ^ (53 - da)) as [|pa|pa] eqn:Ea; try lia.
  destruct (b * 2 ^ (53 - db)) as [|pb|pb] eqn:Eb; try lia.
  cbn [Z.to_pos]. unfold SF64add, SFadd. cbn [cond_Zopp].
  rewrite !shl_align_value by lia.
  rewrite <- Ea, <- Eb.
  set (ez := Z.min (da - 53) (db - 53)).
  replace (a * 2 ^ (53 - da) * 2 ^ (da - 53 - ez)
           + b * 2 ^ (53 - db) * 2 ^ (db - 53 - ez))
    with ((a + b) * 2 ^ (- ez)).
  2:{ rewrite <- !Z.mul_assoc, <- !Z.pow_add_r by lia.
      replace (53 - da + (da - 53 - ez)) with (- ez) by lia.
      replace (53 - db + (db - 53 - ez)) with (- ez) by lia. lia. }
  rewrite <- (Z.opp_involutive ez) at 2.
  apply binary_normalize_scaled; lia.
Qed.

Lemma shr_1_m (m : Z) (r s : bool) :
  0 <= m -> shr_m (shr_1 {| shr_m := m; shr_r := r; shr_s := s |}) = m / 2.
Proof.
  intros Hm. destruct m as [|[p|p|]|]; cbn [shr_1 shr_m]; try lia.
  - reflexivity.
  - apply (Z.div_unique _ _ _ 1); lia.
  - apply (Z.div_unique _ _ _ 0); lia.
  - reflexivity.
Qed.

Lemma shr_record_of_loc_m (m : Z) (l : location) :
  exists r s, shr_record_of_loc m l = {| shr_m := m; shr_r := r; shr_s := s |}.
Proof. destruct l as [|[]]; cbn; eauto. Qed.

(** First stage of rounding a quotient of 53 or 54 bits. *)
Lemma shr_fexp_quotient (q e : Z) (l : location) :
  2 ^ 52 <= q < 2 ^ 54 -> -1000 <= e <= 900 ->
  exists mrs e1,
    shr_fexp prec emax q e l = (mrs, e1) /\
    2 ^ 52 <= shr_m mrs < 2 ^ 53 /\
    (e1 = e /\ shr_m mrs = q \/ e1 = e + 1 /\ shr_m mrs = q / 2).
Proof.
  intros Hq He. unfold shr_fexp.
  destruct (shr_record_of_loc_m q l) as (r & s & ->).
  destruct (Z.lt_ge_cases q (2 ^ 53)) as [Hlt|Hge].
  - assert (Zdigits2 q = 53) as -> by (apply Zdigits2_unique; lia).
    replace (fexp prec emax (53 + e) - e) with 0
      by (unfold fexp, SpecFloat.emin, prec, emax; lia).
    cbn [shr]. eexists _, _. split; [done|]. cbn [shr_m]. split; [lia|]. by left.
  - assert (Zdigits2 q = 54) as -> by (apply Zdigits2_unique; lia).
    replace (fexp prec emax (54 + e) - e) with 1
      by (unfold fexp, SpecFloat.emin, prec, emax; lia).
    cbn [shr SpecFloat.iter_pos]. eexists _, _. split; [done|].
    rewrite shr_1_m by lia.
    assert (2 ^ 52 <= q / 2 < 2 ^ 53).
    { split; [apply Z.div_le_lower_bound; lia|apply Z.div_lt_upper_bound; lia]. }
    split; [done|]. by right.
Qed.

Lemma round_nearest_even_cases (m : Z) (l : location) :
  round_nearest_even m l = m \/ round_nearest_even m l = m + 1.
Proof. destruct l as [|[]]; cbn; auto. destruct (Z.even m); auto. Qed.

(** Second stage: a mantissa of 53 bits, or 2^53 after rounding up. *)
Lemma binary_round_tail (M e1 : Z) :
  2 ^ 52 <= M <= 2 ^ 53 -> -1000 <= e1 <= 900 ->
  exists m2 e2,
    (let '(mrs, e'') := shr_fexp prec emax M e1 loc_Exact in
     match shr_m mrs with
     | 0 => S754_zero false
     | Zpos m => if e'' <=? emax - prec then S754_finite false m e''
                 else S754_infinity false
     | Zneg _ => S754_nan
     end) = S754_finite false m2 e2 /\
    e1 <= e2 <= e1 + 1 /\ Zpos m2 * 2 ^ (e2 - e1) = M.
Proof.
  intros HM He. unfold shr_fexp. cbn [shr_record_of_loc].
  destruct (Z.eq_dec M (2 ^ 53)) as [->|Hne].
  - assert (Zdigits2 (2 ^ 53) = 54) as -> by (apply Zdigits2_unique; lia).
    replace (fexp prec emax (54 + e1) - e1) with 1
      by (unfold fexp, SpecFloat.emin, prec, emax; lia).
    cbn [shr SpecFloat.iter_pos]. 
    change (2 ^ 53) with (2 * 2 ^ 52) at 1. rewrite shr_1_exact by lia.
    cbn [shr_m]. change (2 ^ 52) with (Zpos (Z.to_pos (2 ^ 52))).
    replace (e1 + 1 <=? emax - prec) with true
      by (symmetry; apply Z.leb_le; unfold prec, emax; lia).
    eexists _, _. split; [done|]. split; [lia|].
    replace (e1 + 1 - e1) with 1 by lia. done.
  - assert (Zdigits2 M = 53) as -> by (apply Zdigits2_unique; lia).
    replace (fexp prec emax (53 + e1) - e1) with 0
      by (unfold fexp, SpecFloat.emin, prec, emax; lia).
    cbn [shr shr_m]. destruct M as [|pM|pM]; try lia.
    replace (e1 <=? emax - prec) with true
      by (symmetry; apply Z.leb_le; unfold prec, emax; lia).
    eexists _, _. split; [done|]. split; [lia|].
    rewrite Z.sub_diag. lia.
Qed.

(** Truncating the rounded quotient on a grid at least twice as fine as
    [1/n] gives the integer quotient. *)
Lemma grid_quotient (S n G : Z) (j : Z) :
  0 <= S -> 0 < n -> 2 * n <= G -> 0 <= j <= 1 ->
  (S * G / n + j) / G = S / n.
Proof.
  intros HS Hn HG Hj.
  pose proof (Z.div_mod S n ltac:(lia)) as HSn.
  pose proof (Z.mod_pos_bound S n Hn) as HR.
  set (Q := S / n) in *. set (R := S mod n) in *.
  pose proof (Z.div_mod (S * G) n ltac:(lia)) as HL.
  pose proof (Z.mod_pos_bound (S * G) n Hn) as HLr.
  set (L := S * G / n) in *. set (r := (S * G) mod n) in *.
  assert (Q * G <= L) as Hlo.
  { apply Z.div_le_lower_bound; [lia|]. nia. }
  assert (L <= Q * G + G - 2) as Hhi.
  { assert (n * L <= n * (Q * G + G - 2)); [nia|].
    apply Z.mul_le_mono_pos_l with n; lia. }
  symmetry. apply (Z.div_unique _ _ _ (L + j - Q * G)); lia.
Qed.

Lemma SFtrunc_finite (m : positive) (e : Z) :
  e < 0 -> SFtrunc (S754_finite false m e) = Some (Zpos m / 2 ^ (- e)).
Proof. intros He. destruct e as [|p|p]; try lia. done. Qed.

(** The quotient of two canonical mantissas, as computed by [SFdiv]. *)
Lemma SFdiv_int_trunc (S n : Z) :
  0 <= S -> 1 <= n <= 2 ^ 44 -> S <= 255 * n ->
  SFtrunc (SF64div (SFint S) (SFint n)) = Some (S / n).
Proof.
  intros HS Hn HSn.
  assert (n < 2 ^ 53) by lia. assert (S < 2 ^ 52) by lia.
  rewrite (SFint_canon n) by lia.
  destruct (canon_mantissa n ltac:(lia)) as (Hdn & Hpn & Hdn53).
  assert (Zdigits2 n <= 45) by (apply Zdigits2_le; lia).
  unfold canon at 1. set (dn := Zdigits2 n) in *.
  destruct (n * 2 ^ (53 - dn)) as [|my|my] eqn:Emy; try lia.
  cbn [Z.to_pos].
  destruct (Z.eq_dec S 0) as [->|HS0].
  { change (SFint 0) with (S754_zero false). cbn. by rewrite Z.div_0_l by lia. }
  rewrite (SFint_canon S) by lia.
  destruct (canon_mantissa S ltac:(lia)) as (HdS & HpS & HdS53).
  assert (Zdigits2 S <= 52) by (apply Zdigits2_le; lia).
  unfold canon. set (dS := Zdigits2 S) in *.
  destruct (S * 2 ^ (53 - dS)) as [|mx|mx] eqn:Emx; try lia.
  cbn [Z.to_pos]. unfold SF64div, SFdiv, SFdiv_core_binary.
  cbn [Zdigits2] in *. rewrite HdS53, Hdn53. cbn [xorb].
  replace (Z.min (fexp prec emax (53 + (dS - 53) - (53 + (dn - 53))))
             (dS - 53 - (dn - 53))) with (dS - dn - 53)
    by (unfold fexp, SpecFloat.emin, prec, emax; lia).
  replace (dS - 53 - (dn - 53) - (dS - dn - 53)) with 53 by lia.
  rewrite Z.shiftl_mul_pow2 by lia.
  destruct (Z.div_eucl (Zpos mx * 2 ^ 53) (Zpos my)) as [q r] eqn:Ediv.
  assert (q = Zpos mx * 2 ^ 53 / Zpos my) as Hq
    by (unfold Z.div; by rewrite Ediv).
  pose proof (Zdigits2_bounds (Zpos mx) ltac:(lia)) as (_ & Hmx).
  pose proof (Zdigits2_bounds (Zpos my) ltac:(lia)) as (_ & Hmy).
  cbn [Zdigits2] in Hmx, Hmy. rewrite HdS53 in Hmx. rewrite Hdn53 in Hmy.
  change (53 - 1) with 52 in *.
  assert (2 ^ 52 <= q < 2 ^ 54) as Hqb.
  { rewrite Hq. split.
    - apply Z.div_le_lower_bound; [lia|]. nia.
    - apply Z.div_lt_upper_bound; [lia|]. nia. }
  (* the quotient in terms of S and n *)
  set (g := 53 - dS + dn).
  assert (q = S * 2 ^ g / n) as HqS.
  { rewrite Hq, <- Emx, <- Emy.
    replace (S * 2 ^ (53 - dS) * 2 ^ 53) with (S * 2 ^ g * 2 ^ (53 - dn)).
    2:{ rewrite <- !Z.mul_assoc, <- !Z.pow_add_r by lia.
        f_equal. f_equal. lia. }
    apply Z.div_mul_cancel_r; [lia|].
    apply Z.pow_nonzero; lia. }
  unfold binary_round_aux.
  destruct (shr_fexp_quotient q (dS - dn - 53) (new_location (Zpos my) r)
              Hqb ltac:(lia)) as (mrs & e1 & -> & HL & Hcase).
  set (L := shr_m mrs) in *.
  destruct (round_nearest_even_cases L (loc_of_shr_record mrs)) as [HM|HM];
    rewrite HM.
  all: destruct (binary_round_tail (L + (round_nearest_even L (loc_of_shr_record mrs) - L)) e1 ltac:(lia) ltac:(lia))
         as (m2 & e2 & Htail & He2 & Hm2).
  all: rewrite HM in Htail, Hm2.
  all: try replace (L + (L - L)) with L in * by lia.
  all: try replace (L + (L + 1 - L)) with (L + 1) in * by lia.
  all: rewrite Htail.
  (* the grid *)
  all: assert (exists G, 0 <= - e1 /\ G = 2 ^ (- e1) /\ L = S * G / n)
         as (G & He1 & HG & HLG).
  1,3: (exists (2 ^ (- e1)); destruct Hcase as [[-> HLq]|[-> HLq]];
        (split; [lia|]); (split; [done|]); rewrite HLq, HqS).
  1,3: (f_equal; f_equal; f_equal; lia).
  1,2: (replace g with (Z.succ (- (dS - dn - 53 + 1))) by lia;
        rewrite Z.pow_succ_r by lia;
        rewrite Z.div_div by lia;
        replace (S * (2 * 2 ^ (- (dS - dn - 53 + 1))))
          with (S * 2 ^ (- (dS - dn - 53 + 1)) * 2) by lia;
        apply Z.div_mul_cancel_r; lia).
  all: assert (45 <= - e1) as He45.
  1,3: (destruct (Z.le_gt_cases 45 (- e1)) as [|Hsmall]; [done|];
        assert (2 ^ (- e1) <= 2 ^ 44) by (apply Z.pow_le_mono_r; lia);
        assert (0 < G) by (rewrite HG; apply Z.pow_pos_nonneg; lia);
        assert (L <= 255 * G)
          by (rewrite HLG; apply Z.div_le_upper_bound; [lia|nia]);
        lia).
  all: assert (2 * n <= G) as HGn
         by (rewrite HG; assert (2 ^ 45 <= 2 ^ (- e1))
               by (apply Z.pow_le_mono_r; lia); lia).
  all: rewrite SFtrunc_finite by lia; f_equal.
  all: assert (Zpos m2 / 2 ^ (- e2) = (Zpos m2 * 2 ^ (e2 - e1)) / G) as ->.
  1,3: (rewrite HG; replace (- e1) with (- e2 + (e2 - e1)) by lia;
        rewrite Z.pow_add_r by lia;
        symmetry; apply Z.div_mul_cancel_r; apply Z.pow_nonzero; lia).
  all: rewrite Hm2, HLG.
  - rewrite <- (Z.add_0_r (S * G / n)). apply grid_quotient; lia.
  - apply grid_quotient; lia.
Qed.

(** ** Floats that hold integers *)

Lemma trunc_float_SFtrunc (f : float) : trunc_float f = SFtrunc (Prim2SF f).
Proof. reflexivity. Qed.

Lemma holds_zero : holds 0%float 0.
Proof. reflexivity. Qed.

Lemma holds_of_uint63 (k : Z) :
  0 <= k < 2 ^ 63 -> holds (PrimFloat.of_uint63 (Uint63.of_Z k)) k.
Proof.
  intros Hk. unfold holds. rewrite of_uint63_spec, Uint63.of_Z_spec.
  rewrite Z.mod_small; [done|]. change wB with (2 ^ 63). lia.
Qed.

Lemma holds_of_uint8 (c : Z) : is_uint8 c -> holds (float64_of_uint8 c) c.
Proof. intros Hc. apply holds_of_uint63. unfold is_uint8 in Hc. lia. Qed.

Lemma holds_of_int (n : Z) :
  0 <= n < 2 ^ 63 -> holds (float64_of_int n) n.
Proof.
  intros Hn. unfold float64_of_int.
  destruct (Z.ltb_spec n 0); [lia|]. by apply holds_of_uint63.
Qed.

Lemma holds_add (f g : float) (a b : Z) :
  holds f a -> holds g b -> 0 <= a -> 0 <= b -> a + b < 2 ^ 53 ->
  holds (f + g) (a + b).
Proof.
  unfold holds. intros Hf Hg Ha Hb Hab.
  rewrite FloatAxioms.add_spec, Hf, Hg. by apply SFadd_int.
Qed.

Lemma uint8_of_quotient (f g : float) (S n : Z) :
  holds f S -> holds g n -> 0 <= S -> 1 <= n <= 2 ^ 44 -> S <= 255 * n ->
  uint8_of_float64 (f / g) = S / n.
Proof.
  unfold holds. intros Hf Hg HS Hn HSn.
  unfold uint8_of_float64. rewrite trunc_float_SFtrunc, FloatAxioms.div_spec, Hf, Hg.
  rewrite SFdiv_int_trunc by done.
  apply Z.mod_small. split.
  - apply Z.div_pos; lia.
  - apply Z.div_lt_upper_bound; lia.
Qed.

(** ** Wrap-around of the loop arithmetic *)

Lemma wrap_int_small (z : Z) : min_int <= z <= max_int -> wrap_int z = z.
Proof.
  unfold min_int, max_int, wrap_int. intros Hz.
  rewrite Z.mod_small; lia.
Qed.

Lemma wrap_int_over (z : Z) :
  max_int < z < 2 ^ 64 -> wrap_int z = z - 2 ^ 64.
Proof.
  unfold max_int, wrap_int. intros Hz.
  replace (z + 2 ^ 63) with (z - 2 ^ 63 + 1 * 2 ^ 64) by lia.
  rewrite Z.mod_add by lia. rewrite Z.mod_small; lia.
Qed.

(** A coordinate plus an offset: the wrapped sum passes the bounds test
    exactly when the exact total does. *)
Lemma offset_in_range (x d n : Z) :
  0 <= x < 2 ^ 62 -> - 2 ^ 63 < d < 2 ^ 63 -> n <= 2 ^ 62 ->
  (0 <=? int_add x d) && (int_add x d <? n) = bool_decide (0 <= x + d < n)
  /\ (0 <= x + d < n -> int_add x d = x + d).
Proof.
  intros Hx Hd Hn. unfold int_add.
  destruct (Z.le_gt_cases (x + d) max_int) as [Hle|Hgt].
  - rewrite wrap_int_small by (unfold min_int, max_int in *; lia).
    split; [|done].
    destruct (Z.leb_spec 0 (x + d)), (Z.ltb_spec (x + d) n);
      simpl; symmetry; (apply bool_decide_eq_true_2 || apply bool_decide_eq_false_2); lia.
  - rewrite wrap_int_over by (unfold max_int in *; lia).
    unfold max_int in Hgt. split; [|lia].
    destruct (Z.leb_spec 0 (x + d - 2 ^ 64)); [lia|]. simpl.
    symmetry. apply bool_decide_eq_false_2. lia.
Qed.

(** What every round of a counting loop establishes for the next one, the
    whole loop establishes; and the loop does not panic. *)
Lemma iterate_rounds {S : Type} (body : Z -> S -> option S) (n : nat) :
  forall (Q : nat -> S -> Prop) (i : Z) (s : S),
  Q O s ->
  (forall (j : nat) (s : S), (j < n)%nat -> Q j s ->
     exists s', body (i + Z.of_nat j) s = Some s' /\ Q (Datatypes.S j) s') ->
  exists s', iterate n i 1 body s = Some s' /\ Q n s'.
Proof.
  induction n as [|n IH]; intros Q i s H0 Hstep; simpl.
  - by exists s.
  - destruct (Hstep O s ltac:(lia) H0) as (s1 & Hb & H1).
    rewrite Z.add_0_r in Hb. rewrite Hb. simpl.
    apply (IH (fun j => Q (Datatypes.S j)) (i + 1) s1 H1).
    intros j s2 Hj Hq. destruct (Hstep (Datatypes.S j) s2 ltac:(lia) Hq)
      as (s3 & Hb3 & H3).
    exists s3. split; [|done]. rewrite <- Hb3. f_equal. lia.
Qed.

Lemma for_le_rounds {S : Type} (body : Z -> S -> option S) (lo hi : Z)
    (Q : nat -> S -> Prop) (s : S) :
  lo <= hi + 1 ->
  Q O s ->
  (forall (j : nat) (s : S), lo + Z.of_nat j <= hi -> Q j s ->
     exists s', body (lo + Z.of_nat j) s = Some s' /\ Q (Datatypes.S j) s') ->
  exists s', for_le lo hi body s = Some s' /\ Q (Z.to_nat (hi + 1 - lo)) s'.
Proof.
  intros Hlo H0 Hstep. unfold for_le, for_lt.
  replace ((hi + 1 - lo + 1 - 1) / 1) with (hi + 1 - lo)
    by (rewrite Z.div_1_r; lia).
  apply iterate_rounds; [done|].
  intros j s1 Hj. apply Hstep. lia.
Qed.

(** ** The box blur on a whole image *)

Lemma total_app (l k : list Z) : total (l ++ k) = total l + total k.
Proof. unfold total. induction l as [|a l IH]; simpl; lia. Qed.

Lemma total_bounds (lo hi : Z) (l : list Z) :
  Forall (fun v => lo <= v <= hi) l -> lo * len l <= total l <= hi * len l.
Proof.
  unfold len. induction 1 as [|v l Hv _ IH]; simpl; [lia|].
  change (foldr Z.add 0 l) with (total l). lia.
Qed.

Lemma mean_bounds (lo hi : Z) (l : list Z) :
  l <> [] -> Forall (fun v => lo <= v <= hi) l -> lo <= mean l <= hi.
Proof.
  intros Hne Hl. pose proof (total_bounds lo hi l Hl) as Hs.
  assert (0 < len l) by (unfold len; destruct l; [done|simpl; lia]).
  unfold mean. split.
  - apply Z.div_le_lower_bound; lia.
  - apply Z.div_le_upper_bound; lia.
Qed.

Lemma minimum_maximum (l : list Z) :
  Forall (fun v => minimum l <= v <= maximum l) l.
Proof.
  unfold minimum, maximum. generalize (default 0 (head l)). intros d.
  induction l as [|a l IH]; [constructor|]. simpl. constructor; [lia|].
  eapply Forall_impl; [exact IH|]. simpl. lia.
Qed.

Lemma elem_of_grid (x y : Z) (dys dxs : list Z) (p : Z * Z) :
  p ∈ grid x y dys dxs <->
  exists dy dx, dy ∈ dys /\ dx ∈ dxs /\ p = (x + dx, y + dy).
Proof.
  unfold grid. rewrite list_elem_of_bind. split.
  - intros (dy & Hp & Hdy). apply list_elem_of_bind in Hp as (dx & Hp & Hdx).
    apply list_elem_of_singleton in Hp. by exists dy, dx.
  - intros (dy & dx & Hdy & Hdx & ->). exists dy. split; [|done].
    apply list_elem_of_bind. exists dx. split; [|done].
    by apply list_elem_of_singleton.
Qed.

Lemma grid_snoc_row (x y : Z) (dys dxs : list Z) (dy : Z) :
  grid x y (dys ++ [dy]) dxs = grid x y dys dxs ++ grid x y [dy] dxs.
Proof. unfold grid. by rewrite bind_app. Qed.

Lemma grid_snoc (x y dy dx : Z) (dxs : list Z) :
  grid x y [dy] (dxs ++ [dx]) = grid x y [dy] dxs ++ [(x + dx, y + dy)].
Proof. unfold grid. by rewrite !bind_singleton, bind_app, bind_singleton. Qed.

Lemma grid_NoDup (x y : Z) (dys dxs : list Z) :
  NoDup dys -> NoDup dxs -> NoDup (grid x y dys dxs).
Proof.
  intros Hdys Hdxs. unfold grid. apply NoDup_bind; [| |done].
  - intros dy1 dy2 p _ _ (dx1 & H1 & _)%list_elem_of_bind
      (dx2 & H2 & _)%list_elem_of_bind.
    apply list_elem_of_singleton in H1, H2. simplify_eq. lia.
  - intros dy _. apply NoDup_bind; [| |done].
    + intros dx1 dx2 p _ _ H1%list_elem_of_singleton
        H2%list_elem_of_singleton. simplify_eq. lia.
    + intros dx _. apply NoDup_singleton.
Qed.

(** The positions visited so far are distinct: the finished rows and the
    started one. *)
Lemma grid_prefix_NoDup (x y dy : Z) (dys dxs dxs' : list Z) :
  NoDup dys -> NoDup dxs -> NoDup dxs' -> dy ∉ dys ->
  NoDup (grid x y dys dxs ++ grid x y [dy] dxs').
Proof.
  intros Hdys Hdxs Hdxs' Hdy. apply NoDup_app. split_and!.
  - by apply grid_NoDup.
  - intros p (dy1 & dx1 & H1 & _ & ->)%elem_of_grid
      (dy2 & dx2 & H2%list_elem_of_singleton & _ & Heq)%elem_of_grid.
    simplify_eq. assert (dy1 = dy) by lia. by subst.
  - apply grid_NoDup; [apply NoDup_singleton|done].
Qed.

Section box_blur.
Context (src : list Z) (width height : Z).
Hypothesis Hsrc : is_bytes src.
Hypothesis Hwidth : 1 <= width.
Hypothesis Hheight : 1 <= height.
Hypothesis Hlen : len src = width * height * 4.

Lemma position_index (p : Z * Z) (c : Z) :
  in_bounds width height p -> 0 <= c < 4 ->
  0 <= (p.2 * width + p.1) * 4 + c < len src.
Proof using Hlen Hwidth Hheight.
  destruct p as [nx ny]. unfold in_bounds. simpl. intros [Hx Hy] Hc.
  rewrite Hlen. nia.
Qed.

Lemma channel_at_uint8 (c : Z) (p : Z * Z) :
  is_uint8 (channel_at src width c p).
Proof using Hsrc.
  unfold channel_at.
  destruct (src !! _) as [v|] eqn:Hv; simpl; [|unfold is_uint8; lia].
  eapply Forall_lookup_1; [exact Hsrc|exact Hv].
Qed.

Lemma load_channel (p : Z * Z) (c : Z) :
  in_bounds width height p -> 0 <= c < 4 ->
  load src ((p.2 * width + p.1) * 4 + c) = Some (channel_at src width c p).
Proof using Hlen Hwidth Hheight.
  intros Hp Hc. pose proof (position_index p c Hp Hc) as Hi.
  unfold load, channel_at. rewrite decide_True by lia.
  destruct (lookup_lt_is_Some_2 src (Z.to_nat ((p.2 * width + p.1) * 4 + c)))
    as [v ->]; [unfold len in Hi; lia|done].
Qed.

Lemma channel_total_bounds (c : Z) (ps : list (Z * Z)) :
  0 <= total (channel_at src width c <$> ps) <= 255 * len ps.
Proof using Hsrc.
  pose proof (total_bounds 0 255 (channel_at src width c <$> ps)) as H.
  unfold len in *. rewrite length_fmap in H. 
  assert (Forall (fun v => 0 <= v <= 255) (channel_at src width c <$> ps)) as HF.
  { apply Forall_fmap, Forall_forall. intros p _. simpl.
    pose proof (channel_at_uint8 c p) as Hu. unfold is_uint8 in Hu. lia. }
  specialize (H HF). lia.
Qed.

(** Distinct in-bounds positions are no more than the image has pixels. *)
Lemma in_bounds_count (ps : list (Z * Z)) :
  NoDup ps -> len (filter (in_bounds width height) ps) <= width * height.
Proof using Hwidth Hheight.
  intros Hnd.
  set (ix := fun p : Z * Z => p.2 * width + p.1).
  assert (NoDup (ix <$> filter (in_bounds width height) ps)) as Hix.
  { apply NoDup_fmap_2_strong; [|by apply NoDup_filter].
    intros [x1 y1] [x2 y2] [[H1 H1'] _]%list_elem_of_filter
      [[H2 H2'] _]%list_elem_of_filter. unfold ix. simpl in *. intros Heq.
    assert (y1 = y2) by nia. subst. f_equal. lia. }
  assert (ix <$> filter (in_bounds width height) ps
            ⊆+ seqZ 0 (width * height)) as Hsub.
  { apply NoDup_submseteq; [done|]. intros i Hi.
    apply list_elem_of_fmap in Hi as ([x1 y1] & -> & [[H1 H1'] _]%list_elem_of_filter).
    apply elem_of_seqZ. unfold ix. simpl in *. nia. }
  apply submseteq_length in Hsub.
  rewrite length_fmap, length_seqZ in Hsub. unfold len. lia.
Qed.

Hypothesis Hsize : width * height <= 2 ^ 44.

(** One candidate sample: an in-bounds position is added to the four sums
    and counted, any other is skipped. *)
Lemma blur_sample_step (x y dy dx : Z) (acc : blur_acc) (ps : list (Z * Z)) :
  0 <= x < width -> 0 <= y < height ->
  - 2 ^ 63 < dx < 2 ^ 63 -> - 2 ^ 63 < dy < 2 ^ 63 ->
  acc_holds src width acc (filter (in_bounds width height) ps) ->
  len (filter (in_bounds width height) (ps ++ [(x + dx, y + dy)])) <= 2 ^ 44 ->
  exists acc',
    blur_sample src width height x y dy dx acc = Some acc' /\
    acc_holds src width acc'
      (filter (in_bounds width height) (ps ++ [(x + dx, y + dy)])).
Proof using Hsrc Hwidth Hheight Hlen Hsize.
  intros Hx Hy Hdx Hdy Hacc Hcount.
  assert (width <= 2 ^ 44 /\ height <= 2 ^ 44) as [Hw44 Hh44] by nia.
  destruct (offset_in_range x dx width) as [Hgx Hnx]; [lia..|].
  destruct (offset_in_range y dy height) as [Hgy Hny]; [lia..|].
  unfold blur_sample. cbv zeta.
  rewrite <- andb_assoc, Hgx, Hgy.
  rewrite filter_app in Hcount |- *.
  destruct (decide (in_bounds width height (x + dx, y + dy))) as [Hin|Hout].
  - pose proof Hin as [Hinx Hiny]. simpl in Hinx, Hiny.
    rewrite list.filter_singleton_True in Hcount |- * by done.
    rewrite !bool_decide_eq_true_2 by done. cbn [andb].
    rewrite (Hnx Hinx), (Hny Hiny).
    pose proof (position_index (x + dx, y + dy) 0 Hin ltac:(lia)) as Hidx.
    simpl in Hidx.
    assert (len src <= 2 ^ 46) as Hlen46 by lia.
    unfold int_mul, int_add.
    assert (0 <= (y + dy) * width <= width * height) by nia.
    rewrite (wrap_int_small ((y + dy) * width))
      by (unfold min_int, max_int; lia).
    rewrite (wrap_int_small ((y + dy) * width + (x + dx)))
      by (unfold min_int, max_int; lia).
    rewrite (wrap_int_small (((y + dy) * width + (x + dx)) * 4))
      by (unfold min_int, max_int; lia).
    set (p := (x + dx, y + dy)) in *.
    destruct Hacc as (Hr & Hg & Hb & Ha & Hn).
    unfold len in Hcount. rewrite length_app in Hcount. simpl in Hcount.
    set (qs := filter (in_bounds width height) ps) in *.
    assert (0 <= acc_count acc < 2 ^ 44) by (rewrite Hn; unfold len; lia).
    rewrite !wrap_int_small by (unfold min_int, max_int; lia).
    pose proof (load_channel p 0 Hin ltac:(lia)) as Hl0.
    pose proof (load_channel p 1 Hin ltac:(lia)) as Hl1.
    pose proof (load_channel p 2 Hin ltac:(lia)) as Hl2.
    pose proof (load_channel p 3 Hin ltac:(lia)) as Hl3.
    rewrite Z.add_0_r in Hl0. simpl in Hl0, Hl1, Hl2, Hl3.
    rewrite Hl0. simpl. rewrite Hl1. simpl. rewrite Hl2. simpl.
    rewrite Hl3. simpl.
    eexists. split; [done|].
    pose proof (fun c => channel_total_bounds c qs) as Hsum.
    pose proof (fun c => channel_at_uint8 c p) as Hbyte.
    unfold is_uint8, len in *.
    unfold acc_holds. simpl. rewrite !fmap_app, !total_app. simpl.
    rewrite !Z.add_0_r.
    split; [|split; [|split; [|split]]].
    5:{ rewrite Hn. unfold len. rewrite length_app. simpl. lia. }
    + specialize (Hsum 0). specialize (Hbyte 0).
      apply holds_add; [done | by apply holds_of_uint8 | lia..].
    + specialize (Hsum 1). specialize (Hbyte 1).
      apply holds_add; [done | by apply holds_of_uint8 | lia..].
    + specialize (Hsum 2). specialize (Hbyte 2).
      apply holds_add; [done | by apply holds_of_uint8 | lia..].
    + specialize (Hsum 3). specialize (Hbyte 3).
      apply holds_add; [done | by apply holds_of_uint8 | lia..].
  - assert (bool_decide (0 <= x + dx < width)
            && bool_decide (0 <= y + dy < height) = false) as ->.
    { apply andb_false_iff. unfold in_bounds in Hout. simpl in Hout.
      destruct (decide (0 <= x + dx < width));
        [right|left]; apply bool_decide_eq_false_2; tauto. }
    exists acc. split; [done|].
    rewrite list.filter_singleton_False by done. by rewrite app_nil_r.
Qed.

Lemma acc_holds_nil : acc_holds src width blur_acc0 [].
Proof. by repeat split. Qed.

(** The two sampling loops: the accumulators end up holding the sums and
    the number of the in-bounds positions of the window. *)
Lemma blur_window_sums (r x y : Z) :
  1 <= r < max_int -> 0 <= x < width -> 0 <= y < height ->
  exists acc,
    blur_window src width height r x y = Some acc /\
    acc_holds src width acc (filter (in_bounds width height) (window r x y)).
Proof using Hsrc Hwidth Hheight Hlen Hsize.
  intros Hr Hx Hy. unfold max_int in Hr. unfold blur_window, int_neg.
  rewrite wrap_int_small by (unfold min_int, max_int; lia).
  set (full := seqZ (- r) (2 * r + 1)).
  destruct (for_le_rounds
    (fun dy acc => for_le (- r) r (fun dx acc =>
       blur_sample src width height x y dy dx acc) acc) (- r) r
    (fun j acc => acc_holds src width acc
       (filter (in_bounds width height)
          (grid x y (seqZ (- r) (Z.of_nat j)) full))) blur_acc0)
    as (acc & Hrun & Hacc).
  - lia.
  - apply acc_holds_nil.
  - intros j acc Hj Hacc.
    destruct (for_le_rounds
      (fun dx acc => blur_sample src width height x y (- r + Z.of_nat j) dx acc)
      (- r) r
      (fun i acc => acc_holds src width acc
         (filter (in_bounds width height)
            (grid x y (seqZ (- r) (Z.of_nat j)) full
             ++ grid x y [- r + Z.of_nat j] (seqZ (- r) (Z.of_nat i))))) acc)
      as (acc' & Hrun' & Hacc').
    + lia.
    + unfold grid at 2. simpl. by rewrite app_nil_r.
    + intros i acc1 Hi Hacc1.
      rewrite seqZ_S, grid_snoc, app_assoc.
      apply blur_sample_step; [lia..|done|].
      rewrite <- app_assoc, <- grid_snoc, <- seqZ_S.
      etrans; [apply in_bounds_count|lia].
      apply grid_prefix_NoDup; try apply NoDup_seqZ.
      rewrite elem_of_seqZ. lia.
    + exists acc'. split; [done|].
      rewrite seqZ_S, grid_snoc_row.
      replace (Z.of_nat (Z.to_nat (r + 1 - - r))) with (2 * r + 1)
        in Hacc' by lia.
      exact Hacc'.
  - exists acc. split; [done|].
    replace (Z.of_nat (Z.to_nat (r + 1 - - r))) with (2 * r + 1)
      in Hacc by lia.
    exact Hacc.
Qed.

Lemma window_centre (r x y : Z) :
  0 <= r -> 0 <= x < width -> 0 <= y < height ->
  (x, y) ∈ filter (in_bounds width height) (window r x y).
Proof.
  intros Hr Hx Hy. apply list_elem_of_filter. split; [done|].
  apply elem_of_grid. exists 0, 0. rewrite !elem_of_seqZ.
  split_and!; [lia..|]. f_equal; lia.
Qed.

Lemma window_count (r x y : Z) :
  0 <= r -> 0 <= x < width -> 0 <= y < height ->
  1 <= len (filter (in_bounds width height) (window r x y))
    <= width * height.
Proof using Hwidth Hheight.
  intros Hr Hx Hy. split.
  - pose proof (window_centre r x y Hr Hx Hy) as Hc.
    unfold len. destruct (filter _ _); [by apply not_elem_of_nil in Hc|].
    simpl. lia.
  - apply in_bounds_count, grid_NoDup; apply NoDup_seqZ.
Qed.

Lemma store_insert {A : Type} (s : list A) (i : Z) (v : A) :
  0 <= i < len s -> store s i v = Some (<[Z.to_nat i := v]> s).
Proof. intros Hi. unfold store. by rewrite decide_True. Qed.

(** One output pixel: the four channels are overwritten with the means of
    their samples. *)
Lemma blur_pixel_means (r x y : Z) (dst : list Z) :
  1 <= r < max_int -> 0 <= x < width -> 0 <= y < height ->
  length dst = length src ->
  let i := Z.to_nat ((y * width + x) * 4) in
  let m := fun c => mean (samples src width height r x y c) in
  blur_pixel src width height r y x dst
  = Some (<[(i + 3)%nat := m 3]> (<[(i + 2)%nat := m 2]>
            (<[(i + 1)%nat := m 1]> (<[i := m 0]> dst)))).
Proof using Hsrc Hwidth Hheight Hlen Hsize.
  intros Hr Hx Hy Hdst i m.
  destruct (blur_window_sums r x y Hr Hx Hy) as (acc & Hwin & Hacc).
  pose proof (window_count r x y ltac:(lia) Hx Hy) as Hcount.
  set (ps := filter (in_bounds width height) (window r x y)) in *.
  destruct Hacc as (Hr0 & Hr1 & Hr2 & Hr3 & Hn).
  unfold blur_pixel. rewrite Hwin. simpl.
  destruct (Z.ltb_spec 0 (acc_count acc)) as [_|]; [|lia].
  pose proof (position_index (x, y) 0 ltac:(done) ltac:(lia)) as Hidx.
  simpl in Hidx.
  assert (0 <= y * width <= width * height) by nia.
  unfold int_mul, int_add.
  rewrite (wrap_int_small (y * width)) by (unfold min_int, max_int; lia).
  rewrite (wrap_int_small (y * width + x))
    by (unfold min_int, max_int; lia).
  rewrite (wrap_int_small ((y * width + x) * 4))
    by (unfold min_int, max_int; lia).
  rewrite !wrap_int_small by (unfold min_int, max_int; lia).
  assert (forall c f, holds f (total (channel_at src width c <$> ps)) ->
            uint8_of_float64 (f / float64_of_int (acc_count acc)) = m c)
    as Hmean.
  { intros c f Hf. pose proof (channel_total_bounds c ps) as Hs.
    rewrite (uint8_of_quotient f _ _ (len ps) Hf);
      [| rewrite Hn; apply holds_of_int; lia | lia..].
    unfold m, mean, samples. fold ps. unfold len. by rewrite length_fmap. }
  rewrite (Hmean 0 _ Hr0), (Hmean 1 _ Hr1), (Hmean 2 _ Hr2), (Hmean 3 _ Hr3).
  assert (len dst = len src) as Hld by (unfold len; lia).
  rewrite store_insert by lia. simpl.
  rewrite store_insert by (unfold len; rewrite !length_insert; fold (len dst); lia).
  simpl.
  rewrite store_insert by (unfold len; rewrite !length_insert; fold (len dst); lia).
  simpl.
  rewrite store_insert by (unfold len; rewrite !length_insert; fold (len dst); lia).
  unfold i. do 4 f_equal; try lia.
  all: rewrite ?Z2Nat.inj_add by lia; try reflexivity.
Qed.

Lemma blurred_step (r x y : Z) (dst : list Z) :
  0 <= x < width -> 0 <= y < height ->
  blurred src width height r (y * width + x) dst ->
  let i := Z.to_nat ((y * width + x) * 4) in
  let m := fun c => mean (samples src width height r x y c) in
  blurred src width height r (y * width + x + 1)
    (<[(i + 3)%nat := m 3]> (<[(i + 2)%nat := m 2]>
       (<[(i + 1)%nat := m 1]> (<[i := m 0]> dst)))).
Proof using Hlen Hwidth Hheight.
  intros Hx Hy [Hdst Hdone] i m.
  pose proof (position_index (x, y) 3 ltac:(done) ltac:(lia)) as Hidx.
  simpl in Hidx. unfold len in Hidx.
  assert (0 <= (y * width + x) * 4) by nia.
  assert (i + 3 < length dst)%nat as Hi by (unfold i; lia).
  split; [by rewrite !length_insert|].
  intros q c Hq Hc.
  destruct (decide (q = y * width + x)) as [->|Hne].
  - replace ((y * width + x) mod width) with x
      by (rewrite Z.add_comm, Z.mod_add, Z.mod_small; lia).
    replace ((y * width + x) / width) with y
      by (rewrite Z.add_comm, Z.div_add, Z.div_small; lia).
    assert (c = 0 \/ c = 1 \/ c = 2 \/ c = 3) as [-> | [-> | [-> | ->]]] by lia.
    + replace (Z.to_nat ((y * width + x) * 4 + 0)) with i by (unfold i; lia).
      rewrite !list_lookup_insert_ne by lia.
      by rewrite list_lookup_insert_eq by lia.
    + replace (Z.to_nat ((y * width + x) * 4 + 1)) with (i + 1)%nat
        by (unfold i; lia).
      rewrite !list_lookup_insert_ne by lia.
      by rewrite list_lookup_insert_eq by (rewrite !length_insert; lia).
    + replace (Z.to_nat ((y * width + x) * 4 + 2)) with (i + 2)%nat
        by (unfold i; lia).
      rewrite !list_lookup_insert_ne by lia.
      by rewrite list_lookup_insert_eq by (rewrite !length_insert; lia).
    + replace (Z.to_nat ((y * width + x) * 4 + 3)) with (i + 3)%nat
        by (unfold i; lia).
      by rewrite list_lookup_insert_eq by (rewrite !length_insert; lia).
  - rewrite !list_lookup_insert_ne by (unfold i; lia).
    apply Hdone; lia.
Qed.

(** The [y] and [x] loops blur every pixel, row by row. *)
Lemma blur_loops (r : Z) :
  1 <= r < max_int ->
  exists dst,
    for_lt 0 height 1 (fun y dst =>
      for_lt 0 width 1 (fun x dst =>
        blur_pixel src width height r y x dst) dst) (make (len src))
    = Some dst /\
    blurred src width height r (height * width) dst.
Proof using Hsrc Hwidth Hheight Hlen Hsize.
  intros Hr. rewrite for_lt_unit.
  destruct (iterate_rounds
    (fun y dst => for_lt 0 width 1 (fun x dst =>
       blur_pixel src width height r y x dst) dst) (Z.to_nat height)
    (fun j dst => blurred src width height r (Z.of_nat j * width) dst)
    0 (make (len src))) as (dst & Hrun & Hdst).
  - split; [|intros; lia].
    unfold make, len. rewrite length_replicate. lia.
  - intros j dst Hj Hrow. rewrite for_lt_unit. simpl.
    destruct (iterate_rounds
      (fun x dst => blur_pixel src width height r (Z.of_nat j) x dst)
      (Z.to_nat width)
      (fun i dst =>
         blurred src width height r (Z.of_nat j * width + Z.of_nat i) dst)
      0 dst) as (dst' & Hrun' & Hdst').
    + by rewrite Z.add_0_r.
    + intros i dst1 Hi Hpix. simpl.
      rewrite blur_pixel_means; [|done|lia|lia|apply Hpix].
      eexists. split; [done|].
      replace (Z.of_nat j * width + Z.of_nat (S i))
        with (Z.of_nat j * width + Z.of_nat i + 1) by lia.
      apply blurred_step; [lia|lia|done].
    + exists dst'. split; [done|].
      replace (Z.of_nat (S j) * width)
        with (Z.of_nat j * width + Z.of_nat (Z.to_nat width)) by lia.
      exact Hdst'.
  - exists dst. split; [done|].
    by replace (height * width) with (Z.of_nat (Z.to_nat height) * width)
      by lia.
Qed.

End box_blur.

Section blur_entry.
Context (src : list Z) (width height : Z).
Hypothesis Hwidth : 1 <= width.
Hypothesis Hheight : 1 <= height.
Hypothesis Hlen : len src = width * height * 4.
Hypothesis Hfit : len src <= max_int.

Lemma ApplyBlur_unfold (params : FilterParams) :
  ApplyBlur src width params =
  let radius := int_of_float64 (BlurRadius params) in
  if radius <=? 0 then Some (copy (make (len src)) src)
  else
    for_lt 0 height 1 (fun y dst =>
      for_lt 0 width 1 (fun x dst =>
        blur_pixel src width height radius y x dst) dst) (make (len src)).
Proof using Hwidth Hheight Hlen Hfit.
  unfold ApplyBlur. rewrite Hlen.
  replace (width * height * 4) with (height * width * 4) by lia.
  rewrite Z.rem_mul by lia. simpl.
  unfold int_div, int_mul.
  assert (width * 4 <= width * height * 4 /\ height <= width * height * 4)
    as [? ?] by nia.
  rewrite (wrap_int_small (width * 4)) by (unfold min_int, max_int in *; lia).
  destruct (Z.eqb_spec (width * 4) 0); [lia|]. simpl.
  replace (height * width * 4) with (height * (width * 4)) by lia.
  rewrite Z.quot_mul by lia.
  rewrite wrap_int_small by (unfold min_int, max_int in *; lia).
  destruct (Z.leb_spec height 0); [lia|]. done.
Qed.

Lemma copy_make : copy (make (len src)) src = src.
Proof.
  unfold copy, make, len. rewrite length_replicate, Nat2Z.id.
  rewrite firstn_all, drop_replicate, Nat.sub_diag. simpl.
  by rewrite app_nil_r.
Qed.

End blur_entry.

(** [int(f)] is never the largest int: a float with an odd integer value
    has at most 53 bits. *)
Lemma int_of_float64_below_max (f : float) : int_of_float64 f < max_int.
Proof.
  unfold int_of_float64, trunc_float.
  pose proof (Prim2SF_valid f) as Hvalid.
  destruct (Prim2SF f) as [s| | |s m e]; [by vm_compute..|].
  unfold valid_binary, bounded, canonical_mantissa, fexp in Hvalid.
  apply andb_true_iff in Hvalid as [Hcanon _].
  apply Z.eqb_eq in Hcanon.
  pose proof (digits2_pos_bounds m) as [_ Hm].
  assert (Zpos m < 2 ^ 53) as Hm53.
  { eapply Z.lt_le_trans; [exact Hm|]. apply Z.pow_le_mono_r; [lia|].
    unfold prec in Hcanon. lia. }
  set (v := match e with
            | 0 => Zpos m
            | Zpos _ => Zpos m * 2 ^ e
            | Zneg p => Zpos m / 2 ^ Zpos p
            end).
  assert (v <> max_int /\ - v <> max_int) as [Hv Hv'].
  { unfold max_int. subst v. destruct e as [|p|p].
    - lia.
    - replace (Zpos p) with (Z.succ (Z.pred (Zpos p))) by lia.
      rewrite Z.pow_succ_r by lia. lia.
    - assert (0 <= Zpos m / 2 ^ Zpos p <= Zpos m); [|lia]. split.
      + apply Z.div_pos; [lia|]. apply Z.pow_pos_nonneg; lia.
      + apply Z.div_le_upper_bound; [apply Z.pow_pos_nonneg; lia|].
        assert (0 < 2 ^ Zpos p) by (apply Z.pow_pos_nonneg; lia). nia. }
  destruct s.
  - destruct (_ && _) eqn:Hfit; [|by vm_compute].
    apply andb_true_iff in Hfit as [_ Hle%Z.leb_le]. lia.
  - destruct (_ && _) eqn:Hfit; [|by vm_compute].
    apply andb_true_iff in Hfit as [_ Hle%Z.leb_le]. lia.
Qed.

(** X1. On a whole-image buffer of at least one column and one row, a
    blur whose radius truncates to 0 or less (a radius below 1, a NaN, or
    one too large for an int) returns a buffer equal to the input. *)
Theorem ApplyBlur_radius_below_1 (src : list Z) (width height : Z)
    (params : FilterParams) :
  1 <= width -> 1 <= height ->
  len src = width * height * 4 -> len src <= max_int ->
  int_of_float64 (BlurRadius params) <= 0 ->
  ApplyBlur src width params = Some src.
Proof.
  intros Hw Hh Hlen Hfit Hr.
  rewrite (ApplyBlur_unfold src width height Hw Hh Hlen Hfit). cbv zeta.
  destruct (Z.leb_spec (int_of_float64 (BlurRadius params)) 0); [|lia].
  by rewrite copy_make.
Qed.

Lemma ApplyBlur_radius_below_1_witness :
  ApplyBlur two_pixels 2 unit_params = Some two_pixels.
Proof.
  apply (ApplyBlur_radius_below_1 two_pixels 2 1 unit_params).
  - lia.
  - lia.
  - reflexivity.
  - vm_compute. discriminate.
  - vm_compute. discriminate.
Defined.

(** X2. On a whole-image buffer of at least one column and one row and at
    most 2^44 pixels, a blur whose radius truncates to [r >= 1] returns a
    buffer of the same length in which every channel of every pixel is the
    truncated mean of the in-bounds samples of the (2r+1) x (2r+1) window
    of that pixel, a value between the least and the greatest of those
    samples.  All the sums are exact in float64. *)
Theorem ApplyBlur_box_mean (src : list Z) (width height : Z)
    (params : FilterParams) :
  is_bytes src -> 1 <= width -> 1 <= height ->
  len src = width * height * 4 -> width * height <= 2 ^ 44 ->
  let r := int_of_float64 (BlurRadius params) in
  1 <= r ->
  exists dst,
    ApplyBlur src width params = Some dst /\ len dst = len src /\
    forall x y c, 0 <= x < width -> 0 <= y < height -> 0 <= c < 4 ->
      let s := samples src width height r x y c in
      s <> [] /\
      dst !! Z.to_nat ((y * width + x) * 4 + c) = Some (mean s) /\
      minimum s <= mean s <= maximum s.
Proof.
  intros Hsrc Hw Hh Hlen Hsize r Hr.
  assert (len src <= max_int) as Hfit by (unfold max_int; lia).
  rewrite (ApplyBlur_unfold src width height Hw Hh Hlen Hfit). cbv zeta.
  fold r. destruct (Z.leb_spec r 0); [lia|].
  pose proof (int_of_float64_below_max (BlurRadius params)) as Hmax.
  fold r in Hmax.
  destruct (blur_loops src width height Hsrc Hw Hh Hlen Hsize r
              ltac:(lia)) as (dst & Hrun & Hlen' & Hdst).
  exists dst. split; [done|]. split; [unfold len; lia|].
  intros x y c Hx Hy Hc.
  set (s := samples src width height r x y c).
  assert (s <> []) as Hne.
  { pose proof (window_count width height Hw Hh r x y ltac:(lia) Hx Hy)
      as [Hpos _].
    unfold s, samples. intros Hnil. apply fmap_nil_inv in Hnil.
    rewrite Hnil in Hpos. unfold len in Hpos. simpl in Hpos. lia. }
  split; [done|]. split.
  - specialize (Hdst (y * width + x) c). unfold s.
    replace ((y * width + x) mod width) with x in Hdst
      by (rewrite Z.add_comm, Z.mod_add, Z.mod_small; lia).
    replace ((y * width + x) / width) with y in Hdst
      by (rewrite Z.add_comm, Z.div_add, Z.div_small; lia).
    apply Hdst; [nia|lia].
  - apply mean_bounds; [done|]. apply minimum_maximum.
Qed.

Lemma ApplyBlur_box_mean_witness :
  exists dst,
    ApplyBlur two_pixels 2 radius_1 = Some dst /\
    dst !! 0%nat = Some 30 /\ dst !! 7%nat = Some 60.
Proof.
  destruct (ApplyBlur_box_mean two_pixels 2 1 radius_1)
    as (dst & Hrun & _ & Hdst).
  - unfold two_pixels, is_bytes, is_uint8. repeat constructor; lia.
  - lia.
  - lia.
  - reflexivity.
  - lia.
  - vm_compute. discriminate.
  - exists dst. split; [exact Hrun|]. split.
    + destruct (Hdst 0 0 0) as (_ & H0 & _); [lia..|]. exact H0.
    + destruct (Hdst 1 0 3) as (_ & H7 & _); [lia..|]. exact H7.
Defined.

(** X3. With [width = 0] the blur panics on every buffer whose length is a
    multiple of 4, the empty one included: [len(src) / (width * 4)]
    divides by zero. *)
Theorem ApplyBlur_zero_width_panics (src : list Z) (params : FilterParams) :
  Z.rem (len src) 4 = 0 -> ApplyBlur src 0 params = None.
Proof. intros Hrem. unfold ApplyBlur. rewrite Hrem. reflexivity. Qed.

Lemma ApplyBlur_zero_width_panics_witness :
  ApplyBlur two_pixels 0 radius_1 = None.
Proof. apply ApplyBlur_zero_width_panics. reflexivity. Defined.



(** * Further properties of the code *)

(** ** Brightness and contrast at factor 1 *)

Lemma map_rgba_ext (px qx : Z -> Z -> Z -> Z -> Z * Z * Z * Z) (s : list Z) :
  is_bytes s ->
  (forall r g b a, is_uint8 r -> is_uint8 g -> is_uint8 b -> is_uint8 a ->
     px r g b a = qx r g b a) ->
  map_rgba px s = map_rgba qx s.
Proof.
  intros Hs Hpx. remember (length s) as n eqn:Hn.
  revert s Hs Hn. induction n as [n IH] using lt_wf_ind. intros s Hs Hn.
  destruct s as [|r [|g [|b [|a rest]]]]; try reflexivity.
  apply Forall_cons in Hs as [Hr Hs]. apply Forall_cons in Hs as [Hg Hs].
  apply Forall_cons in Hs as [Hb Hs]. apply Forall_cons in Hs as [Ha Hs].
  cbn [map_rgba]. rewrite (Hpx r g b a) by done.
  destruct (qx r g b a) as [[[r' g'] b'] a'].
  do 4 f_equal. apply (IH (length rest)); [simpl in Hn; lia|done|done].
Qed.

Lemma map_rgba_id (s : list Z) (n : nat) :
  length s = (4 * n)%nat -> map_rgba (fun r g b a => (r, g, b, a)) s = s.
Proof.
  revert s. induction n as [|n IH]; intros s Hs.
  - by destruct s.
  - destruct s as [|r [|g [|b [|a rest]]]]; simpl in Hs; try lia.
    cbn [map_rgba]. do 4 f_equal. apply IH. lia.
Qed.

Lemma brightness_of_1 (c : Z) : is_uint8 c -> brightness_of 1 c = c.
Proof.
  intros Hc.
  assert (forallb (fun c => brightness_of 1 c =? c) (seqZ 0 256) = true)
    as Hall by (vm_compute; reflexivity).
  rewrite forallb_forall in Hall.
  specialize (Hall c). rewrite <- list_elem_of_In, elem_of_seqZ in Hall.
  destruct Hc. apply Z.eqb_eq, Hall. lia.
Qed.

Lemma contrast_of_1 (c : Z) : is_uint8 c -> contrast_of 1 c = contrast_1 c.
Proof.
  intros Hc.
  assert (forallb (fun c => contrast_of 1 c =? contrast_1 c) (seqZ 0 256)
          = true) as Hall by (vm_compute; reflexivity).
  rewrite forallb_forall in Hall.
  specialize (Hall c). rewrite <- list_elem_of_In, elem_of_seqZ in Hall.
  destruct Hc. apply Z.eqb_eq, Hall. lia.
Qed.

(** X5. With a brightness factor of exactly 1 the filter returns a buffer
    equal to its input, whatever the length of the buffer. *)
Theorem ApplyBrightness_factor_1 (src : list Z) (width : Z)
    (params : FilterParams) :
  is_bytes src -> Brightness params = 1%float ->
  ApplyBrightness src width params = Some src.
Proof.
  intros Hsrc Hf.
  destruct (Z.eq_dec (Z.rem (len src) 4) 0) as [Hrem|Hrem].
  - rewrite ApplyBrightness_eq by done. rewrite Hf. f_equal.
    apply rem4_length in Hrem as [n Hn].
    rewrite <- (map_rgba_id src n Hn) at 2.
    apply map_rgba_ext; [done|]. intros r g b a Hr Hg Hb _.
    unfold brightness_px. by rewrite !brightness_of_1.
  - unfold ApplyBrightness.
    destruct (Z.eqb_spec (Z.rem (len src) 4) 0); [done|]. reflexivity.
Qed.

Lemma ApplyBrightness_factor_1_witness :
  ApplyBrightness [200; 50; 10; 255] 1 unit_params = Some [200; 50; 10; 255].
Proof.
  apply ApplyBrightness_factor_1.
  - unfold is_bytes, is_uint8. repeat constructor; lia.
  - reflexivity.
Defined.

(** X6. With a contrast factor of exactly 1 the filter is not the
    identity: on a buffer of whole pixels every colour channel below 128
    comes out as 255, every other colour channel and every alpha byte is
    kept. *)
Theorem ApplyContrast_factor_1 (src : list Z) (width : Z)
    (params : FilterParams) :
  is_bytes src -> Z.rem (len src) 4 = 0 -> Contrast params = 1%float ->
  ApplyContrast src width params
  = Some (map_rgba (fun r g b a =>
                      (contrast_1 r, contrast_1 g, contrast_1 b, a)) src).
Proof.
  intros Hsrc Hrem Hf. rewrite ApplyContrast_eq by done. rewrite Hf. f_equal.
  apply map_rgba_ext; [done|]. intros r g b a Hr Hg Hb _.
  unfold contrast_px. by rewrite !contrast_of_1.
Qed.

Lemma ApplyContrast_factor_1_witness :
  ApplyContrast [200; 50; 128; 7; 0; 127; 255; 0] 2 unit_params
  = Some [200; 255; 128; 7; 255; 255; 255; 0].
Proof.
  rewrite ApplyContrast_factor_1.
  - reflexivity.
  - unfold is_bytes, is_uint8. repeat constructor; lia.
  - reflexivity.
  - reflexivity.
Defined.

Lemma clamp_unfold (f : float) :
  clamp f =
  let m := if PrimFloat.eqb f neg_infinity then neg_infinity
           else if is_nan f then nan
           else if PrimFloat.ltb 255 f then 255%float else f in
  if PrimFloat.eqb m infinity then infinity
  else if is_nan m then nan
  else if PrimFloat.eqb 0 m then 0%float
  else if PrimFloat.ltb m 0 then 0%float else m.
Proof. reflexivity. Qed.

Lemma SFeqb_finite_refl (s : bool) (m : positive) (e : Z) :
  SFeqb (S754_finite s m e) (S754_finite s m e) = true.
Proof.
  unfold SFeqb, SFcompare. rewrite Z.compare_refl.
  change (PosDef.Pos.compare_cont Eq m m) with (Pos.compare m m).
  rewrite Pos.compare_refl. by destruct s.
Qed.

Ltac float_flag E :=
  rewrite ?FloatAxioms.eqb_spec, ?FloatAxioms.ltb_spec, ?E,
    ?SFeqb_finite_refl; reflexivity.

(** [clamp], by the kind of float it is given. *)
Lemma clamp_cases (f : float) :
  match Prim2SF f with
  | S754_nan => clamp f = nan
  | S754_zero _ => clamp f = 0%float
  | S754_infinity s => clamp f = if s then 0%float else 255%float
  | S754_finite true _ _ => clamp f = 0%float
  | S754_finite false m e =>
      clamp f = if SFltb (Prim2SF 255) (S754_finite false m e)
                then 255%float else f
  end.
Proof.
  rewrite clamp_unfold. cbv zeta.
  destruct (Prim2SF f) as [s|s| |s m e] eqn:E.
  - assert (PrimFloat.eqb f neg_infinity = false) as H1 by float_flag E.
    assert (is_nan f = false) as H2 by (unfold is_nan; float_flag E).
    assert (PrimFloat.ltb 255 f = false) as H3 by float_flag E.
    assert (PrimFloat.eqb f infinity = false) as H4 by float_flag E.
    assert (PrimFloat.eqb 0 f = true) as H5 by float_flag E.
    by rewrite H1, H2, H3, H4, H2, H5.
  - destruct s.
    + assert (PrimFloat.eqb f neg_infinity = true) as -> by float_flag E.
      reflexivity.
    + assert (PrimFloat.eqb f neg_infinity = false) as -> by float_flag E.
      assert (is_nan f = false) as -> by (unfold is_nan; float_flag E).
      assert (PrimFloat.ltb 255 f = true) as -> by float_flag E.
      reflexivity.
  - assert (PrimFloat.eqb f neg_infinity = false) as -> by float_flag E.
    assert (is_nan f = true) as -> by (unfold is_nan; float_flag E).
    reflexivity.
  - assert (PrimFloat.eqb f neg_infinity = false) as H1
      by (destruct s; float_flag E).
    assert (is_nan f = false) as H2 by (unfold is_nan; float_flag E).
    assert (PrimFloat.eqb f infinity = false) as H4
      by (destruct s; float_flag E).
    assert (PrimFloat.eqb 0 f = false) as H5 by (destruct s; float_flag E).
    assert (PrimFloat.ltb f 0 = s) as H6 by (destruct s; float_flag E).
    rewrite H1, H2, (FloatAxioms.ltb_spec 255 f), E.
    destruct s.
    + change (SFltb (Prim2SF 255) (S754_finite true m e)) with false.
      cbv iota. by rewrite H4, H2, H5, H6.
    + destruct (SFltb (Prim2SF 255) (S754_finite false m e)); [reflexivity|].
      by rewrite H4, H2, H5, H6.
Qed.

Lemma digits2_pos_lt (p : positive) : Zpos p < 2 ^ Zpos (digits2_pos p).
Proof. apply digits2_pos_bounds. Qed.

(** X7. For every float that is not a NaN, [clamp] yields a float whose
    integer part lies in [0, 255]: the conversion [uint8(clamp(v))] of the
    brightness and contrast filters never wraps around. *)
Theorem clamp_fits_uint8 (f : float) :
  is_nan f = false ->
  exists z, trunc_float (clamp f) = Some z /\ 0 <= z <= 255 /\
            uint8_of_float64 (clamp f) = z.
Proof.
  intros Hnan.
  assert (forall z, trunc_float (clamp f) = Some z -> 0 <= z <= 255 ->
            exists z, trunc_float (clamp f) = Some z /\ 0 <= z <= 255 /\
                      uint8_of_float64 (clamp f) = z) as Hfin.
  { intros z Hz Hr. exists z. split; [done|]. split; [done|].
    unfold uint8_of_float64. rewrite Hz. apply Z.mod_small. lia. }
  pose proof (clamp_cases f) as Hc.
  pose proof (Prim2SF_valid f) as Hvalid.
  destruct (Prim2SF f) as [s|s| |s m e] eqn:E.
  - rewrite Hc in *. by apply (Hfin 0).
  - rewrite Hc in *. destruct s; [by apply (Hfin 0)|by apply (Hfin 255)].
  - unfold is_nan in Hnan. rewrite FloatAxioms.eqb_spec, E in Hnan. done.
  - destruct s; [rewrite Hc in *; by apply (Hfin 0)|].
    destruct (SFltb (Prim2SF 255) (S754_finite false m e)) eqn:Hlt;
      [rewrite Hc in *; by apply (Hfin 255)|].
    rewrite Hc in *. clear Hc.
    unfold valid_binary, bounded, canonical_mantissa, fexp in Hvalid.
    apply andb_true_iff in Hvalid as [Hcanon _]. apply Z.eqb_eq in Hcanon.
    pose proof (digits2_pos_lt m) as Hm.
    assert (Zpos m < 2 ^ 53) as Hm53.
    { eapply Z.lt_le_trans; [exact Hm|]. apply Z.pow_le_mono_r; [lia|].
      unfold prec in Hcanon. lia. }
    change (Prim2SF 255) with (S754_finite false 8972014882652160 (-45)) in Hlt.
    unfold SFltb, SFcompare in Hlt.
    change (PosDef.Pos.compare_cont Eq 8972014882652160 m)
      with (Pos.compare 8972014882652160 m) in Hlt.
    assert (e < -45 \/ e = -45 /\ Zpos m <= 8972014882652160) as Hcase.
    { destruct (Z.compare (-45) e) eqn:He.
      - apply Z.compare_eq in He. right. split; [lia|].
        destruct (Pos.compare 8972014882652160 m) eqn:Hm'.
        + apply Pos.compare_eq in Hm'. rewrite <- Hm'. apply Z.le_refl.
        + discriminate Hlt.
        + apply Pos.compare_gt_iff in Hm'. apply Pos2Z.pos_le_pos.
          apply Pos.lt_le_incl, Hm'.
      - discriminate Hlt.
      - apply Z.compare_gt_iff in He. left. exact He. }
    unfold trunc_float in *. rewrite E in *.
    destruct e as [|p|p]; [lia|lia|].
    apply (Hfin (Zpos m / 2 ^ Zpos p)); [done|].
    assert (0 < 2 ^ Zpos p) by (apply Z.pow_pos_nonneg; lia).
    split; [apply Z.div_pos; lia|].
    apply Z.div_le_upper_bound; [lia|].
    destruct Hcase as [He|[He Hle]].
    + assert (2 ^ 46 <= 2 ^ Zpos p) by (apply Z.pow_le_mono_r; lia). lia.
    + assert (Zpos p = 45) as -> by lia. lia.
Qed.

Lemma clamp_fits_uint8_witness :
  exists z, trunc_float (clamp 300.5) = Some z /\ 0 <= z <= 255 /\
            uint8_of_float64 (clamp 300.5) = z.
Proof. apply clamp_fits_uint8. reflexivity. Defined.

(** X8. [clamp] is idempotent on every float, NaN included. *)
Theorem clamp_idempotent (f : float) : clamp (clamp f) = clamp f.
Proof.
  pose proof (clamp_cases f) as Hc.
  destruct (Prim2SF f) as [s|s| |s m e] eqn:E.
  - by rewrite Hc.
  - rewrite Hc. by destruct s.
  - by rewrite Hc.
  - destruct s; [by rewrite Hc|].
    destruct (SFltb (Prim2SF 255) (S754_finite false m e));
      [by rewrite Hc|]. by rewrite !Hc.
Qed.

(** ** Rows of an image: what [ExtractRowPixels] and [SetRowPixels] keep *)

Lemma with_row_lookup_in (img : image.RGBA) (row : Z) (pixels : list Z)
    (j : nat) :
  valid_RGBA img -> 0 <= row < image.Dy (image.Rect img) ->
  len pixels = image.Dx (image.Rect img) * 4 ->
  row * image.Stride img <= Z.of_nat j
    < row * image.Stride img + 4 * image.Dx (image.Rect img) ->
  image.Pix (with_row img row pixels) !! j
  = pixels !! (j - Z.to_nat (row * image.Stride img))%nat.
Proof.
  intros Hv Hrow Hpx Hj.
  destruct (valid_row_split img row Hv Hrow) as (Hsplit & Hpre & Hlen).
  destruct Hv as (Hdx & Hdy & Hstride & Hbuf).
  assert (0 <= row * image.Stride img) by nia.
  unfold with_row. cbn [image.Pix]. unfold len in *.
  rewrite lookup_app_r by lia.
  rewrite lookup_app_l by lia. f_equal. lia.
Qed.

Lemma with_row_row_bytes (img : image.RGBA) (row : Z) :
  valid_RGBA img -> 0 <= row < image.Dy (image.Rect img) ->
  with_row img row (row_bytes img row) = img.
Proof.
  intros Hv Hrow.
  destruct (valid_row_split img row Hv Hrow) as (Hsplit & _ & _).
  unfold with_row. rewrite <- Hsplit. by destruct img.
Qed.

Lemma with_row_with_row (img : image.RGBA) (row : Z) (p q : list Z) :
  valid_RGBA img -> 0 <= row < image.Dy (image.Rect img) ->
  len p = image.Dx (image.Rect img) * 4 ->
  len q = image.Dx (image.Rect img) * 4 ->
  with_row (with_row img row p) row q = with_row img row q.
Proof.
  intros Hv Hrow Hp Hq.
  destruct (with_row_valid img row p Hv Hrow Hp) as [Hv' Hlen'].
  destruct (with_row_valid img row q Hv Hrow Hq) as [_ Hlenq].
  destruct (with_row_valid (with_row img row p) row q Hv' Hrow Hq)
    as [_ Hlenpq].
  assert (image.Pix (with_row (with_row img row p) row q)
          = image.Pix (with_row img row q)) as Hpix.
  { apply list_eq. intros j.
    destruct (decide (row * image.Stride img <= Z.of_nat j
                < row * image.Stride img + 4 * image.Dx (image.Rect img)))
      as [Hin|Hout].
    - rewrite (with_row_lookup_in (with_row img row p)) by done.
      by rewrite (with_row_lookup_in img row q) by done.
    - rewrite (with_row_lookup_ne (with_row img row p)) by (try done; cbn; lia).
      rewrite (with_row_lookup_ne img row p) by (try done; lia).
      by rewrite (with_row_lookup_ne img row q) by (try done; lia). }
  unfold with_row in *. cbn [image.Pix image.Stride image.Rect] in *.
  by rewrite Hpix.
Qed.

Lemma with_row_comm (img : image.RGBA) (r1 r2 : Z) (p q : list Z) :
  valid_RGBA img ->
  0 <= r1 < image.Dy (image.Rect img) ->
  0 <= r2 < image.Dy (image.Rect img) -> r1 <> r2 ->
  len p = image.Dx (image.Rect img) * 4 ->
  len q = image.Dx (image.Rect img) * 4 ->
  with_row (with_row img r1 p) r2 q = with_row (with_row img r2 q) r1 p.
Proof.
  intros Hv H1 H2 Hne Hp Hq.
  destruct (with_row_valid img r1 p Hv H1 Hp) as [Hv1 _].
  destruct (with_row_valid img r2 q Hv H2 Hq) as [Hv2 _].
  pose proof Hv as (Hdx & Hdy & Hstride & Hbuf).
  assert (image.Pix (with_row (with_row img r1 p) r2 q)
          = image.Pix (with_row (with_row img r2 q) r1 p)) as Hpix.
  { apply list_eq. intros j.
    assert (r1 * image.Stride img + 4 * image.Dx (image.Rect img)
              <= r2 * image.Stride img
            \/ r2 * image.Stride img + 4 * image.Dx (image.Rect img)
              <= r1 * image.Stride img) as Hdisj by nia.
    destruct (decide (r1 * image.Stride img <= Z.of_nat j
                < r1 * image.Stride img + 4 * image.Dx (image.Rect img)))
      as [Hin1|Hout1];
    [|destruct (decide (r2 * image.Stride img <= Z.of_nat j
                < r2 * image.Stride img + 4 * image.Dx (image.Rect img)))
      as [Hin2|Hout2]].
    - rewrite (with_row_lookup_ne (with_row img r1 p) r2 q)
        by (try done; cbn; lia).
      rewrite (with_row_lookup_in img r1 p) by done.
      by rewrite (with_row_lookup_in (with_row img r2 q) r1 p) by done.
    - rewrite (with_row_lookup_in (with_row img r1 p) r2 q) by done.
      rewrite (with_row_lookup_ne (with_row img r2 q) r1 p)
        by (try done; cbn; lia).
      by rewrite (with_row_lookup_in img r2 q) by done.
    - rewrite (with_row_lookup_ne (with_row img r1 p) r2 q)
        by (try done; cbn; lia).
      rewrite (with_row_lookup_ne img r1 p) by (try done; lia).
      rewrite (with_row_lookup_ne (with_row img r2 q) r1 p)
        by (try done; cbn; lia).
      by rewrite (with_row_lookup_ne img r2 q) by (try done; lia). }
  unfold with_row in *. cbn [image.Pix image.Stride image.Rect] in *.
  by rewrite Hpix.
Qed.

(** X9. On an image that satisfies the layout invariant of the image
    package, [ExtractRowPixels] never panics: it returns nil exactly for
    the rows outside the image, and otherwise the [4 * width] bytes of the
    row as they lie in the pixel buffer. *)
Theorem ExtractRowPixels_total (img : image.RGBA) (row : Z) :
  valid_RGBA img ->
  exists r, ExtractRowPixels img row = Some r /\
    (r = None <-> ~ (0 <= row < image.Dy (image.Rect img))) /\
    (forall p, r = Some p ->
       p = row_bytes img row /\ len p = 4 * image.Dx (image.Rect img)).
Proof.
  intros Hv.
  destruct (decide (0 <= row < image.Dy (image.Rect img))) as [Hin|Hout].
  - exists (Some (row_bytes img row)).
    split; [by apply ExtractRowPixels_eq|]. split; [split; [done|tauto]|].
    intros p [= <-]. split; [done|].
    by destruct (valid_row_split img row Hv Hin) as (_ & _ & Hlen).
  - exists None. rewrite ExtractRowPixels_unfold.
    replace ((row <? 0) || (row >=? image.Dy (image.Rect img))) with true.
    + split; [done|]. split; [tauto|done].
    + symmetry. rewrite Z.geb_leb. apply orb_true_iff.
      destruct (Z.lt_ge_cases row 0); [left; by apply Z.ltb_lt|right].
      apply Z.leb_le. lia.
Qed.

Lemma ExtractRowPixels_total_witness :
  exists r, ExtractRowPixels one_pixel_rgba 1 = Some r /\ r = None.
Proof.
  destruct (ExtractRowPixels_total one_pixel_rgba 1) as (r & Hr & Hnil & _).
  - unfold valid_RGBA, image.Dx, image.Dy, len. cbn. lia.
  - exists r. split; [exact Hr|]. apply Hnil.
    unfold image.Dy. cbn. lia.
Defined.

(** X10. On such an image [SetRowPixels] never panics and keeps the
    bounds, the stride, the size of the buffer and the layout invariant;
    a row outside the image or a buffer that is not [4 * width] bytes
    long leaves the image as it was. *)
Theorem SetRowPixels_total (img : image.RGBA) (row : Z) (pixels : list Z) :
  valid_RGBA img ->
  exists img', SetRowPixels img row pixels = Some img' /\
    valid_RGBA img' /\
    image.Rect img' = image.Rect img /\
    image.Stride img' = image.Stride img /\
    len (image.Pix img') = len (image.Pix img) /\
    (~ (0 <= row < image.Dy (image.Rect img))
     \/ len pixels <> image.Dx (image.Rect img) * 4 -> img' = img).
Proof.
  intros Hv.
  destruct (decide (0 <= row < image.Dy (image.Rect img)
                    /\ len pixels = image.Dx (image.Rect img) * 4))
    as [[Hrow Hpx]|Hout].
  - exists (with_row img row pixels).
    destruct (with_row_valid img row pixels Hv Hrow Hpx) as [Hv' Hlen].
    split; [by apply SetRowPixels_eq|]. split; [done|].
    split; [done|]. split; [done|]. split; [unfold len; lia|].
    intros [?|?]; tauto.
  - exists img. rewrite SetRowPixels_unfold.
    replace ((row <? 0) || (row >=? image.Dy (image.Rect img))
             || negb (len pixels =? image.Dx (image.Rect img) * 4)) with true.
    + split; [done|]. split; [done|]. split; [done|]. split; [done|].
      split; [done|]. done.
    + symmetry. rewrite Z.geb_leb, !orb_true_iff, negb_true_iff.
      rewrite Z.ltb_lt, Z.leb_le, Z.eqb_neq. lia.
Qed.

Lemma SetRowPixels_total_witness :
  SetRowPixels one_pixel_rgba 0 [1; 2; 3] = Some one_pixel_rgba.
Proof.
  destruct (SetRowPixels_total one_pixel_rgba 0 [1; 2; 3])
    as (img' & Hset & _ & _ & _ & _ & Hsame).
  - unfold valid_RGBA, image.Dx, image.Dy, len. cbn. lia.
  - rewrite Hset. f_equal. apply Hsame. right.
    unfold image.Dx, len. cbn. lia.
Defined.

(** X11. Writing back the row that [ExtractRowPixels] returned leaves the
    image exactly as it was. *)
Theorem SetRowPixels_of_extracted (img : image.RGBA) (row : Z)
    (pixels : list Z) :
  valid_RGBA img ->
  ExtractRowPixels img row = Some (Some pixels) ->
  SetRowPixels img row pixels = Some img.
Proof.
  intros Hv Hget.
  destruct (ExtractRowPixels_total img row Hv) as (r & Hr & Hnil & Hrow).
  rewrite Hget in Hr. injection Hr as <-.
  destruct (Hrow pixels eq_refl) as [-> Hlen].
  destruct (decide (0 <= row < image.Dy (image.Rect img))) as [Hin|Hout];
    [|by apply Hnil in Hout].
  rewrite SetRowPixels_eq by (try done; lia).
  by rewrite with_row_row_bytes.
Qed.

Lemma SetRowPixels_of_extracted_witness :
  SetRowPixels one_pixel_rgba 0 (image.Pix one_pixel_rgba)
  = Some one_pixel_rgba.
Proof.
  apply SetRowPixels_of_extracted.
  - unfold valid_RGBA, image.Dx, image.Dy, len. cbn. lia.
  - reflexivity.
Defined.

(** X12. Two writes to the same row: the second one wins, the image is
    the one the second write alone would give. *)
Theorem SetRowPixels_overwrite (img img1 : image.RGBA) (row : Z)
    (p q : list Z) :
  valid_RGBA img ->
  0 <= row < image.Dy (image.Rect img) ->
  len p = image.Dx (image.Rect img) * 4 ->
  len q = image.Dx (image.Rect img) * 4 ->
  SetRowPixels img row p = Some img1 ->
  SetRowPixels img1 row q = SetRowPixels img row q.
Proof.
  intros Hv Hrow Hp Hq Hset.
  rewrite SetRowPixels_eq in Hset by done. injection Hset as <-.
  destruct (with_row_valid img row p Hv Hrow Hp) as [Hv' _].
  rewrite !SetRowPixels_eq by done.
  by rewrite with_row_with_row.
Qed.

Lemma SetRowPixels_overwrite_witness :
  SetRowPixels (with_row two_rows 0 [21; 22; 23; 24; 25; 26; 27; 28]) 0
    [31; 32; 33; 34; 35; 36; 37; 38]
  = SetRowPixels two_rows 0 [31; 32; 33; 34; 35; 36; 37; 38].
Proof.
  apply (SetRowPixels_overwrite two_rows _ 0 [21; 22; 23; 24; 25; 26; 27; 28]).
  - unfold valid_RGBA, image.Dx, image.Dy, len. cbn. lia.
  - unfold image.Dy. cbn. lia.
  - reflexivity.
  - reflexivity.
  - reflexivity.
Defined.

(** X13. Writes to two different rows commute: the write-back loop of a
    job gives the same image in whatever order it takes the rows. *)
Theorem SetRowPixels_rows_commute (img : image.RGBA) (r1 r2 : Z)
    (p q : list Z) :
  valid_RGBA img ->
  0 <= r1 < image.Dy (image.Rect img) ->
  0 <= r2 < image.Dy (image.Rect img) -> r1 <> r2 ->
  len p = image.Dx (image.Rect img) * 4 ->
  len q = image.Dx (image.Rect img) * 4 ->
  (img1 ← SetRowPixels img r1 p; SetRowPixels img1 r2 q)
  = (img2 ← SetRowPixels img r2 q; SetRowPixels img2 r1 p).
Proof.
  intros Hv H1 H2 Hne Hp Hq.
  destruct (with_row_valid img r1 p Hv H1 Hp) as [Hv1 _].
  destruct (with_row_valid img r2 q Hv H2 Hq) as [Hv2 _].
  rewrite (SetRowPixels_eq img r1 p), (SetRowPixels_eq img r2 q) by done.
  cbn [mbind option_bind].
  rewrite !SetRowPixels_eq by done.
  by rewrite with_row_comm.
Qed.

Lemma SetRowPixels_rows_commute_witness :
  (img1 ← SetRowPixels two_rows 0 [21; 22; 23; 24; 25; 26; 27; 28];
   SetRowPixels img1 1 [31; 32; 33; 34; 35; 36; 37; 38])
  = (img2 ← SetRowPixels two_rows 1 [31; 32; 33; 34; 35; 36; 37; 38];
     SetRowPixels img2 0 [21; 22; 23; 24; 25; 26; 27; 28]).
Proof.
  apply SetRowPixels_rows_commute.
  - unfold valid_RGBA, image.Dx, image.Dy, len. cbn. lia.
  - unfold image.Dy. cbn. lia.
  - unfold image.Dy. cbn. lia.
  - lia.
  - reflexivity.
  - reflexivity.
Defined.

(** ** [ImageToRGBA] *)

Lemma load_lookup {A : Type} (s : list A) (i : Z) :
  0 <= i -> load s i = s !! Z.to_nat i.
Proof. intros Hi. unfold load. by rewrite decide_True. Qed.

(** Four stores at [i .. i+3]: what a later read of four bytes sees. *)
Lemma store4_lookup (s : list Z) (i v0 v1 v2 v3 : Z) :
  0 <= i -> i + 4 <= len s ->
  exists s',
    (s0 ← store s i v0; s1 ← store s0 (i + 1) v1;
     s2 ← store s1 (i + 2) v2; store s2 (i + 3) v3) = Some s' /\
    length s' = length s /\
    s' !! Z.to_nat i = Some v0 /\
    s' !! Z.to_nat (i + 1) = Some v1 /\
    s' !! Z.to_nat (i + 2) = Some v2 /\
    s' !! Z.to_nat (i + 3) = Some v3 /\
    forall j : nat, (Z.of_nat j < i \/ i + 4 <= Z.of_nat j) -> s' !! j = s !! j.
Proof.
  intros Hi Hlen. unfold len in Hlen.
  rewrite store_insert by (unfold len; lia). cbn [mbind option_bind].
  rewrite store_insert by (unfold len; rewrite !length_insert; lia).
  cbn [mbind option_bind].
  rewrite store_insert by (unfold len; rewrite !length_insert; lia).
  cbn [mbind option_bind].
  rewrite store_insert by (unfold len; rewrite !length_insert; lia).
  eexists. split; [done|]. rewrite !length_insert.
  split; [done|]. split_and!.
  - rewrite !list_lookup_insert_ne by lia.
    by rewrite list_lookup_insert_eq by lia.
  - rewrite !list_lookup_insert_ne by lia.
    by rewrite list_lookup_insert_eq by (rewrite !length_insert; lia).
  - rewrite !list_lookup_insert_ne by lia.
    by rewrite list_lookup_insert_eq by (rewrite !length_insert; lia).
  - by rewrite list_lookup_insert_eq by (rewrite !length_insert; lia).
  - intros j Hj. by rewrite !list_lookup_insert_ne by lia.
Qed.

Section set_pixel.
Context (p : image.RGBA) (x y : Z).
Hypothesis Hin : image.Point_In {| image.X := x; image.Y := y |}
                   (image.Rect p) = true.
Hypothesis Hoff : 0 <= image.PixOffset p x y.
Hypothesis Hbuf : image.PixOffset p x y + 4 <= len (image.Pix p).

(** [SetRGBA] at a point inside the image: the point reads back as the
    colour written, every pixel stored elsewhere is untouched. *)
Lemma SetRGBA_RGBAAt (c : image.color_RGBA) :
  exists p',
    image.SetRGBA p x y c = Some p' /\
    image.Rect p' = image.Rect p /\
    image.Stride p' = image.Stride p /\
    length (image.Pix p') = length (image.Pix p) /\
    image.RGBAAt p' x y = Some c /\
    forall x' y',
      0 <= image.PixOffset p x' y' ->
      (image.PixOffset p x' y' + 4 <= image.PixOffset p x y
       \/ image.PixOffset p x y + 4 <= image.PixOffset p x' y') ->
      image.RGBAAt p' x' y' = image.RGBAAt p x' y'.
Proof using Hin Hoff Hbuf.
  destruct (store4_lookup (image.Pix p) (image.PixOffset p x y)
              (image.R c) (image.G c) (image.B c) (image.A c) Hoff Hbuf)
    as (pix & Hst & Hlen & H0 & H1 & H2 & H3 & Hother).
  unfold image.SetRGBA. rewrite Hin. cbn [negb].
  rewrite decide_True by done.
  exists {| image.Pix := pix; image.Stride := image.Stride p;
            image.Rect := image.Rect p |}.
  split.
  { destruct (store (image.Pix p) _ _) as [s0|]; [|done]. simpl in *.
    destruct (store s0 _ _) as [s1|]; [|done]. simpl in *.
    destruct (store s1 _ _) as [s2|]; [|done]. simpl in *.
    by rewrite Hst. }
  split; [done|]. split; [done|]. split; [done|]. split.
  - unfold image.RGBAAt. cbn [image.Rect image.Pix image.Stride].
    rewrite Hin. cbn [negb].
    change (image.PixOffset {| image.Pix := pix;
              image.Stride := image.Stride p; image.Rect := image.Rect p |} x y)
      with (image.PixOffset p x y).
    rewrite decide_True by (unfold len in *; lia).
    rewrite !load_lookup by lia. rewrite H0, H1, H2, H3. simpl.
    by destruct c.
  - intros x' y' Hoff' Hfar. unfold image.RGBAAt.
    cbn [image.Rect image.Pix image.Stride].
    destruct (negb _); [done|].
    change (image.PixOffset {| image.Pix := pix;
              image.Stride := image.Stride p; image.Rect := image.Rect p |} x' y')
      with (image.PixOffset p x' y').
    unfold len in *. rewrite Hlen.
    case_decide; [|done].
    rewrite !load_lookup by lia.
    by rewrite !Hother by lia.
Qed.

End set_pixel.

Lemma Point_In_spec (x y : Z) (r : image.Rectangle) :
  image.Point_In {| image.X := x; image.Y := y |} r = true <->
  image.X (image.Min r) <= x < image.X (image.Max r) /\
  image.Y (image.Min r) <= y < image.Y (image.Max r).
Proof.
  unfold image.Point_In. cbn.
  rewrite !andb_true_iff, !Z.leb_le, !Z.ltb_lt. lia.
Qed.

Lemma filled_step (img : image.Image) (i j : Z) (p : image.RGBA) :
  let r := image.Image_Bounds img in
  0 <= i < image.Dx r -> 0 <= j < image.Dy r ->
  filled img (j * image.Dx r + i) p ->
  exists p',
    image.RGBA_Set p (image.X (image.Min r) + i) (image.Y (image.Min r) + j)
      (image.Image_At img (image.X (image.Min r) + i)
         (image.Y (image.Min r) + j)) = Some p' /\
    filled img (j * image.Dx r + i + 1) p'.
Proof.
  intros r Hi Hj (HR & HS & HL & Hdone). fold r in HR, HS, HL, Hdone.
  set (x := image.X (image.Min r) + i). set (y := image.Y (image.Min r) + j).
  assert (forall x' y', image.PixOffset p x' y'
            = 4 * ((y' - image.Y (image.Min r)) * image.Dx r
                   + (x' - image.X (image.Min r)))) as Hoff.
  { intros x' y'. unfold image.PixOffset. rewrite HR, HS. lia. }
  assert (image.Point_In {| image.X := x; image.Y := y |} (image.Rect p)
          = true) as Hin.
  { rewrite HR. apply Point_In_spec. unfold image.Dx, image.Dy, x, y in *. lia. }
  assert (image.PixOffset p x y = 4 * (j * image.Dx r + i)) as Hxy
    by (rewrite Hoff; unfold x, y; f_equal; lia).
  destruct (SetRGBA_RGBAAt p x y Hin) with (c := image.Image_At img x y)
    as (p' & Hset & HR' & HS' & HL' & Hsame & Hother).
  { rewrite Hxy. nia. }
  { rewrite Hxy, HL. nia. }
  exists p'. split; [exact Hset|].
  unfold filled. fold r. rewrite HR', HS'. unfold len in *. rewrite HL'.
  split; [done|]. split; [done|]. split; [done|].
  intros x' y' Hin' Hidx.
  pose proof Hin' as [Hx' Hy']%Point_In_spec.
  destruct (decide (x' = x /\ y' = y)) as [[-> ->]|Hne]; [done|].
  assert ((y' - image.Y (image.Min r)) * image.Dx r
          + (x' - image.X (image.Min r)) <> j * image.Dx r + i) as Hidx'.
  { intros Heq. apply Hne. unfold x, y, image.Dx in *.
    assert (y' - image.Y (image.Min r) = j) by nia. lia. }
  rewrite Hother.
  - apply Hdone; [done|lia].
  - rewrite Hoff. unfold image.Dx in *. nia.
  - rewrite Hoff, Hxy. lia.
Qed.

(** X22. For an image whose bounds have non-negative sides and at most
    [max_int] bytes, [ImageToRGBA] does not panic and returns an RGBA
    image with the same bounds, rows [4 * Dx] bytes apart, in which
    every point of the bounds reads back as the colour of the source. *)
Theorem ImageToRGBA_pixels (img : image.Image) :
  let r := image.Image_Bounds img in
  0 <= image.Dx r -> 0 <= image.Dy r ->
  4 * image.Dx r * image.Dy r <= max_int ->
  exists rgba,
    ImageToRGBA img = Some rgba /\
    image.Rect rgba = r /\ image.Stride rgba = 4 * image.Dx r /\
    len (image.Pix rgba) = 4 * image.Dx r * image.Dy r /\
    forall x y,
      image.Point_In {| image.X := x; image.Y := y |} r = true ->
      image.RGBAAt rgba x y = Some (image.Image_At img x y).
Proof.
  intros r Hdx Hdy Hsize. unfold ImageToRGBA, image.NewRGBA. fold r.
  replace ((image.Dx r <? 0) || (image.Dy r <? 0)
           || (max_int <? 4 * image.Dx r * image.Dy r)) with false.
  2:{ symmetry. rewrite !orb_false_iff, !Z.ltb_ge. lia. }
  cbn [mbind option_bind]. unfold for_lt.
  replace (Z.to_nat ((image.Y (image.Max r) - image.Y (image.Min r) + 1 - 1) / 1))
    with (Z.to_nat (image.Dy r))
    by (rewrite Z.div_1_r; unfold image.Dy; f_equal; lia).
  destruct (iterate_rounds
    (fun y rgba =>
       iterate (Z.to_nat ((image.X (image.Max r) - image.X (image.Min r)
                           + 1 - 1) / 1)) (image.X (image.Min r)) 1
         (fun x rgba => image.RGBA_Set rgba x y (image.Image_At img x y)) rgba)
    (Z.to_nat (image.Dy r))
    (fun j p => filled img (Z.of_nat j * image.Dx r) p)
    (image.Y (image.Min r))
    {| image.Pix := make (4 * image.Dx r * image.Dy r);
       image.Stride := 4 * image.Dx r; image.Rect := r |})
    as (rgba & Hrun & Hfull).
  - unfold filled. fold r. cbn. split; [done|]. split; [done|].
    split; [unfold make, len; rewrite length_replicate; nia|].
    intros x y [Hx Hy]%Point_In_spec Hidx. unfold image.Dx, image.Dy in *. nia.
  - intros j p Hj Hrow.
    replace (Z.to_nat ((image.X (image.Max r) - image.X (image.Min r)
                        + 1 - 1) / 1)) with (Z.to_nat (image.Dx r))
      by (rewrite Z.div_1_r; unfold image.Dx; f_equal; lia).
    destruct (iterate_rounds
      (fun x rgba => image.RGBA_Set rgba x
                       (image.Y (image.Min r) + Z.of_nat j)
                       (image.Image_At img x
                          (image.Y (image.Min r) + Z.of_nat j)))
      (Z.to_nat (image.Dx r))
      (fun i p => filled img (Z.of_nat j * image.Dx r + Z.of_nat i) p)
      (image.X (image.Min r)) p) as (p' & Hrun' & Hrow').
    + by rewrite Z.add_0_r.
    + intros i p1 Hi Hp1.
      replace (Z.of_nat j * image.Dx r + Z.of_nat (S i))
        with (Z.of_nat j * image.Dx r + Z.of_nat i + 1) by lia.
      apply filled_step; [fold r; lia|fold r; lia|done].
    + exists p'. split; [exact Hrun'|].
      replace (Z.of_nat (S j) * image.Dx r)
        with (Z.of_nat j * image.Dx r + Z.of_nat (Z.to_nat (image.Dx r)))
        by lia.
      exact Hrow'.
  - exists rgba. split; [exact Hrun|].
    destruct Hfull as (HR & HS & HL & Hall). fold r in HR, HS, HL, Hall.
    split; [done|]. split; [done|]. split; [done|].
    intros x y Hin. apply Hall; [done|].
    apply Point_In_spec in Hin as [Hx Hy]. unfold image.Dx, image.Dy in *. nia.
Qed.

Lemma ImageToRGBA_pixels_witness :
  exists rgba,
    ImageToRGBA one_pixel_image = Some rgba /\
    image.RGBAAt rgba 0 0
    = Some {| image.R := 10; image.G := 20; image.B := 30; image.A := 255 |}.
Proof.
  destruct (ImageToRGBA_pixels one_pixel_image)
    as (rgba & Hrun & _ & _ & _ & Hat).
  - unfold image.Dx. cbn. lia.
  - unfold image.Dy. cbn. lia.
  - vm_compute. discriminate.
  - exists rgba. split; [exact Hrun|]. apply (Hat 0 0). reflexivity.
Defined.

(** ** One image job: what reaches the file system *)




(** X15. A job that fails before the save step (the input cannot be
    inspected, is too large, does not decode, or a row reports an error)
    leaves the file system alone: a result whose error is not a save
    failure comes with no event. *)
Theorem ProcessSingleImage_failure_writes_nothing (pf : platform.Platform)
    (cfg : config.Config) (order : list Z) (job : ImageJob)
    (result : ProcessingResult) (evs : list platform.fs_event) (e : error) :
  processor.ProcessSingleImage pf cfg order job = Some (result, evs) ->
  res_Error result = Some e ->
  (forall e', e <> fmt_Errorf_w "failed to save image: " e') ->
  evs = [].
Proof.
  unfold processor.ProcessSingleImage, processor.with_Error. intros H He Hns.
  repeat (case_match; simplify_option_eq; try done).
  by destruct (Hns _ eq_refl).
Qed.

Lemma ProcessSingleImage_failure_writes_nothing_witness :
  exists result,
    processor.ProcessSingleImage example_platform (example_config "sepia")
      [0] sepia_job = Some (result, []).
Proof.
  destruct (processor.ProcessSingleImage example_platform
              (example_config "sepia") [0] sepia_job)
    as [[result evs]|] eqn:Hrun; [|vm_compute in Hrun; discriminate].
  exists result. f_equal. f_equal.
  eapply (ProcessSingleImage_failure_writes_nothing _ _ _ _ _ _
            (fmt_Errorf_w "row processing failed: "
               (errors_New "unknown filter: sepia")) Hrun).
  - vm_compute in Hrun. by injection Hrun as <- _.
  - discriminate.
Defined.

(** X16. The size of the output is never reported: every result a job
    returns has [ProcessedSize = 0], because the size is read only when
    [os.Stat] of the output failed; and a result without an error is
    returned only when that [os.Stat] succeeded (when it fails after a
    save, the job dereferences a nil [FileInfo] and panics). *)
Theorem ProcessSingleImage_ProcessedSize (pf : platform.Platform)
    (cfg : config.Config) (order : list Z) (job : ImageJob)
    (result : ProcessingResult) (evs : list platform.fs_event) :
  processor.ProcessSingleImage pf cfg order job = Some (result, evs) ->
  ProcessedSize (Metadata result) = 0 /\
  (res_Error result = None ->
   exists n, platform.os_Stat_saved pf (OutputPath job) = inr n).
Proof.
  unfold processor.ProcessSingleImage, processor.with_Error. intros H.
  repeat (case_match; simplify_option_eq; try done); eauto.
Qed.

Lemma ProcessSingleImage_ProcessedSize_witness :
  exists result evs,
    processor.ProcessSingleImage example_platform (example_config "grayscale")
      [0] gray_job = Some (result, evs) /\
    res_Error result = None /\
    platform.os_Stat_saved example_platform (OutputPath gray_job) = inr 512 /\
    ProcessedSize (Metadata result) = 0.
Proof.
  destruct (processor.ProcessSingleImage example_platform
              (example_config "grayscale") [0] gray_job)
    as [[result evs]|] eqn:Hrun; [|vm_compute in Hrun; discriminate].
  exists result, evs. split; [reflexivity|].
  split; [vm_compute in Hrun; by injection Hrun as <- _|].
  split; [reflexivity|].
  by destruct (ProcessSingleImage_ProcessedSize _ _ _ _ _ _ Hrun) as [-> _].
Defined.

(** The panic itself, on a platform whose saved output cannot be
    inspected. *)
Example ProcessSingleImage_nil_FileInfo :
  processor.ProcessSingleImage no_stat_platform (example_config "grayscale")
    [0] gray_job = None.
Proof. vm_compute. reflexivity. Qed.

(** ** One image job, end to end *)

Lemma pixelwise_registered (name : FilterType) (params : FilterParams) px :
  pixelwise name params = Some px ->
  exists f, FilterRegistry !! name = Some f /\
    forall (s : list Z) (width : Z),
      Z.rem (len s) 4 = 0 -> f s width params = Some (map_rgba px s).
Proof.
  unfold pixelwise. repeat case_decide; intros [= <-]; subst name.
  - exists ApplyGrayScale. split; [reflexivity|].
    intros s w Hs. by apply ApplyGrayScale_eq.
  - exists ApplyBrightness. split; [reflexivity|].
    intros s w Hs. by apply ApplyBrightness_eq.
  - exists ApplyContrast. split; [reflexivity|].
    intros s w Hs. by apply ApplyContrast_eq.
Qed.

Lemma row_len_rem (rgba : image.RGBA) (i : Z) :
  valid_RGBA rgba -> 0 <= i < image.Dy (image.Rect rgba) ->
  Z.rem (len (row_bytes rgba i)) 4 = 0
  /\ len (map_rgba (fun r g b a => (r, g, b, a)) (row_bytes rgba i))
     = len (row_bytes rgba i).
Proof.
  intros Hv Hi. destruct (valid_row_split rgba i Hv Hi) as (_ & _ & Hlen).
  split.
  - rewrite Hlen, Z.mul_comm. apply Z.rem_mul. lia.
  - unfold len. f_equal.
    apply (map_rgba_length _ _ (Z.to_nat (image.Dx (image.Rect rgba)))).
    unfold len in Hlen. destruct Hv as (Hdx & _). lia.
Qed.

Lemma map_rgba_row_len (rgba : image.RGBA) px (i : Z) :
  valid_RGBA rgba -> 0 <= i < image.Dy (image.Rect rgba) ->
  len (map_rgba px (row_bytes rgba i)) = image.Dx (image.Rect rgba) * 4.
Proof.
  intros Hv Hi. destruct (valid_row_split rgba i Hv Hi) as (_ & _ & Hlen).
  unfold len in *.
  rewrite (map_rgba_length _ _ (Z.to_nat (image.Dx (image.Rect rgba))));
    destruct Hv as (Hdx & _); lia.
Qed.

Lemma row_task_pixelwise (job : ImageJob) (rgba : image.RGBA) (width i : Z)
    px :
  pixelwise (models.Filter job) (Params job) = Some px ->
  valid_RGBA rgba -> 0 <= i < image.Dy (image.Rect rgba) ->
  processor.row_task job rgba width i = Some (row_sent job rgba px i).
Proof.
  intros Hpx Hv Hi.
  destruct (pixelwise_registered _ _ _ Hpx) as (f & Hreg & Hf).
  unfold processor.row_task. rewrite ExtractRowPixels_eq by done.
  cbn [mbind option_bind]. unfold Filter in *. rewrite Hreg.
  rewrite Hf by (by apply row_len_rem). reflexivity.
Qed.

Lemma mapM_row_tasks (job : ImageJob) (rgba : image.RGBA) (width : Z) px
    (order : list Z) :
  pixelwise (models.Filter job) (Params job) = Some px ->
  valid_RGBA rgba ->
  Forall (fun i => 0 <= i < image.Dy (image.Rect rgba)) order ->
  mapM (processor.row_task job rgba width) order
  = Some (row_sent job rgba px <$> order).
Proof.
  intros Hpx Hv. induction 1 as [|i order Hi _ IH]; [done|].
  cbn. rewrite (row_task_pixelwise job rgba width i px) by done.
  cbn. rewrite IH. reflexivity.
Qed.

(** The collection loop on arrivals that all carry pixels: row [k] of the
    table is what the task of row [k] sent, whatever the order. *)
Lemma collect_rows_table (job : ImageJob) (rgba : image.RGBA) px
    (order : list Z) :
  forall rows : list (option (list Z)),
  Forall (fun i => 0 <= i < len rows) order ->
  exists rows',
    processor.collect_rows (row_sent job rgba px <$> order) rows
    = Some (inr rows') /\
    length rows' = length rows /\
    forall k : Z,
      0 <= k ->
      rows' !! Z.to_nat k
      = if decide (k ∈ order)
        then Some (Some (map_rgba px (row_bytes rgba k)))
        else rows !! Z.to_nat k.
Proof.
  induction order as [|i order IH]; intros rows Hall.
  - exists rows. split; [done|]. split; [done|]. intros k _.
    rewrite decide_False; [done|]. apply not_elem_of_nil.
  - apply Forall_cons in Hall as [Hi Hall].
    cbn [fmap list_fmap processor.collect_rows row_sent row_Error RowIndex
         Pixels].
    rewrite store_insert by done. cbn [mbind option_bind].
    destruct (IH (<[Z.to_nat i := Some (map_rgba px (row_bytes rgba i))]> rows))
      as (rows' & Hrun & Hlen & Hlook).
    { unfold len in *. by rewrite length_insert. }
    exists rows'. split; [exact Hrun|]. rewrite length_insert in Hlen.
    split; [done|]. intros k Hk. rewrite Hlook by done.
    destruct (decide (k ∈ order)) as [Hin|Hout].
    + rewrite decide_True; [done|]. by right.
    + destruct (decide (k = i)) as [->|Hne].
      * rewrite decide_True by (by left).
        apply list_lookup_insert_eq. unfold len in Hi. lia.
      * rewrite decide_False by (by intros [?|?]%elem_of_cons).
        apply list_lookup_insert_ne. lia.
Qed.

(** The write-back loop on a full table. *)
Lemma write_back_rows (rgba : image.RGBA) px
    (rows : list (option (list Z))) :
  valid_RGBA rgba ->
  (forall k, 0 <= k < image.Dy (image.Rect rgba) ->
     rows !! Z.to_nat k = Some (Some (map_rgba px (row_bytes rgba k)))) ->
  exists p,
    processor.write_back rgba (image.Dy (image.Rect rgba)) rows = Some p /\
    rows_written rgba px (image.Dy (image.Rect rgba)) p.
Proof.
  intros Hv Hrows. unfold processor.write_back. rewrite for_lt_unit.
  destruct (iterate_rounds
    (fun row rgba0 =>
       pixels ← load rows row;
       match pixels with
       | Some pixels => SetRowPixels rgba0 row pixels
       | None => Some rgba0
       end)
    (Z.to_nat (image.Dy (image.Rect rgba)))
    (fun j p => rows_written rgba px (Z.of_nat j) p) 0 rgba)
    as (p & Hrun & Hp).
  - split; [done|]. split; [done|]. split; [done|]. split; [|done].
    intros i Hi. lia.
  - intros j p Hj (Hvp & HR & HS & Hlow & Hhigh).
    rewrite Z.add_0_l, load_lookup by lia.
    rewrite Hrows by lia. cbn [mbind option_bind].
    assert (0 <= Z.of_nat j < image.Dy (image.Rect p)) as Hjp
      by (rewrite HR; lia).
    assert (len (map_rgba px (row_bytes rgba (Z.of_nat j)))
            = image.Dx (image.Rect p) * 4) as Hlen
      by (rewrite HR; apply map_rgba_row_len; [done|lia]).
    rewrite SetRowPixels_eq by done.
    eexists. split; [done|].
    destruct (with_row_valid p (Z.of_nat j) _ Hvp Hjp Hlen) as [Hv' _].
    split; [done|]. split; [done|]. split; [done|]. split.
    + intros i Hi. destruct (decide (i = Z.of_nat j)) as [->|Hne].
      * by apply row_bytes_with_row_same.
      * rewrite row_bytes_with_row_other by (try done; rewrite ?HR; lia).
        apply Hlow. lia.
    + intros i Hi.
      rewrite row_bytes_with_row_other by (try done; rewrite ?HR; lia).
      apply Hhigh. lia.
  - exists p. split; [exact Hrun|].
    by rewrite Z2Nat.id in Hp by (destruct Hv as (_ & ? & _); lia).
Qed.

Lemma saveImage_ok (pf : platform.Platform) (img : image.RGBA)
    (path format : string) (quality : Z) :
  platform.os_Create pf path = None ->
  (forall im q, platform.jpeg_Encode pf path im q = None) ->
  (forall im, platform.png_Encode pf path im = None) ->
  exists f, (f = "jpeg" \/ f = "png") /\
    processor.saveImage pf img path format quality
    = ([platform.Created path; platform.Encoded path f img], None).
Proof.
  intros Hc Hj Hp. unfold processor.saveImage. rewrite Hc. cbv zeta.
  case_decide.
  - exists "jpeg". split; [by left|]. by rewrite Hj.
  - exists "png". split; [by right|]. by rewrite Hp.
Qed.

(** X23. A job with one of the three pixel-wise filters, on a platform
    whose calls succeed: whatever the order in which the row goroutines
    deliver, the job returns without an error, creates its output path
    and encodes there an image with the bounds of the decoded one in
    which every row is the filter applied to that row of the decoded
    image; the metadata carry the dimensions, the format and the size of
    the input. *)
Theorem ProcessSingleImage_pixelwise (pf : platform.Platform)
    (cfg : config.Config) (order : list Z) (job : ImageJob) (size n : Z)
    (img : image.Image) (format : string) (rgba : image.RGBA)
    (px : Z -> Z -> Z -> Z -> Z * Z * Z * Z) :
  platform.os_Stat pf (InputPath job) = inr size ->
  size <= config.MaxFileSize cfg ->
  processor.loadImage pf (InputPath job) = inr (img, format) ->
  ImageToRGBA img = Some rgba ->
  order ≡ₚ seqZ 0 (image.Dy (image.Rect rgba)) ->
  pixelwise (models.Filter job) (Params job) = Some px ->
  platform.os_Create pf (OutputPath job) = None ->
  (forall im q, platform.jpeg_Encode pf (OutputPath job) im q = None) ->
  (forall im, platform.png_Encode pf (OutputPath job) im = None) ->
  platform.os_Stat_saved pf (OutputPath job) = inr n ->
  exists rgba' f,
    processor.ProcessSingleImage pf cfg order job
    = Some ({| res_InputPath := InputPath job;
               res_OutputPath := OutputPath job;
               ProcessingTime := platform.time_Since pf;
               res_Error := None;
               Metadata :=
                 {| Width := image.Dx (image.Rect rgba);
                    Height := image.Dy (image.Rect rgba);
                    Format := format; OriginalSize := size;
                    ProcessedSize := 0;
                    RowsProcessed := image.Dy (image.Rect rgba) |} |},
            [platform.Created (OutputPath job);
             platform.Encoded (OutputPath job) f rgba']) /\
    (f = "jpeg" \/ f = "png") /\
    image.Rect rgba' = image.Rect rgba /\
    image.Stride rgba' = image.Stride rgba /\
    forall i, 0 <= i < image.Dy (image.Rect rgba) ->
      row_bytes rgba' i = map_rgba px (row_bytes rgba i).
Proof.
  intros Hstat Hsize Hload Hrgba Horder Hpx Hcreate Hjpeg Hpng Hsaved.
  destruct (ImageToRGBA_valid img rgba Hrgba) as [Hv _].
  pose proof Hv as (_ & Hdy & _).
  set (h := image.Dy (image.Rect rgba)) in *.
  assert (Forall (fun i => 0 <= i < h) order) as Hrange.
  { apply Forall_forall. intros i Hi. rewrite Horder in Hi.
    apply elem_of_seqZ in Hi. lia. }
  destruct (collect_rows_table job rgba px order
              (replicate (Z.to_nat h) None)) as (rows & Hcol & _ & Hrows).
  { eapply Forall_impl; [exact Hrange|]. intros i Hi. cbn beta in *.
    unfold len. rewrite length_replicate. lia. }
  destruct (write_back_rows rgba px rows Hv) as (rgba' & Hwb & Hw).
  { intros k Hk. rewrite Hrows by lia. rewrite decide_True; [done|].
    rewrite Horder. apply elem_of_seqZ. fold h in Hk. lia. }
  destruct Hw as (_ & HR & HS & Hlow & _).
  destruct (saveImage_ok pf rgba' (OutputPath job) format
              (models.Quality (Params job)) Hcreate Hjpeg Hpng)
    as (f & Hf & Hsave).
  exists rgba', f. split; [|by repeat split].
  unfold processor.ProcessSingleImage. rewrite Hstat.
  replace (config.MaxFileSize cfg <? size) with false
    by (symmetry; apply Z.ltb_ge; lia).
  rewrite Hload, Hrgba. cbn [mbind option_bind]. unfold image.Bounds.
  fold h. rewrite (mapM_row_tasks job rgba _ px order Hpx Hv Hrange).
  cbn [mbind option_bind]. rewrite Hcol. cbn [mbind option_bind].
  fold h in Hwb. rewrite Hwb. cbn [mbind option_bind]. rewrite Hsave. cbn [fst snd].
  rewrite Hsaved. reflexivity.
Qed.

Lemma ProcessSingleImage_pixelwise_witness :
  exists rgba' f result,
    processor.ProcessSingleImage example_platform (example_config "grayscale")
      [0] gray_job
    = Some (result, [platform.Created "out/a_grayscale.png";
                     platform.Encoded "out/a_grayscale.png" f rgba']) /\
    row_bytes rgba' 0 = [18; 18; 18; 255].
Proof.
  destruct (ProcessSingleImage_pixelwise example_platform
              (example_config "grayscale") [0] gray_job 1024 512
              one_pixel_image "png" one_pixel_rgba gray_px)
    as (rgba' & f & Hrun & _ & _ & _ & Hrows); try reflexivity.
  - vm_compute. discriminate.
  - exists rgba', f. eexists. split; [exact Hrun|].
    rewrite (Hrows 0) by (vm_compute; split; discriminate || reflexivity).
    vm_compute. reflexivity.
Defined.

(** ** Configuration *)

Lemma validFilters_true (name : string) :
  default false (config.validFilters !! name) = true <->
  name = "grayscale" \/ name = "blur" \/ name = "brightness"
  \/ name = "contrast".
Proof.
  unfold config.validFilters. split.
  - destruct (_ !! name) as [b|] eqn:Hl; [|done]. simpl. intros ->.
    repeat (apply lookup_insert_Some in Hl as [[<- _]|[_ Hl]]; [tauto|]).
    by rewrite lookup_empty in Hl.
  - intros [-> | [-> | [-> | ->]]]; reflexivity.
Qed.

(** X17. The complete acceptance condition of [config.Validate]: positive worker
    counts, file-size limit and buffer size, a quality from 0 to 100 (0
    included), a blur radius that is not below 0 and a brightness that is
    not 0 or below (a NaN passes both comparisons), and one of the four
    filter names; the contrast is not looked at. *)
Theorem Validate_accepts_iff (c : config.Config) :
  config.Validate c = None <->
  0 < config.Workers c /\ 0 < config.RowWorkers c /\
  0 <= config.Quality c <= 100 /\
  PrimFloat.ltb (config.BlurRadius c) 0 = false /\
  PrimFloat.leb (config.Brightness c) 0 = false /\
  0 < config.MaxFileSize c /\ 0 < config.BufferSize c /\
  (config.Filter c = "grayscale" \/ config.Filter c = "blur" \/
   config.Filter c = "brightness" \/ config.Filter c = "contrast").
Proof.
  rewrite <- validFilters_true. unfold config.Validate.
  destruct (Z.leb_spec (config.Workers c) 0); [split; [done|lia]|].
  destruct (Z.leb_spec (config.RowWorkers c) 0); [split; [done|lia]|].
  destruct (Z.ltb_spec (config.Quality c) 0); [split; [done|lia]|].
  destruct (Z.ltb_spec 100 (config.Quality c)); [split; [done|lia]|].
  cbn [orb].
  destruct (PrimFloat.ltb (config.BlurRadius c) 0);
    [split; [done|intros (_ & _ & _ & ? & _); done]|].
  destruct (PrimFloat.leb (config.Brightness c) 0);
    [split; [done|intros (_ & _ & _ & _ & ? & _); done]|].
  destruct (Z.leb_spec (config.MaxFileSize c) 0); [split; [done|lia]|].
  destruct (Z.leb_spec (config.BufferSize c) 0); [split; [done|lia]|].
  destruct (default false (config.validFilters !! config.Filter c)); cbn [negb].
  - split; [intros _; repeat split; lia|done].
  - split; [done|]. intros (_ & _ & _ & _ & _ & _ & _ & ?). done.
Qed.

(** X18. A configuration that [config.Validate] accepts names a filter of the
    registry: the jobs built from it never end in "unknown filter". *)
Theorem Validate_filter_registered (c : config.Config) :
  config.Validate c = None ->
  exists f, FilterRegistry !! (config.Filter c : FilterType) = Some f.
Proof.
  intros (_ & _ & _ & _ & _ & _ & _ & Hf)%Validate_accepts_iff.
  destruct Hf as [-> | [-> | [-> | ->]]]; eexists; reflexivity.
Qed.

Lemma Validate_filter_registered_witness :
  exists f, FilterRegistry !! ("grayscale" : FilterType) = Some f.
Proof.
  apply (Validate_filter_registered (example_config "grayscale")).
  reflexivity.
Defined.

(** X19. [config.Validate] does not reject a NaN: with the blur radius and the
    brightness replaced by NaN, an accepted configuration is still
    accepted. *)
Theorem Validate_accepts_NaN (c : config.Config) :
  config.Validate c = None ->
  config.Validate {| config.InputDir := config.InputDir c;
              config.OutputDir := config.OutputDir c;
              config.Filter := config.Filter c;
              config.Workers := config.Workers c;
              config.RowWorkers := config.RowWorkers c;
              config.Quality := config.Quality c;
              config.BlurRadius := nan;
              config.Brightness := nan;
              config.Contrast := config.Contrast c;
              config.MaxFileSize := config.MaxFileSize c;
              config.BufferSize := config.BufferSize c |} = None.
Proof.
  rewrite !Validate_accepts_iff. cbn.
  intros (? & ? & ? & _ & _ & ? & ? & ?).
  split_and!; first [done | lia | reflexivity].
Qed.

Lemma Validate_accepts_NaN_witness :
  config.Validate {| config.InputDir := "in"; config.OutputDir := "out";
              config.Filter := "blur"; config.Workers := 1;
              config.RowWorkers := 2; config.Quality := 95;
              config.BlurRadius := nan; config.Brightness := nan;
              config.Contrast := 1; config.MaxFileSize := 104857600;
              config.BufferSize := 2 |} = None.
Proof.
  apply (Validate_accepts_NaN (example_config "blur")). reflexivity.
Defined.

(** ** The submission loop of a batch *)

Lemma busy_bounds (ws : list worker.worker_state) : 0 <= busy ws <= len ws.
Proof.
  unfold len. induction ws as [|[] ws IH]; simpl busy; simpl length; lia.
Qed.

Lemma busy_insert (ws : list worker.worker_state) (w : nat)
    (st st' : worker.worker_state) :
  ws !! w = Some st ->
  busy (<[w := st']> ws) + busy [st] = busy ws + busy [st'].
Proof.
  revert w. induction ws as [|s0 ws IH]; intros [|w] Hw; simplify_eq/=.
  - destruct st, st'; simpl; lia.
  - specialize (IH w Hw). destruct s0; simpl in *; lia.
Qed.

Lemma submitting_step (pf : platform.Platform) (cfg : config.Config)
    (paths : list string) (l : batch.label) (s s' : batch.system) :
  2 * Z.max 0 (config.BufferSize cfg) + Z.max 0 (config.Workers cfg)
    < len paths ->
  submitting_inv cfg s -> batch.step pf cfg paths l s = Some s' ->
  submitting_inv cfg s'.
Proof.
  intros Hmany Hinv Hstep.
  destruct s as [[n [jb jc jcl] [rb rc rcl] rr [qb qc qcl] wg] ws c m ev].
  unfold batch.step in Hstep. cbn in Hstep.
  destruct m as [i|rs|pc rs err|rs err|msg]; try done.
  unfold submitting_inv in Hinv. cbn in Hinv.
  destruct Hinv as (-> & -> & -> & Hjb & Hrb & Hws & Hi).
  pose proof (busy_bounds ws) as Hbusy.
  unfold sync.can_send in Hstep. cbn in Hstep.
  destruct l; cbn in Hstep;
    repeat (simplify_option_eq || case_match); try done;
    unfold submitting_inv, sync.can_send, len in *; cbn in *;
    rewrite ?length_app, ?length_insert; cbn [length];
    repeat match goal with
           | H : (_ <? _) = true |- _ => apply Z.ltb_lt in H
           | H : negb _ && _ = true |- _ => apply andb_true_iff in H as [_ H]
           end;
    try match goal with
        | H : ?ws !! ?w = Some ?st |- context [busy (<[?w := ?st']> ?ws)] =>
            pose proof (busy_insert ws w st st' H) as Hins; cbn in Hins
        end;
    first [lia | split_and!; first [done | lia]].
Qed.

Lemma busy_replicate (n : nat) : busy (replicate n worker.AtSelect) = 0.
Proof. induction n as [|n IH]; [done|]. simpl. exact IH. Qed.

Lemma submitting_initial (cfg : config.Config) :
  submitting_inv cfg (batch.initial cfg).
Proof.
  unfold submitting_inv, batch.initial, len. cbn.
  rewrite busy_replicate, length_replicate. split_and!; try done; lia.
Qed.

Lemma submitting_run (pf : platform.Platform) (cfg : config.Config)
    (paths : list string) (trace : list batch.label) :
  2 * Z.max 0 (config.BufferSize cfg) + Z.max 0 (config.Workers cfg)
    < len paths ->
  forall s s' : batch.system,
  submitting_inv cfg s -> batch.run pf cfg paths trace s = Some s' ->
  submitting_inv cfg s'.
Proof.
  intros Hmany.
  induction trace as [|l trace IH]; intros s s' Hinv Hrun; simpl in Hrun.
  - by simplify_eq.
  - destruct (batch.step pf cfg paths l s) as [s1|] eqn:Hstep; [|done].
    simpl in Hrun. eapply IH; [|done]. by eapply submitting_step.
Qed.

(** X20. [ProcessImages] submits every job before it reads a result, so a
    batch of more than [2 * BufferSize + Workers] paths never gets out of
    the submission loop: in every reachable state it is still submitting
    (at most that many jobs are handed over) or a job has panicked; it
    never returns, cancelled or not. *)
Theorem ProcessImages_large_batch_never_returns (pf : platform.Platform)
    (cfg : config.Config) (paths : list string) (s : batch.system) :
  2 * Z.max 0 (config.BufferSize cfg) + Z.max 0 (config.Workers cfg)
    < len paths ->
  batch.reachable pf cfg paths s ->
  (exists i : nat,
     batch.main s = batch.Submitting i /\
     Z.of_nat i <= 2 * Z.max 0 (config.BufferSize cfg)
                   + Z.max 0 (config.Workers cfg))
  \/ exists msg, batch.main s = batch.Panicked msg.
Proof.
  intros Hmany [trace Hrun].
  pose proof (submitting_run pf cfg paths trace Hmany _ _
                (submitting_initial cfg) Hrun) as Hinv.
  unfold submitting_inv in Hinv.
  destruct (batch.main s) as [i|rs|pc rs err|rs err|msg]; try done.
  - left. exists i. split; [done|].
    destruct Hinv as (_ & _ & _ & Hjb & Hrb & Hws & Hi).
    pose proof (busy_bounds (batch.workers s)). lia.
  - right. by exists msg.
Qed.

Lemma ProcessImages_large_batch_never_returns_witness :
  exists s,
    batch.run example_platform (example_config "grayscale")
      ["a"; "b"; "c"; "d"; "e"; "f"] stuck_run
      (batch.initial (example_config "grayscale")) = Some s /\
    batch.main s = batch.Submitting 5 /\
    batch.step example_platform (example_config "grayscale")
      ["a"; "b"; "c"; "d"; "e"; "f"] batch.Main_send s = None /\
    ((exists i : nat, batch.main s = batch.Submitting i /\ Z.of_nat i <= 5)
     \/ exists msg, batch.main s = batch.Panicked msg).
Proof.
  eexists. split; [vm_compute; reflexivity|].
  split; [reflexivity|]. split; [reflexivity|].
  apply (ProcessImages_large_batch_never_returns example_platform
           (example_config "grayscale") ["a"; "b"; "c"; "d"; "e"; "f"]).
  - vm_compute. reflexivity.
  - exists stuck_run. vm_compute. reflexivity.
Defined.

(** X21. [Stop] is not idempotent: once a [Stop] has run to its end, a
    second [Stop] on the same pool panics at its first statement,
    [close(wp.quit)], with "close of closed channel". *)
Theorem Stop_twice_panics (wp wp' : worker.WorkerPool) :
  sync.run_ops worker.exec_op worker.Stop wp = sync.Completes wp' ->
  sync.run_ops worker.exec_op worker.Stop wp'
  = sync.Panics worker.close_of_closed.
Proof.
  destruct wp as [n [jb jc jcl] [rb rc rcl] [rrb rrc rrcl] [qb qc qcl] w].
  unfold worker.Stop, sync.close. cbn.
  destruct qcl; [done|]. cbn. destruct jcl; [done|]. cbn.
  destruct (w =? 0); [|done]. destruct rcl; [done|]. cbn.
  by intros [= <-].
Qed.

Lemma Stop_twice_panics_witness :
  exists wp',
    sync.run_ops worker.exec_op worker.Stop (worker.NewWorkerPool 4 10)
    = sync.Completes wp' /\
    sync.run_ops worker.exec_op worker.Stop wp'
    = sync.Panics worker.close_of_closed.
Proof.
  eexists. split; [reflexivity|].
  apply (Stop_twice_panics (worker.NewWorkerPool 4 10)). reflexivity.
Defined.

(** ** The command line *)

Lemma supportedExts_true (ext : string) :
  default false (cmd.supportedExts !! ext) = true <->
  ext ∈ [".jpg"; ".jpeg"; ".png"; ".gif"; ".bmp"; ".tiff"; ".webp"].
Proof.
  unfold cmd.supportedExts. rewrite !elem_of_cons, elem_of_nil. split.
  - destruct (_ !! ext) as [b|] eqn:Hl; [|done]. simpl. intros ->.
    repeat (apply lookup_insert_Some in Hl as [[<- _]|[_ Hl]]; [tauto|]).
    by rewrite lookup_empty in Hl.
  - intros H. repeat (destruct H as [->|H]; [reflexivity|]). done.
Qed.

Lemma Walk_walk_fn (pf : platform.Platform) (visits : list cmd.visit) :
  forall files,
    cmd.Walk visits (cmd.walk_fn pf) files
    = (files ++ (cmd.visit_path <$> filter (is_image_visit pf) visits), None).
Proof.
  induction visits as [|v visits IH]; intros files; cbn [cmd.Walk].
  - by rewrite app_nil_r.
  - unfold cmd.walk_fn at 1. rewrite filter_cons.
    destruct (cmd.visit_err v) as [e|] eqn:He.
    + rewrite IH. rewrite decide_False; [done|]. intros (? & _). congruence.
    + destruct (cmd.visit_IsDir v) eqn:Hd; cbn [negb].
      * rewrite IH. rewrite decide_False; [done|]. intros (_ & ? & _). congruence.
      * cbv zeta.
        destruct (default false (cmd.supportedExts !! _)) eqn:Hs.
        -- rewrite IH. apply supportedExts_true in Hs.
           rewrite decide_True by done.
           by rewrite fmap_cons, <- app_assoc.
        -- rewrite IH. rewrite decide_False; [done|].
           intros (_ & _ & Hin). apply supportedExts_true in Hin. congruence.
Qed.

(** X24. [findImageFiles] never returns an error, whatever the walk
    meets: it returns, in the order of the walk, exactly the paths that
    were visited without an error, are not directories, and whose
    lower-cased extension is one of the seven supported ones. *)
Theorem findImageFiles_selects (pf : platform.Platform)
    (visits : list cmd.visit) :
  cmd.findImageFiles pf visits
  = (cmd.visit_path <$> filter (is_image_visit pf) visits, None).
Proof. unfold cmd.findImageFiles. by rewrite Walk_walk_fn. Qed.

(** X25. A file with the extension ".tif" is never picked up, although
    [loadImage] has a decoder case for it: the two lists of extensions
    differ. *)
Theorem findImageFiles_skips_tif (pf : platform.Platform)
    (visits : list cmd.visit) (path : string) (img : image.Image) :
  platform.strings_ToLower pf (platform.filepath_Ext pf path) = ".tif" ->
  platform.os_Open pf path = None ->
  platform.tiff_Decode pf path = inr img ->
  (path ∉ (cmd.findImageFiles pf visits).1) /\
  processor.loadImage pf path = inr (img, "tiff").
Proof.
  intros Hext Hopen Hdec. split.
  - rewrite findImageFiles_selects. cbn [fst].
    intros (v & -> & Hin)%list_elem_of_fmap.
    apply list_elem_of_filter in Hin as [(_ & _ & Hsup) _].
    rewrite Hext in Hsup.
    repeat (apply elem_of_cons in Hsup as [Hsup|Hsup]; [discriminate|]).
    by apply elem_of_nil in Hsup.
  - unfold processor.loadImage. rewrite Hopen. cbv zeta. rewrite Hext.
    rewrite decide_False by done. rewrite decide_False by done.
    rewrite decide_True by (by right). by rewrite Hdec.
Qed.

Lemma findImageFiles_skips_tif_witness :
  ("scan.tif" ∉ (cmd.findImageFiles tif_platform
                   [{| cmd.visit_path := "scan.tif"; cmd.visit_IsDir := false;
                       cmd.visit_err := None |}]).1) /\
  processor.loadImage tif_platform "scan.tif" = inr (one_pixel_image, "tiff").
Proof.
  apply findImageFiles_skips_tif; reflexivity.
Defined.

(** X26. A flag given its default value does not override the
    configuration file: with [-filter grayscale] on the command line the
    filter of the file stays. *)
Theorem apply_flags_default_keeps_file (numCPU : Z) (fl : cmd.Flags)
    (cfg : config.Config) :
  cmd.filter fl = "grayscale" ->
  config.Filter (cmd.apply_flags numCPU fl cfg) = config.Filter cfg.
Proof.
  intros Hf. unfold cmd.apply_flags. rewrite Hf.
  rewrite (decide_False (P := "grayscale" <> "grayscale")) by (intros H; by apply H).
  repeat case_match; reflexivity.
Qed.

Lemma apply_flags_default_keeps_file_witness :
  config.Filter (cmd.apply_flags 4 gray_flags (example_config "blur"))
  = "blur".
Proof.
  apply (apply_flags_default_keeps_file 4 gray_flags (example_config "blur")).
  reflexivity.
Defined.

(** X27. The flags are applied after [config.Load] has validated the
    file and are not validated themselves: a filter name outside the
    four, given on the command line, reaches the processor as it is; the
    configuration used is one that [Validate] refuses, and its filter is
    not in the registry. *)
Theorem apply_flags_not_validated (numCPU : Z) (fl : cmd.Flags)
    (cfg : config.Config) :
  cmd.filter fl ∉ ["grayscale"; "blur"; "brightness"; "contrast"] ->
  config.Filter (cmd.apply_flags numCPU fl cfg) = cmd.filter fl /\
  config.Validate (cmd.apply_flags numCPU fl cfg) <> None /\
  FilterRegistry !! (config.Filter (cmd.apply_flags numCPU fl cfg)
                     : FilterType) = None.
Proof.
  intros Hf. rewrite !not_elem_of_cons in Hf.
  destruct Hf as (Hg & Hb & Hr & Hc & _).
  assert (config.Filter (cmd.apply_flags numCPU fl cfg) = cmd.filter fl)
    as Heq.
  { unfold cmd.apply_flags.
    rewrite (decide_True (P := cmd.filter fl <> "grayscale")) by done.
    repeat case_match; reflexivity. }
  split; [done|]. split.
  - rewrite Validate_accepts_iff, Heq. tauto.
  - rewrite Heq. unfold FilterRegistry.
    rewrite !lookup_insert_ne by (intros ?; by simplify_eq).
    apply lookup_empty.
Qed.

Lemma apply_flags_not_validated_witness :
  config.Filter (cmd.apply_flags 4 sepia_flags (example_config "blur"))
    = "sepia" /\
  config.Validate (cmd.apply_flags 4 sepia_flags (example_config "blur"))
    <> None /\
  FilterRegistry
    !! (config.Filter (cmd.apply_flags 4 sepia_flags (example_config "blur"))
        : FilterType) = None.
Proof.
  apply (apply_flags_not_validated 4 sepia_flags (example_config "blur")).
  rewrite !not_elem_of_cons. split_and!; try discriminate.
  apply not_elem_of_nil.
Defined.

(** ** The pixel-wise filters on any buffer *)

Lemma map_rgba_alpha px (n : nat) :
  (forall r g b a, (px r g b a).2 = a) ->
  forall (s : list Z) (k : nat),
    length s = (4 * n)%nat ->
    map_rgba px s !! (4 * k + 3)%nat = s !! (4 * k + 3)%nat.
Proof.
  intros Hpx. induction n as [|n IH]; intros s k Hs.
  - by destruct s.
  - destruct s as [|r [|g [|b [|a rest]]]]; simpl in Hs; try lia.
    cbn [map_rgba]. specialize (Hpx r g b a).
    destruct (px r g b a) as [[[r' g'] b'] a']. simpl in Hpx. subst a'.
    destruct k as [|k]; [done|].
    replace (4 * S k + 3)%nat with (S (S (S (S (4 * k + 3))))) by lia.
    cbn [lookup list_lookup]. apply IH. lia.
Qed.

(** X28. Grayscale, brightness and contrast never panic, on any buffer
    and with any parameters: they return a buffer of the length of the
    input in which every fourth byte, the alpha of each pixel, is the
    alpha of the input. *)
Theorem pixelwise_filter_keeps_alpha (name : FilterType) (f : Filter)
    (src : list Z) (width : Z) (params : FilterParams) :
  FilterRegistry !! name = Some f -> name <> FilterBlur ->
  exists dst, f src width params = Some dst /\
    length dst = length src /\
    forall k : nat, dst !! (4 * k + 3)%nat = src !! (4 * k + 3)%nat.
Proof.
  intros Hreg Hnb.
  destruct (Z.eq_dec (Z.rem (len src) 4) 0) as [Hrem|Hrem].
  - pose proof Hrem as [n Hn]%rem4_length.
    assert (exists px, f src width params = Some (map_rgba px src)
                       /\ forall r g b a, (px r g b a).2 = a)
      as (px & Hf & Hpx).
    { apply FilterRegistry_lookup in Hreg
        as [[_ ->]|[[_ ->]|[[_ ->]|[-> _]]]]; [| | |done].
      - exists gray_px. split; [by apply ApplyGrayScale_eq|done].
      - exists (contrast_px (Contrast params)).
        split; [by apply ApplyContrast_eq|done].
      - exists (brightness_px (Brightness params)).
        split; [by apply ApplyBrightness_eq|done]. }
    exists (map_rgba px src). split; [done|].
    split; [by apply (map_rgba_length px src n)|].
    intros k. by apply (map_rgba_alpha px n).
  - exists src. split; [|done].
    assert ((Z.rem (len src) 4 =? 0) = false) as Hb by (by apply Z.eqb_neq).
    apply FilterRegistry_lookup in Hreg
      as [[_ ->]|[[_ ->]|[[_ ->]|[-> _]]]]; [| | |done].
    + unfold ApplyGrayScale. by rewrite Hb.
    + unfold ApplyContrast. by rewrite Hb.
    + unfold ApplyBrightness. by rewrite Hb.
Qed.

Lemma pixelwise_filter_keeps_alpha_witness :
  exists dst, ApplyContrast [200; 50; 10; 77] 1 unit_params = Some dst /\
    dst !! 3%nat = Some 77.
Proof.
  destruct (pixelwise_filter_keeps_alpha FilterConstrast ApplyContrast
              [200; 50; 10; 77] 1 unit_params) as (dst & Hrun & _ & Ha).
  - reflexivity.
  - discriminate.
  - exists dst. split; [exact Hrun|]. exact (Ha 0%nat).
Defined.

(** ** The blur of a flat image *)

Lemma flat_length (r g b a : Z) (n : nat) :
  length (flat r g b a n) = (4 * n)%nat.
Proof. induction n as [|n IH]; [done|]. cbn [flat length]. lia. Qed.

Lemma flat_lookup (r g b a : Z) (n q : nat) (c : nat) :
  (q < n)%nat -> (c < 4)%nat ->
  flat r g b a n !! (4 * q + c)%nat = [r; g; b; a] !! c.
Proof.
  revert q. induction n as [|n IH]; intros q Hq Hc; [lia|].
  cbn [flat]. destruct q as [|q].
  - rewrite Nat.mul_0_r, Nat.add_0_l.
    by destruct c as [|[|[|[|c]]]]; [..|lia].
  - replace (4 * S q + c)%nat with (S (S (S (S (4 * q + c))))) by lia.
    cbn [lookup list_lookup]. apply IH; lia.
Qed.

Lemma flat_bytes (r g b a : Z) (n : nat) :
  is_uint8 r -> is_uint8 g -> is_uint8 b -> is_uint8 a ->
  is_bytes (flat r g b a n).
Proof.
  intros Hr Hg Hb Ha. unfold is_bytes.
  induction n as [|n IH]; [constructor|].
  cbn [flat]. repeat (apply Forall_cons; split; [done|]). exact IH.
Qed.

(** X29. A flat image, every pixel of one colour, comes out of the blur
    unchanged, whatever the radius. *)
Theorem ApplyBlur_flat_image (r g b a width height : Z)
    (params : FilterParams) :
  is_uint8 r -> is_uint8 g -> is_uint8 b -> is_uint8 a ->
  1 <= width -> 1 <= height -> width * height <= 2 ^ 44 ->
  ApplyBlur (flat r g b a (Z.to_nat (width * height))) width params
  = Some (flat r g b a (Z.to_nat (width * height))).
Proof.
  intros Hr Hg Hb Ha Hw Hh Hsize.
  set (src := flat r g b a (Z.to_nat (width * height))).
  assert (len src = width * height * 4) as Hlen
    by (unfold len, src; rewrite flat_length; nia).
  destruct (Z.le_gt_cases (int_of_float64 (BlurRadius params)) 0) as [Hz|Hp].
  { apply (ApplyBlur_radius_below_1 src width height); try done.
    unfold max_int. lia. }
  destruct (ApplyBlur_box_mean src width height params)
    as (dst & Hrun & Hlen' & Hdst); try done.
  { by apply flat_bytes. }
  { lia. }
  rewrite Hrun. f_equal. apply list_eq. intros i.
  destruct (decide (i < length src)%nat) as [Hi|Hi].
  2:{ rewrite !lookup_ge_None_2; [done|lia|unfold len in Hlen'; lia]. }
  set (q := Z.of_nat i / 4). set (c := Z.of_nat i mod 4).
  assert (Z.of_nat i = q * 4 + c) as Hqc
    by (unfold q, c; pose proof (Z.div_mod (Z.of_nat i) 4); lia).
  assert (0 <= c < 4) as Hc by (apply Z.mod_pos_bound; lia).
  assert (0 <= q < width * height) as Hq by (unfold len in Hlen; lia).
  destruct (Hdst (q mod width) (q / width) c) as (Hne & Hmean & _).
  { apply Z.mod_pos_bound. lia. }
  { split; [apply Z.div_pos; lia|apply Z.div_lt_upper_bound; lia]. }
  { done. }
  replace (q / width * width + q mod width) with q in Hmean
    by (pose proof (Z.div_mod q width); lia).
  replace (Z.to_nat (q * 4 + c)) with i in Hmean by lia.
  rewrite Hmean.
  assert (forall p, in_bounds width height p ->
            Some (channel_at src width c p) = src !! i) as Hsame.
  { intros [nx ny] [Hx Hy]. simpl in Hx, Hy.
    unfold channel_at. cbn [fst snd].
    set (q' := ny * width + nx).
    assert (0 <= q' < width * height) as Hq' by (unfold q'; nia).
    assert (src !! i = [r; g; b; a] !! Z.to_nat c) as ->.
    { replace i with (4 * Z.to_nat q + Z.to_nat c)%nat by lia.
      apply flat_lookup; lia. }
    replace (Z.to_nat (q' * 4 + c))
      with (4 * Z.to_nat q' + Z.to_nat c)%nat by lia.
    unfold src. rewrite flat_lookup by lia.
    destruct (lookup_lt_is_Some_2 [r; g; b; a] (Z.to_nat c)) as [v ->];
      [simpl; lia|reflexivity]. }
  destruct (src !! i) as [v|] eqn:Hv;
    [|by apply lookup_lt_is_Some_2 in Hi as [? ?]; congruence].
  f_equal.
  assert (v <= mean (samples src width height
                       (int_of_float64 (BlurRadius params))
                       (q mod width) (q / width) c) <= v); [|lia].
  apply mean_bounds; [done|].
  unfold samples. apply Forall_fmap, Forall_forall.
  intros p [Hin _]%list_elem_of_filter. cbn.
  specialize (Hsame p Hin). injection Hsame as ->. lia.
Qed.

Lemma ApplyBlur_flat_image_witness :
  ApplyBlur (flat 9 8 7 255 6) 3 radius_1 = Some (flat 9 8 7 255 6).
Proof.
  apply (ApplyBlur_flat_image 9 8 7 255 3 2 radius_1);
    unfold is_uint8; lia.
Defined.

(** ** A pool without workers *)

Lemma idle_step (pf : platform.Platform) (cfg : config.Config)
    (paths : list string) (l : batch.label) (s s' : batch.system) :
  batch_inv paths s -> idle_inv s ->
  batch.step pf cfg paths l s = Some s' -> idle_inv s'.
Proof.
  intros Hinv (Hws & Hrq & Hcol) Hstep.
  destruct s as [[n [jb jc jcl] [rb rc rcl] rr [qb qc qcl] wg] ws c m ev].
  cbn in Hws, Hrq, Hcol. subst ws rb.
  unfold batch.step in Hstep. cbn in Hstep.
  destruct m as [i|rs|pc rs err|rs err|msg]; try done.
  - destruct l; cbn in Hstep;
      repeat (simplify_option_eq || case_match); try done.
  - cbn in Hcol. subst rs.
    unfold batch_inv in Hinv. cbn in Hinv.
    destruct Hinv as (_ & _ & _ & _ & _ & Hcl & _). cbn in Hcl. subst rcl.
    destruct l; cbn in Hstep;
      repeat (simplify_option_eq || case_match); try done.
  - cbn in Hcol. subst rs.
    destruct l; cbn in Hstep; try done.
    + by simplify_eq.
    + destruct pc as [|[|[|[|pc]]]]; cbn in Hstep; unfold sync.close in Hstep;
        cbn in Hstep;
        repeat (simplify_option_eq || case_match); try done.
  - destruct l; cbn in Hstep; by simplify_eq.
Qed.

Lemma idle_run_inv (pf : platform.Platform) (cfg : config.Config)
    (paths : list string) (trace : list batch.label) :
  forall s s' : batch.system,
  batch_inv paths s -> idle_inv s ->
  batch.run pf cfg paths trace s = Some s' -> idle_inv s'.
Proof.
  induction trace as [|l trace IH]; intros s s' Hinv Hidle Hrun;
    simpl in Hrun.
  - by simplify_eq.
  - destruct (batch.step pf cfg paths l s) as [s1|] eqn:Hstep; [|done].
    simpl in Hrun. eapply IH; [| |done].
    + by eapply step_inv.
    + by eapply idle_step.
Qed.

(** X30. With a worker count of 0 or less (which [-workers 0] on the
    command line gives, unvalidated), a batch of at least one path can
    only come back cancelled and empty: every return of [ProcessImages]
    carries no result and the cancellation error. *)
Theorem ProcessImages_without_workers (pf : platform.Platform)
    (cfg : config.Config) (paths : list string) (s : batch.system)
    (results : list ProcessingResult) (err : option error) :
  config.Workers cfg <= 0 -> paths <> [] ->
  batch.reachable pf cfg paths s ->
  batch.main s = batch.Returned results err ->
  results = [] /\ err = Some context_Canceled.
Proof.
  intros Hw Hne [trace Hrun] Hret.
  pose proof (run_inv pf cfg paths trace _ _ (initial_inv pf cfg paths) Hrun)
    as Hinv.
  assert (idle_inv (batch.initial cfg)) as Hidle0.
  { unfold idle_inv, batch.initial. cbn.
    by replace (Z.to_nat (config.Workers cfg)) with 0%nat by lia. }
  pose proof (idle_run_inv pf cfg paths trace _ _ (initial_inv pf cfg paths)
                Hidle0 Hrun) as (_ & _ & Hcol).
  rewrite Hret in Hcol. cbn in Hcol. subst results. split; [done|].
  unfold batch_inv in Hinv. rewrite Hret in Hinv.
  destruct Hinv as (_ & _ & _ & _ & _ & _ & _ & _ & Hv).
  unfold verdict in Hv. rewrite Hret in Hv.
  destruct err as [e|]; [by destruct Hv as [-> _]|].
  destruct paths; [done|]. simpl in Hv. lia.
Qed.

Lemma ProcessImages_without_workers_witness :
  exists s results err,
    batch.run example_platform no_worker_config ["a"] idle_run
      (batch.initial no_worker_config) = Some s /\
    batch.main s = batch.Returned results err /\
    results = [] /\ err = Some context_Canceled.
Proof.
  eexists _, _, _. split; [vm_compute; reflexivity|].
  split; [reflexivity|].
  eapply (ProcessImages_without_workers example_platform no_worker_config
            ["a"]).
  - vm_compute. discriminate.
  - discriminate.
  - exists idle_run. vm_compute. reflexivity.
  - reflexivity.
Defined.
